(** * S1 palette generator: the colour pipeline of [App.jsx]

    A shallow embedding of the colour-science core of the palette
    generator, version 0.2.1 (colour-space conversions, harmonisation,
    dominant-colour extraction, palette expansion, refinement and
    export), followed by the properties stated about it.  Of the
    earlier copy, version 0.1.2, the variations generator and the range
    filter are embedded as well, in the module [AppJsx].

    JavaScript numbers.  The source computes on IEEE-754 doubles.  The
    code below is written once over an interface [JSNumber] of the
    operations the source uses ([+ - * / %], comparisons, [===],
    [Math.floor], [Math.round]) and has two implementations:

    - [xnum], exact rational arithmetic extended with [NaN] and the two
      infinities: doubles with the rounding error of each operation
      taken to be zero and the two zeros identified.  Properties that
      depend on arithmetic and speak of every colour are proved for it.
    - [float], the binary64 numbers of the kernel, whose operations are
      those of the source.  The examples are evaluated with it as well.

    Properties that only depend on the shape of the code are proved for
    every implementation of the interface.  The two implementations can
    differ by one in a channel that [Math.round] takes from a value
    within rounding error of a half. *)

From Stdlib Require Import ZArith QArith Qround Qabs Lia Lqa List String Ascii Bool.
From Stdlib Require Import Permutation Sorted.
From Stdlib Require Floats.
Import ListNotations.

Set Implicit Arguments.

(* ================================================================== *)
(** * The number interface *)

Declare Scope js_scope.
Delimit Scope js_scope with js.

Class JSNumber (num : Type) : Type := {
  of_Z : Z -> num;                    (* an integer literal *)
  NaN : num;
  Infinity : num;
  add : num -> num -> num;            (* a + b *)
  sub : num -> num -> num;            (* a - b *)
  mul : num -> num -> num;            (* a * b *)
  div : num -> num -> num;            (* a / b *)
  rem : num -> num -> num;            (* a % b *)
  lt : num -> num -> bool;            (* a < b *)
  le : num -> num -> bool;            (* a <= b *)
  strict_eq : num -> num -> bool;           (* a === b *)
  Math_floor : num -> num;
  Math_round : num -> num;
  as_index : num -> option nat        (* a number used as an array index *)
}.

Infix "+" := add : js_scope.
Infix "-" := sub : js_scope.
Infix "*" := mul : js_scope.
Infix "/" := div : js_scope.
Infix "<?" := lt (at level 70, no associativity) : js_scope.
Infix "<=?" := le (at level 70, no associativity) : js_scope.
Notation "a >? b" := (lt b a) (at level 70, no associativity) : js_scope.
Notation "a >=? b" := (le b a) (at level 70, no associativity) : js_scope.
Infix "===" := strict_eq (at level 70, no associativity) : js_scope.

Section Numbers.
Context {num : Type} {JS : JSNumber num}.
Local Open Scope js_scope.

(** A decimal literal such as [0.15], written [dec 15 100]: the
    quotient of two integers, which an exact implementation keeps and a
    binary one rounds to the nearest double, as the literal is. *)
Definition dec (n : Z) (d : positive) : num := of_Z n / of_Z (Zpos d).

Definition isNaN (x : num) : bool := negb (x === x).

(** [Math.max] and [Math.min] of two numbers: [NaN] if either is. *)
Definition Math_max (a b : num) : num :=
  if isNaN a then a else if isNaN b then b else if a <? b then b else a.

Definition Math_min (a b : num) : num :=
  if isNaN a then a else if isNaN b then b else if b <? a then b else a.

Definition Math_max3 (a b c : num) : num := Math_max (Math_max a b) c.
Definition Math_min3 (a b c : num) : num := Math_min (Math_min a b) c.

(** [if (x)] on a number: false for [0] and [NaN]. *)
Definition truthy (x : num) : bool := negb (x === of_Z 0) && negb (isNaN x).

Definition isFinite (x : num) : bool :=
  (of_Z 0 - Infinity <? x) && (x <? Infinity).
End Numbers.

(* ================================================================== *)
(** * Colour-space conversions *)

(** A colour, and an HSL, HSV or Lab view of one: a three-element array. *)
Definition Color (num : Type) : Type := (num * num * num)%type.

Section ColorSpace.
Context {num : Type} {JS : JSNumber num}.
Local Open Scope js_scope.
Local Abbreviation Color := (Color num).

(** The [switch (max)] of [rgbToHsl] and [rgbToHsv] with the [h /= 6]
    that follows it.  When no case matches, [h] is still [undefined]
    and the division yields [NaN]. *)
Definition hue_switch (max r g b d : num) : num :=
  let h :=
    if max === r then (g - b) / d + (if g <? b then of_Z 6 else of_Z 0)
    else if max === g then (b - r) / d + of_Z 2
    else if max === b then (r - g) / d + of_Z 4
    else NaN in
  h / of_Z 6.

Definition rgbToHsl (r g b : num) : Color :=
  let r := r / of_Z 255 in
  let g := g / of_Z 255 in
  let b := b / of_Z 255 in
  let max := Math_max3 r g b in
  let min := Math_min3 r g b in
  let l := (max + min) / of_Z 2 in
  if max === min then (of_Z 0, of_Z 0, l)
  else
    let d := max - min in
    let s := if l >? dec 5 10
             then d / (of_Z 2 - max - min)
             else d / (max + min) in
    (hue_switch max r g b d, s, l).

Definition hue2rgb (p q t : num) : num :=
  let t := if t <? of_Z 0 then t + of_Z 1 else t in
  let t := if t >? of_Z 1 then t - of_Z 1 else t in
  if t <? of_Z 1 / of_Z 6 then p + (q - p) * of_Z 6 * t
  else if t <? of_Z 1 / of_Z 2 then q
  else if t <? of_Z 2 / of_Z 3 then p + (q - p) * (of_Z 2 / of_Z 3 - t) * of_Z 6
  else p.

Definition hslToRgb (h s l : num) : Color :=
  let '(r, g, b) :=
    if s === of_Z 0 then (l, l, l)
    else
      let q := if l <? dec 5 10 then l * (of_Z 1 + s) else l + s - l * s in
      let p := of_Z 2 * l - q in
      (hue2rgb p q (h + of_Z 1 / of_Z 3),
       hue2rgb p q h,
       hue2rgb p q (h - of_Z 1 / of_Z 3)) in
  (Math_round (r * of_Z 255), Math_round (g * of_Z 255), Math_round (b * of_Z 255)).

Definition rgbToHsv (r g b : num) : Color :=
  let r := r / of_Z 255 in
  let g := g / of_Z 255 in
  let b := b / of_Z 255 in
  let max := Math_max3 r g b in
  let min := Math_min3 r g b in
  let d := max - min in
  let v := max in
  let s := if max === of_Z 0 then of_Z 0 else d / max in
  let h := if max === min then of_Z 0 else hue_switch max r g b d in
  (h, s, v).

(** [switch (i % 6)]: with no matching case the three channels stay
    [undefined], and [Math.round(undefined * 255)] is [NaN]. *)
Definition hsvToRgb (h s v : num) : Color :=
  let i := Math_floor (h * of_Z 6) in
  let f := h * of_Z 6 - i in
  let p := v * (of_Z 1 - s) in
  let q := v * (of_Z 1 - f * s) in
  let t := v * (of_Z 1 - (of_Z 1 - f) * s) in
  let k := rem i (of_Z 6) in
  let '(r, g, b) :=
    if k === of_Z 0 then (v, t, p)
    else if k === of_Z 1 then (q, v, p)
    else if k === of_Z 2 then (p, v, t)
    else if k === of_Z 3 then (p, q, v)
    else if k === of_Z 4 then (t, p, v)
    else if k === of_Z 5 then (v, p, q)
    else (NaN, NaN, NaN) in
  (Math_round (r * of_Z 255), Math_round (g * of_Z 255), Math_round (b * of_Z 255)).
End ColorSpace.

(* ================================================================== *)
(** * Exact numbers *)

Inductive xnum : Type :=
| Fin (q : Q)
| PInf
| NInf
| XNaN.

(** Comparison and rounding of rationals. *)
Module QOps.
Definition qltb (a b : Q) : bool := negb (Qle_bool b a).

(** Truncation towards zero. *)
Definition Qtrunc (q : Q) : Z := if Qle_bool 0 q then Qfloor q else Qceiling q.

(** [Math.round] rounds to the nearest integer, a half upwards. *)
Definition Qround (q : Q) : Z := Qfloor (q + (1 # 2)).
End QOps.

Module XNum.
Import QOps.

Definition neg (a : xnum) : xnum :=
  match a with
  | Fin q => Fin (- q)
  | PInf => NInf
  | NInf => PInf
  | XNaN => XNaN
  end.

Definition add (a b : xnum) : xnum :=
  match a, b with
  | XNaN, _ | _, XNaN => XNaN
  | Fin x, Fin y => Fin (x + y)
  | PInf, NInf | NInf, PInf => XNaN
  | PInf, _ | _, PInf => PInf
  | NInf, _ | _, NInf => NInf
  end.

Definition sub (a b : xnum) : xnum :=
  match a, b with
  | Fin x, Fin y => Fin (x - y)
  | _, _ => add a (neg b)
  end.

(** The infinity of the sign of [q], taking [0] as positive. *)
Definition inf_sign (positive : bool) : xnum := if positive then PInf else NInf.

Definition mul_inf (positive : bool) (b : xnum) : xnum :=
  match b with
  | XNaN => XNaN
  | Fin y => if Qeq_bool y 0 then XNaN else inf_sign (Bool.eqb positive (qltb 0 y))
  | PInf => inf_sign positive
  | NInf => inf_sign (negb positive)
  end.

Definition mul (a b : xnum) : xnum :=
  match a, b with
  | XNaN, _ | _, XNaN => XNaN
  | Fin x, Fin y => Fin (x * y)
  | PInf, _ => mul_inf true b
  | NInf, _ => mul_inf false b
  | _, PInf => mul_inf true a
  | _, NInf => mul_inf false a
  end.

Definition div (a b : xnum) : xnum :=
  match a, b with
  | XNaN, _ | _, XNaN => XNaN
  | Fin x, Fin y =>
      if Qeq_bool y 0
      then if Qeq_bool x 0 then XNaN else inf_sign (qltb 0 x)
      else Fin (x / y)
  | Fin _, (PInf | NInf) => Fin 0
  | (PInf | NInf), (PInf | NInf) => XNaN
  | PInf, Fin y => inf_sign (Qle_bool 0 y)
  | NInf, Fin y => inf_sign (negb (Qle_bool 0 y))
  end.

Definition rem (a b : xnum) : xnum :=
  match a, b with
  | XNaN, _ | _, XNaN => XNaN
  | (PInf | NInf), _ => XNaN
  | Fin x, (PInf | NInf) => Fin x
  | Fin x, Fin y =>
      if Qeq_bool y 0 then XNaN else Fin (x - y * inject_Z (Qtrunc (x / y)))
  end.

Definition lt (a b : xnum) : bool :=
  match a, b with
  | XNaN, _ | _, XNaN => false
  | Fin x, Fin y => qltb x y
  | NInf, (Fin _ | PInf) => true
  | Fin _, PInf => true
  | _, _ => false
  end.

Definition strict_eq (a b : xnum) : bool :=
  match a, b with
  | Fin x, Fin y => Qeq_bool x y
  | PInf, PInf | NInf, NInf => true
  | _, _ => false
  end.

Definition le (a b : xnum) : bool := lt a b || strict_eq a b.

Definition lift (f : Q -> Z) (a : xnum) : xnum :=
  match a with
  | Fin x => Fin (inject_Z (f x))
  | _ => a
  end.

Definition as_index (a : xnum) : option nat :=
  match a with
  | Fin x => if Qeq_bool x (inject_Z (Qfloor x)) && Qle_bool 0 x
             then Some (Z.to_nat (Qfloor x)) else None
  | _ => None
  end.
End XNum.

#[export] Instance xnum_JSNumber : JSNumber xnum := {|
  of_Z := fun z => Fin (inject_Z z);
  NaN := XNaN;
  Infinity := PInf;
  add := XNum.add;
  sub := XNum.sub;
  mul := XNum.mul;
  div := XNum.div;
  rem := XNum.rem;
  lt := XNum.lt;
  le := XNum.le;
  strict_eq := XNum.strict_eq;
  Math_floor := XNum.lift Qfloor;
  Math_round := XNum.lift QOps.Qround;
  as_index := XNum.as_index
|}.

(* ================================================================== *)
(** * Binary64 numbers *)

Module B64.
Import Floats.PrimFloat Floats.SpecFloat Floats.FloatOps.

(** An integer below [2^53] in magnitude, bit by bit: every step is
    exact. *)
Fixpoint of_pos (p : positive) : float :=
  match p with
  | xH => 1%float
  | xO q => PrimFloat.mul 2%float (of_pos q)
  | xI q => PrimFloat.add (PrimFloat.mul 2%float (of_pos q)) 1%float
  end.

(** The double nearest to an integer. *)
Definition of_Z (z : Z) : float :=
  if (Z.abs z <? 9007199254740992)%Z then
    match z with
    | Z0 => 0%float
    | Zpos p => of_pos p
    | Zneg p => PrimFloat.opp (of_pos p)
    end
  else SF2Prim (binary_normalize prec emax z 0 false).

Definition zero : float := 0%float.
Definition one : float := 1%float.
Definition half : float := 0.5%float.
Definition two52 : float := 0x1p52%float.

(** [Math.floor].  Below [2^52] in magnitude, adding and subtracting
    [2^52] rounds to the nearest integer, which is the floor or one above
    it; from [2^52] on every double is an integer. *)
Definition floor (x : float) : float :=
  if PrimFloat.ltb (PrimFloat.abs x) two52 then
    let r := if PrimFloat.leb zero x
             then PrimFloat.sub (PrimFloat.add x two52) two52
             else PrimFloat.add (PrimFloat.sub x two52) two52 in
    if PrimFloat.ltb x r then PrimFloat.sub r one else r
  else x.

(** [Math.round]: the floor, or one above it when the fraction, which
    the subtraction computes without error, is a half or more. *)
Definition round (x : float) : float :=
  let f := floor x in
  if PrimFloat.leb half (PrimFloat.sub x f) then PrimFloat.add f one else f.

(** The value [m * 2^e] of a finite double. *)
Definition exact (x : float) : option (Z * Z) :=
  match Prim2SF x with
  | S754_zero _ => Some (0, 0)%Z
  | S754_finite s m e => Some (if s then Z.neg m else Z.pos m, e)
  | _ => None
  end.

(** [x % y]: the remainder of the truncated division, which is a double
    and has the sign of [x]. *)
Definition rem (x y : float) : float :=
  match exact x, exact y with
  | Some (mx, ex), Some (my, ey) =>
      if (my =? 0)%Z then PrimFloat.nan
      else if (mx =? 0)%Z then x
      else
        let e := Z.min ex ey in
        let X := (mx * 2 ^ (ex - e))%Z in
        let Y := (Z.abs my * 2 ^ (ey - e))%Z in
        SF2Prim (binary_normalize prec emax (Z.rem X Y) e (PrimFloat.ltb x zero))
  | Some _, None => if PrimFloat.eqb y y then x else PrimFloat.nan
  | None, _ => PrimFloat.nan
  end.

Definition as_index (x : float) : option nat :=
  match exact x with
  | Some (m, e) =>
      if (m <? 0)%Z then None
      else if (0 <=? e)%Z then Some (Z.to_nat (m * 2 ^ e))
      else if (Z.rem m (2 ^ (- e)) =? 0)%Z then Some (Z.to_nat (m / 2 ^ (- e)))
      else None
  | None => None
  end.
End B64.

#[export] Instance binary64_JSNumber : JSNumber Floats.PrimFloat.float | 10 := {|
  of_Z := B64.of_Z;
  NaN := Floats.PrimFloat.nan;
  Infinity := Floats.PrimFloat.infinity;
  add := Floats.PrimFloat.add;
  sub := Floats.PrimFloat.sub;
  mul := Floats.PrimFloat.mul;
  div := Floats.PrimFloat.div;
  rem := B64.rem;
  lt := Floats.PrimFloat.ltb;
  le := Floats.PrimFloat.leb;
  strict_eq := Floats.PrimFloat.eqb;
  Math_floor := B64.floor;
  Math_round := B64.round;
  as_index := B64.as_index
|}.

(* ================================================================== *)
(** * The host environment *)

(** What the code takes from its host besides arithmetic: [Math.pow] and
    [Math.sqrt], whose results are not rational, the successive values of
    [Math.random()] and of [performance.now()]. *)
Class JSHost (num : Type) : Type := {
  Math_pow : num -> num -> num;
  Math_sqrt : num -> num;
  Math_random : nat -> num;        (* the n-th value drawn *)
  performance_now : nat -> num     (* the n-th reading of the clock *)
}.

(** The state the code reads and writes through the host: how many
    random numbers and clock readings it has consumed, and the console. *)
Record World : Type := {
  drawn : nat;
  clock_reads : nat;
  console : list string
}.

Definition M (A : Type) : Type := World -> A * World.

Definition ret {A : Type} (a : A) : M A := fun w => (a, w).

Definition bind {A B : Type} (m : M A) (k : A -> M B) : M B :=
  fun w => let '(a, w') := m w in k a w'.

Notation "x <- m ;; k" := (bind m (fun x => k))
  (at level 61, m at next level, right associativity).

Definition initial_world : World :=
  {| drawn := 0; clock_reads := 0; console := [] |}.

Section Host.
Context {num : Type} {JS : JSNumber num} {HOST : JSHost num}.

(** [Math.random()] *)
Definition random : M num :=
  fun w => (Math_random (drawn w),
            {| drawn := S (drawn w); clock_reads := clock_reads w;
               console := console w |}).

(** [performance.now()] *)
Definition now : M num :=
  fun w => (performance_now (clock_reads w),
            {| drawn := drawn w; clock_reads := S (clock_reads w);
               console := console w |}).

(** [console.warn(msg)] *)
Definition console_warn (msg : string) : M unit :=
  fun w => (tt, {| drawn := drawn w; clock_reads := clock_reads w;
                   console := console w ++ [msg] |}).
End Host.

(* ================================================================== *)
(** * Arrays *)

Section Arrays.
Context {num : Type} {JS : JSNumber num}.
Local Open Scope js_scope.

(** [a.length] as a number. *)
Definition len {A : Type} (a : list A) : num := of_Z (Z.of_nat (List.length a)).

(** [a[x]] for a number [x]: [None] is [undefined]. *)
Definition array_get {A : Type} (a : list A) (x : num) : option A :=
  match as_index x with
  | Some i => nth_error a i
  | None => None
  end.

(** [a[i] = v] for an index within the array. *)
Fixpoint array_set {A : Type} (a : list A) (i : nat) (v : A) : list A :=
  match a, i with
  | [], _ => []
  | _ :: a', O => v :: a'
  | x :: a', S i' => x :: array_set a' i' v
  end.

(** [a.sort(cmp)].  The engine's sort is stable, and for a comparator
    that orders the elements consistently every stable sort returns the
    same array; it is written here as an insertion sort.  A comparator
    result that is not greater than zero, [NaN] included, leaves the
    pair in place. *)
Fixpoint sort_insert {A : Type} (cmp : A -> A -> num) (x : A) (sorted : list A) : list A :=
  match sorted with
  | [] => [x]
  | y :: rest =>
      if cmp y x >? of_Z 0 then x :: y :: rest
      else y :: sort_insert cmp x rest
  end.

Definition Array_sort {A : Type} (cmp : A -> A -> num) (a : list A) : list A :=
  fold_left (fun sorted x => sort_insert cmp x sorted) a [].
End Arrays.

(* ================================================================== *)
(** * harmonizeColors *)

Section Harmonizer.
Context {num : Type} {JS : JSNumber num}.
Local Open Scope js_scope.
Local Abbreviation Color := (Color num).
Local Open Scope string_scope.

(** One entry of [models].  A field that the entry does not have reads
    as [undefined]. *)
Record Params : Type := {
  l_mult : option num;
  s_mult : option num;
  l_shift : option num;
  s_shift : option num;
  l_range : option (num * num);
  s_range : option (num * num)
}.

Definition profile (lm sm lsh ssh : num) (lr sr : num * num) : Params :=
  {| l_mult := Some lm; s_mult := Some sm; l_shift := Some lsh; s_shift := Some ssh;
     l_range := Some lr; s_range := Some sr |}.

Definition models_none : Params :=
  {| l_mult := Some (of_Z 1); s_mult := Some (of_Z 1);
     l_shift := Some (of_Z 0); s_shift := Some (of_Z 0);
     l_range := None; s_range := None |}.

Definition models : list (string * Params) :=
  [ ("70s", profile (dec 85 100) (dec 7 10) (dec 1 10) (of_Z 0)
              (dec 3 10, dec 7 10) (dec 4 10, dec 8 10));
    ("80s", profile (dec 12 10) (dec 13 10) (of_Z 0) (dec 1 10)
              (dec 4 10, dec 9 10) (dec 6 10, of_Z 1));
    ("vibrant", profile (of_Z 1) (dec 14 10) (of_Z 0) (dec 2 10)
              (dec 3 10, dec 8 10) (dec 7 10, of_Z 1));
    ("neon", profile (dec 13 10) (dec 15 10) (dec 1 10) (dec 3 10)
              (dec 6 10, of_Z 1) (dec 8 10, of_Z 1));
    ("pastel", profile (dec 12 10) (dec 5 10) (dec 2 10) (of_Z 0)
              (dec 7 10, dec 95 100) (dec 2 10, dec 6 10));
    ("earthy", profile (dec 9 10) (dec 7 10) (of_Z 0) (dec (-1) 10)
              (dec 2 10, dec 6 10) (dec 3 10, dec 7 10));
    ("jewel", profile (dec 8 10) (dec 12 10) (of_Z 0) (dec 1 10)
              (dec 3 10, dec 7 10) (dec 8 10, of_Z 1));
    ("none", models_none) ].

(** The members every object literal inherits from [Object.prototype].
    [models[name]] finds them too; each is a function or an object, so
    it is truthy and has none of the six fields. *)
Definition Object_prototype_keys : list string :=
  [ "constructor"; "hasOwnProperty"; "isPrototypeOf"; "propertyIsEnumerable";
    "toLocaleString"; "toString"; "valueOf"; "__proto__";
    "__defineGetter__"; "__defineSetter__"; "__lookupGetter__"; "__lookupSetter__" ].

Definition no_fields : Params :=
  {| l_mult := None; s_mult := None; l_shift := None; s_shift := None;
     l_range := None; s_range := None |}.

Fixpoint own_property (key : string) (entries : list (string * Params)) : option Params :=
  match entries with
  | [] => None
  | (k, p) :: rest => if String.eqb k key then Some p else own_property key rest
  end.

(** [models[model]] *)
Definition models_get (model : string) : option Params :=
  match own_property model models with
  | Some p => Some p
  | None =>
      if existsb (String.eqb model) Object_prototype_keys then Some no_fields else None
  end.

(** [models[model] || models.none] *)
Definition params_of (model : string) : Params :=
  match models_get model with
  | Some p => p
  | None => models_none
  end.

(** A field read as a number: [undefined] becomes [NaN] in arithmetic. *)
Definition field (f : option num) : num :=
  match f with
  | Some x => x
  | None => NaN
  end.

(** [if (params.x_mult) x = x * params.x_mult + params.x_shift] *)
Definition scale (mult shift : option num) (x : num) : num :=
  match mult with
  | Some m => if truthy m then x * m + field shift else x
  | None => x
  end.

(** [if (params.x_range) x = Math.max(range[0], Math.min(range[1], x))] *)
Definition clamp_range (range : option (num * num)) (x : num) : num :=
  match range with
  | Some (lo, hi) => Math_max lo (Math_min hi x)
  | None => x
  end.

Definition harmonizeColors (colors : list Color) (model : string) : list Color :=
  let params := params_of model in
  map (fun color : Color =>
         let '(r, g, b) := color in
         let '(h, s, l) := rgbToHsl r g b in
         let l := scale (l_mult params) (l_shift params) l in
         let s := scale (s_mult params) (s_shift params) s in
         let l := clamp_range (l_range params) l in
         let s := clamp_range (s_range params) s in
         let l := Math_min (of_Z 1) (Math_max (of_Z 0) l) in
         let s := Math_min (of_Z 1) (Math_max (of_Z 0) s) in
         hslToRgb h s l)
      colors.
End Harmonizer.

(* ================================================================== *)
(** * Perceptual distance, similarity filter, median *)

Section Distance.
Context {num : Type} {JS : JSNumber num} {HOST : JSHost num}.
Local Open Scope js_scope.
Local Abbreviation Color := (Color num).

(** [c > 0.04045 ? Math.pow((c + 0.055) / 1.055, 2.4) : c / 12.92] *)
Definition gamma_decode (c : num) : num :=
  if c >? dec 4045 100000
  then Math_pow ((c + dec 55 1000) / dec 1055 1000) (dec 24 10)
  else c / dec 1292 100.

(** [c > 0.008856 ? Math.pow(c, 1 / 3) : 7.787 * c + 16 / 116] *)
Definition lab_f (c : num) : num :=
  if c >? dec 8856 1000000
  then Math_pow c (of_Z 1 / of_Z 3)
  else dec 7787 1000 * c + of_Z 16 / of_Z 116.

Definition rgbToLab (r g b : num) : Color :=
  let x := r / of_Z 255 in
  let y := g / of_Z 255 in
  let z := b / of_Z 255 in
  let x := gamma_decode x in
  let y := gamma_decode y in
  let z := gamma_decode z in
  let x := x * of_Z 100 in
  let y := y * of_Z 100 in
  let z := z * of_Z 100 in
  let X := x * dec 4124 10000 + y * dec 3576 10000 + z * dec 1805 10000 in
  let Y := x * dec 2126 10000 + y * dec 7152 10000 + z * dec 722 10000 in
  let Z := x * dec 193 10000 + y * dec 1192 10000 + z * dec 9505 10000 in
  let X := X / dec 95047 1000 in
  let Y := Y / of_Z 100 in
  let Z := Z / dec 108883 1000 in
  let X := lab_f X in
  let Y := lab_f Y in
  let Z := lab_f Z in
  (of_Z 116 * Y - of_Z 16, of_Z 500 * (X - Y), of_Z 200 * (Y - Z)).

Definition deltaE (color1 color2 : Color) : num :=
  let '(r1, g1, b1) := color1 in
  let '(r2, g2, b2) := color2 in
  let '(L1, a1, b1) := rgbToLab r1 g1 b1 in
  let '(L2, a2, b2) := rgbToLab r2 g2 b2 in
  Math_sqrt (Math_pow (L2 - L1) (of_Z 2) + Math_pow (a2 - a1) (of_Z 2)
             + Math_pow (b2 - b1) (of_Z 2)).

(** The inner loop of [filterSimilarColors]: [isSimilar] after scanning
    [filtered] from its first element, stopping at the first hit. *)
Fixpoint isSimilar (color : Color) (threshold : num) (filtered : list Color) : bool :=
  match filtered with
  | [] => false
  | existingColor :: rest =>
      let difference := deltaE color existingColor in
      if difference <? threshold then true
      else isSimilar color threshold rest
  end.

(** The outer loop, over [colors[1..]]. *)
Fixpoint filter_loop (colors : list Color) (threshold : num) (filtered : list Color)
  : list Color :=
  match colors with
  | [] => filtered
  | color :: rest =>
      if isSimilar color threshold filtered
      then filter_loop rest threshold filtered
      else filter_loop rest threshold (filtered ++ [color])
  end.

Definition filterSimilarColors (colors : list Color) (threshold : num) : list Color :=
  match colors with
  | [] | [_] => colors                       (* colors.length <= 1 *)
  | first :: rest => filter_loop rest threshold [first]
  end.

(** [vals.sort((a, b) => a - b)] *)
Definition sort_numbers (vals : list num) : list num :=
  Array_sort (fun a b => a - b) vals.

(** [vals[mid]]; the index is within the array whenever it is not empty. *)
Definition at_index (vals : list num) (mid : nat) : num := nth mid vals NaN.

Definition getMedianColor (pixels : list Color) : Color :=
  match pixels with
  | [] => (of_Z 0, of_Z 0, of_Z 0)
  | _ =>
      let rVals := sort_numbers (map (fun p : Color => fst (fst p)) pixels) in
      let gVals := sort_numbers (map (fun p : Color => snd (fst p)) pixels) in
      let bVals := sort_numbers (map (fun p : Color => snd p) pixels) in
      let mid := Nat.div (List.length pixels) 2 in
      (at_index rVals mid, at_index gVals mid, at_index bVals mid)
  end.
End Distance.

(* ================================================================== *)
(** * Dominant colours *)

Section Extraction.
Context {num : Type} {JS : JSNumber num} {HOST : JSHost num}.
Local Open Scope js_scope.
Local Abbreviation Color := (Color num).

Definition black : Color := (of_Z 0, of_Z 0, of_Z 0).

(** [pixels[Math.floor(Math.random() * pixels.length)]], [undefined]
    when the index is not one of the array. *)
Definition random_pixel (pixels : list Color) : M (option Color) :=
  r <- random ;;
  ret (array_get pixels (Math_floor (r * len pixels))).

(** The same read where the code uses the element as a pixel.  The
    index is within the array for every value in [0, 1) of
    [Math.random()]; outside of that range the element would be
    [undefined], which is given no channels here. *)
Definition sample_pixel (pixels : list Color) : M Color :=
  p <- random_pixel pixels ;;
  ret (match p with Some c => c | None => (NaN, NaN, NaN) end).

(** [Array.from({ length: n }, () => ...)] *)
Fixpoint sample_pixels (n : nat) (pixels : list Color) : M (list Color) :=
  match n with
  | O => ret []
  | S n' =>
      p <- sample_pixel pixels ;;
      rest <- sample_pixels n' pixels ;;
      ret (p :: rest)
  end.

(** The distance of a pixel to the nearest centroid. *)
Definition min_distance (pixel : Color) (centroids : list Color) : num :=
  fold_left (fun minDistance centroid => Math_min minDistance (deltaE pixel centroid))
            centroids Infinity.

(** The roulette loop over [distances]: the first pixel at which the
    running sum reaches [randomValue] becomes a centroid. *)
Fixpoint roulette (distances : list num) (sampledPixels : list Color)
         (randomValue cumulativeDistance : num) (centroids : list Color) : list Color :=
  match distances, sampledPixels with
  | d :: distances', p :: sampled' =>
      let cumulativeDistance := cumulativeDistance + d in
      if cumulativeDistance >=? randomValue then centroids ++ [p]
      else roulette distances' sampled' randomValue cumulativeDistance centroids
  | _, _ => centroids
  end.

(** [for (let i = 1; i < k; i++)], with [n] rounds left. *)
Fixpoint seed_centroids (n : nat) (sampledPixels centroids : list Color)
  : M (list Color) :=
  match n with
  | O => ret centroids
  | S n' =>
      let distances := map (fun pixel => min_distance pixel centroids) sampledPixels in
      let totalDistance := fold_left add distances (of_Z 0) in
      r <- random ;;
      let randomValue := r * totalDistance in
      seed_centroids n' sampledPixels
        (roulette distances sampledPixels randomValue (of_Z 0) centroids)
  end.

(** The index of the centroid nearest to [pixel], scanning from [i]. *)
Fixpoint nearest (pixel : Color) (centroids : list Color) (i : nat)
         (minDistance : num) (clusterIndex : nat) : nat :=
  match centroids with
  | [] => clusterIndex
  | c :: rest =>
      let distance := deltaE pixel c in
      if distance <? minDistance
      then nearest pixel rest (S i) distance i
      else nearest pixel rest (S i) minDistance clusterIndex
  end.

(** [clusters[i].push(pixel)] *)
Fixpoint push_at (clusters : list (list Color)) (i : nat) (pixel : Color)
  : list (list Color) :=
  match clusters, i with
  | [], _ => []
  | c :: rest, O => (c ++ [pixel]) :: rest
  | c :: rest, S i' => c :: push_at rest i' pixel
  end.

Definition assign (k : nat) (sampledPixels centroids : list Color) : list (list Color) :=
  fold_left (fun clusters pixel =>
               push_at clusters (nearest pixel centroids 0 Infinity 0) pixel)
            sampledPixels (repeat [] k).

(** [for (let i = 0; i < k; i++)] over the clusters from index [i] on.
    A cluster that is not empty has a centroid: its pixels were assigned
    to one. *)
Fixpoint update_centroids (clusters : list (list Color)) (i : nat)
         (centroids : list Color) (changed : bool) : list Color * bool :=
  match clusters with
  | [] => (centroids, changed)
  | cluster :: rest =>
      match cluster, nth_error centroids i with
      | _ :: _, Some oldCentroid =>
          let newCentroid := getMedianColor cluster in
          if deltaE newCentroid oldCentroid >? of_Z 1
          then update_centroids rest (S i) (array_set centroids i newCentroid) true
          else update_centroids rest (S i) centroids changed
      | _, _ => update_centroids rest (S i) centroids changed
      end
  end.

(** [for (let iter = 0; iter < maxIterations; iter++)], with [n] rounds
    left. *)
Fixpoint iterate (n k : nat) (startTime : num) (sampledPixels centroids : list Color)
  : M (list Color) :=
  match n with
  | O => ret centroids
  | S n' =>
      t <- now ;;
      if t - startTime >? of_Z 5000 then
        _ <- console_warn
               "kMeansClustering timed out after 5 seconds. Returning current centroids."%string ;;
        ret centroids
      else
        let clusters := assign k sampledPixels centroids in
        let '(centroids, changed) := update_centroids clusters 0 centroids false in
        if changed then iterate n' k startTime sampledPixels centroids
        else ret centroids
  end.

Definition kMeansClustering (pixels : list Color) (k maxIterations sampleSize : nat)
  : M (list Color) :=
  if (List.length pixels =? 0)%nat || (k =? 0)%nat then ret []
  else
    sampledPixels <- (if (sampleSize <? List.length pixels)%nat
                      then sample_pixels sampleSize pixels
                      else ret pixels) ;;
    first <- sample_pixel sampledPixels ;;
    centroids <- seed_centroids (k - 1) sampledPixels [first] ;;
    startTime <- now ;;
    iterate maxIterations k startTime sampledPixels centroids.

(** The padding loop of [getDominantColors], with [n] rounds left. *)
Fixpoint pad_loop (n : nat) (pixels result : list Color) : M (list Color) :=
  match n with
  | O => ret result
  | S n' =>
      p <- random_pixel pixels ;;
      pad_loop n' pixels
               (result ++ [match p with Some c => c | None => black end])
  end.

Definition getDominantColors (pixels : list Color) (count : nat) : M (list Color) :=
  if (List.length pixels <? count)%nat then pad_loop count pixels []
  else kMeansClustering pixels count 10 1000.
End Extraction.

(* ================================================================== *)
(** * Palette expansion *)

Section Expansion.
Context {num : Type} {JS : JSNumber num} {HOST : JSHost num}.
Local Open Scope js_scope.
Local Abbreviation Color := (Color num).

(** A count of colours as a number. *)
Definition of_nat (n : nat) : num := of_Z (Z.of_nat n).

(** [rgbToHsl(...c)[2]] *)
Definition lightness (c : Color) : num :=
  let '(r, g, b) := c in
  let '(_, _, l) := rgbToHsl r g b in l.

(** [rgbToHsl(...c)[1]] *)
Definition saturation (c : Color) : num :=
  let '(r, g, b) := c in
  let '(_, s, _) := rgbToHsl r g b in s.

(** The comparator [(a, b) => l2 - l1] of the descending sorts. *)
Definition by_lightness_desc (a b : Color) : num := lightness b - lightness a.

(** [t] and [varL] at step [i] of [numVariations]. *)
Definition step_t (i numVariations : nat) : num :=
  of_nat i / (of_nat numVariations - of_Z 1).

Definition step_L (i numVariations : nat) : num :=
  dec 15 100 + dec 7 10 * step_t i numVariations.

(** The loop of [generateColorVariations] from step [i], with [n] steps
    left. *)
Fixpoint variations_loop (baseH baseS : num) (numVariations n i : nat)
         (variations : list Color) : M (list Color) :=
  match n with
  | O => ret variations
  | S n' =>
      let varL := step_L i numVariations in
      r1 <- random ;;
      let varH := rem (baseH + (r1 - dec 5 10) * dec 5 100) (of_Z 1) in
      r2 <- random ;;
      let varS := Math_min (of_Z 1)
                           (Math_max (of_Z 0) (baseS + (r2 - dec 5 10) * dec 1 10)) in
      variations_loop baseH baseS numVariations n' (S i)
                      (variations ++ [hslToRgb varH varS varL])
  end.

Definition generateColorVariations (baseColor : Color) (numVariations : nat)
  : M (list Color) :=
  let '(r, g, b) := baseColor in
  let '(baseH, baseS, baseL) := rgbToHsl r g b in
  variations <- variations_loop baseH baseS numVariations numVariations 0 [] ;;
  ret (Array_sort by_lightness_desc variations).

(** [Math.ceil(n / d)] and [Math.floor(n / d)] of two counts. *)
Definition ceil_div (n d : nat) : nat := Nat.div (n + d - 1) d.
Definition floor_div (n d : nat) : nat := Nat.div n d.

Definition generateComplementaryPalette (baseColor : Color) (numVariations : nat)
  : M (list Color) :=
  let '(r, g, b) := baseColor in
  let '(h, s, l) := rgbToHsl r g b in
  let compH := rem (h + dec 5 10) (of_Z 1) in
  baseVariations <- generateColorVariations baseColor (ceil_div numVariations 2) ;;
  compVariations <- generateColorVariations (hslToRgb compH s l)
                                            (floor_div numVariations 2) ;;
  ret (baseVariations ++ compVariations).

Definition generateTriadicPalette (baseColor : Color) (numVariations : nat)
  : M (list Color) :=
  let '(r, g, b) := baseColor in
  let '(h, s, l) := rgbToHsl r g b in
  let triadH1 := rem (h + of_Z 1 / of_Z 3) (of_Z 1) in
  let triadH2 := rem (h + of_Z 2 / of_Z 3) (of_Z 1) in
  let baseCount := ceil_div numVariations 3 in
  let triad1Count := floor_div (numVariations - baseCount) 2 in
  let triad2Count := (numVariations - baseCount - triad1Count)%nat in
  baseVariations <- generateColorVariations baseColor baseCount ;;
  triad1Variations <- generateColorVariations (hslToRgb triadH1 s l) triad1Count ;;
  triad2Variations <- generateColorVariations (hslToRgb triadH2 s l) triad2Count ;;
  ret (baseVariations ++ triad1Variations ++ triad2Variations).

Definition generateAnalogousPalette (baseColor : Color) (numVariations : nat)
  : list Color :=
  let '(r, g, b) := baseColor in
  let '(h, s, l) := rgbToHsl r g b in
  let analogousRange := dec 8 100 in
  let variations :=
    map (fun i =>
           let t := step_t i numVariations in
           let varH := rem (h + analogousRange * (t - dec 5 10)) (of_Z 1) in
           let varL := dec 15 100 + dec 7 10 * t in
           hslToRgb varH s varL)
        (List.seq 0 numVariations) in
  Array_sort by_lightness_desc variations.

Definition generateMonochromaticPalette (baseColor : Color) (numVariations : nat)
  : list Color :=
  let '(r, g, b) := baseColor in
  let '(h, s, _) := rgbToHsl r g b in
  map (fun i =>
         let t := step_t i numVariations in
         let varL := dec 15 100 + dec 7 10 * t in
         hslToRgb h s varL)
      (List.seq 0 numVariations).
End Expansion.

(* ================================================================== *)
(** * The pipeline: from the pixels of an image to the palette *)

Section Pipeline.
Context {num : Type} {JS : JSNumber num} {HOST : JSHost num}.
Local Open Scope js_scope.
Local Abbreviation Color := (Color num).

(** The state of the component that the pipeline reads. *)
Record Settings : Type := {
  extractionMethod : string;
  paletteType : string;
  colorsPerHue : nat;
  dominantColorCount : nat;
  harmonizeModel : string;
  similarityThreshold : num
}.

Definition categories : list (string * list (num * num)) :=
  [ ("red"%string, [(of_Z 0, dec 833 10000); (dec 9167 10000, of_Z 1)]);
    ("orange"%string, [(dec 833 10000, dec 1667 10000)]);
    ("yellow"%string, [(dec 1667 10000, dec 25 100)]);
    ("green"%string, [(dec 25 100, dec 5 10)]);
    ("blue"%string, [(dec 5 10, dec 75 100)]);
    ("purple"%string, [(dec 75 100, dec 9167 10000)]) ].

Definition categoryOrder : list string :=
  [ "red"; "orange"; "yellow"; "green"; "blue"; "purple" ]%string.

(** [categories[cat]] for a name of [categoryOrder]. *)
Fixpoint rangePairs_of (cat : string) (table : list (string * list (num * num)))
  : list (num * num) :=
  match table with
  | [] => []
  | (name, pairs) :: rest =>
      if String.eqb name cat then pairs else rangePairs_of cat rest
  end.

(** [rangePairs.some(([low, high]) => h >= low && h < high)] for the hue
    [h] of the pixel [p]. *)
Definition in_category (rangePairs : list (num * num)) (p : Color) : bool :=
  let '(r, g, b) := p in
  let '(h, _, _) := rgbToHsl r g b in
  existsb (fun range : num * num =>
             let '(low, high) := range in (h >=? low) && (h <? high))
          rangePairs.

(** The [switch (paletteType)] found in both branches. *)
Definition expand (type : string) (color : Color) (n : nat) : M (list Color) :=
  if String.eqb type "complementary" then generateComplementaryPalette color n
  else if String.eqb type "triadic" then generateTriadicPalette color n
  else if String.eqb type "analogous" then ret (generateAnalogousPalette color n)
  else if String.eqb type "monochromatic" then ret (generateMonochromaticPalette color n)
  else generateColorVariations color n.

(** [categoryOrder.forEach((cat) => ...)] *)
Fixpoint categorical_loop (cats : list string) (cfg : Settings) (allPixels : list Color)
         (newPalette : list Color) : M (list Color) :=
  match cats with
  | [] => ret newPalette
  | cat :: rest =>
      let rangePairs := rangePairs_of cat categories in
      let catPixels := filter (in_category rangePairs) allPixels in
      match catPixels with
      | [] => categorical_loop rest cfg allPixels newPalette
      | _ :: _ =>
          let dominant := getMedianColor catPixels in
          variations <- expand (paletteType cfg) dominant (colorsPerHue cfg) ;;
          categorical_loop rest cfg allPixels (newPalette ++ variations)
      end
  end.

(** [dominantColors.forEach((color) => ...)].  The share of each
    dominant colour is [Math.floor(colorsPerHue / dominantColorCount)];
    with a count of zero there is no dominant colour and the share is
    never computed. *)
Fixpoint clustered_loop (dominantColors : list Color) (cfg : Settings)
         (newPalette : list Color) : M (list Color) :=
  match dominantColors with
  | [] => ret newPalette
  | color :: rest =>
      variations <- expand (paletteType cfg) color
                      (floor_div (colorsPerHue cfg) (dominantColorCount cfg)) ;;
      clustered_loop rest cfg (newPalette ++ variations)
  end.

(** The seed colours of the "else" branch. *)
Definition seeds_clustered (cfg : Settings) (allPixels : list Color) : M (list Color) :=
  getDominantColors allPixels (dominantColorCount cfg).

(** The predicate of [newPalette.filter(...)] *)
Definition in_range (color : Color) : bool :=
  let '(r, g, b) := color in
  let '(h, s, l) := rgbToHsl r g b in
  (l >? dec 1 10) && (l <? dec 95 100) && (s >? dec 1 10).

Definition filteredPalette (newPalette : list Color) : list Color :=
  filter in_range newPalette.

(** Two numbers have the same [JSON.stringify] text: they are equal, or
    both print as [null]. *)
Definition same_json_number (a b : num) : bool :=
  if isFinite a then isFinite b && (a === b) else negb (isFinite b).

Definition same_json (c1 c2 : Color) : bool :=
  let '(r1, g1, b1) := c1 in
  let '(r2, g2, b2) := c2 in
  same_json_number r1 r2 && same_json_number g1 g2 && same_json_number b1 b2.

(** [Array.from(new Set(colors.map(JSON.stringify))).map(JSON.parse)]:
    the first colour of each text, in order.  [JSON.parse] gives back
    the numbers of a colour whose channels are finite and not the
    negative zero, and these are the colours written here; a channel
    that is [NaN] or infinite is printed as [null] and read back as
    [null], which is no number, and the negative zero is read back as
    zero: for a list with such a channel this function does not give
    what the code returns.  The range filter before this step leaves
    only colours with finite channels. *)
Fixpoint unique_from (seen colors : list Color) : list Color :=
  match colors with
  | [] => []
  | c :: rest =>
      if existsb (same_json c) seen then unique_from seen rest
      else c :: unique_from (seen ++ [c]) rest
  end.

Definition uniqueColors (similarityFiltered : list Color) : list Color :=
  unique_from [] similarityFiltered.

(** The palette before harmonisation and refinement. *)
Definition rawPalette (cfg : Settings) (allPixels : list Color) : M (list Color) :=
  if String.eqb (extractionMethod cfg) "categorical"
  then categorical_loop categoryOrder cfg allPixels []
  else
    dominantColors <- seeds_clustered cfg allPixels ;;
    clustered_loop dominantColors cfg [].

(** The palette that [img.onload] passes to [setPalette]. *)
Definition generatePalette (cfg : Settings) (allPixels : list Color) : M (list Color) :=
  newPalette <- rawPalette cfg allPixels ;;
  let newPalette :=
    if negb (String.eqb (harmonizeModel cfg) "none")
    then harmonizeColors newPalette (harmonizeModel cfg)
    else newPalette in
  let filteredPalette := filteredPalette newPalette in
  let similarityFiltered := filterSimilarColors filteredPalette (similarityThreshold cfg) in
  ret (uniqueColors similarityFiltered).
End Pipeline.

(* ================================================================== *)
(** * Export *)

Module PaletteFile.
Local Open Scope string_scope.
Local Open Scope Z_scope.

Definition digit_char (d : Z) : ascii :=
  match d with
  | 0 => "0" | 1 => "1" | 2 => "2" | 3 => "3" | 4 => "4" | 5 => "5" | 6 => "6"
  | 7 => "7" | 8 => "8" | 9 => "9" | 10 => "a" | 11 => "b" | 12 => "c"
  | 13 => "d" | 14 => "e" | _ => "f"
  end%char.

(** The digits of [n > 0] in base 16, most significant first. *)
Fixpoint hex_digits (fuel : nat) (n : Z) (acc : string) : string :=
  match fuel with
  | O => acc
  | S fuel' =>
      let acc := String (digit_char (n mod 16)) acc in
      if n / 16 =? 0 then acc else hex_digits fuel' (n / 16) acc
  end.

(** [c.toString(16)] for an integer [c]. *)
Definition toString16 (c : Z) : string :=
  if c <? 0 then "-" ++ hex_digits (S (Z.to_nat (Z.log2 (- c)))) (- c) ""
  else hex_digits (S (Z.to_nat (Z.log2 c))) c "".

(** [s.slice(-2)] *)
Definition slice_last2 (s : string) : string :=
  substring (String.length s - 2) 2 s.

Definition upper_char (c : ascii) : ascii :=
  let n := nat_of_ascii c in
  if (97 <=? n)%nat && (n <=? 122)%nat then ascii_of_nat (n - 32) else c.

Fixpoint toUpperCase (s : string) : string :=
  match s with
  | EmptyString => EmptyString
  | String c rest => String (upper_char c) (toUpperCase rest)
  end.

Definition toHex (c : Z) : string := toUpperCase (slice_last2 ("0" ++ toString16 c)).

Definition formatColor (r g b : Z) : string :=
  "FF" ++ toHex b ++ toHex g ++ toHex r.

(** The object [{ colors: flatColors }]. *)
Record JsonOutput : Type := { colors : list string }.

Definition jsonOutput (palette : list (Z * Z * Z)) : JsonOutput :=
  {| colors := map (fun c : Z * Z * Z => let '(r, g, b) := c in formatColor r g b) palette |}.

Definition newline : string := String (ascii_of_nat 10) EmptyString.

Definition quoted (s : string) : string :=
  String (ascii_of_nat 34) s ++ String (ascii_of_nat 34) "".

(** The items of an array of strings at four spaces, as
    [JSON.stringify(value, null, 2)] prints them one level down. *)
Fixpoint json_items (items : list string) : string :=
  match items with
  | [] => ""
  | [s] => "    " ++ quoted s ++ newline
  | s :: rest => "    " ++ quoted s ++ "," ++ newline ++ json_items rest
  end.

(** [JSON.stringify(jsonOutput, null, 2)]; the strings are hexadecimal
    and need no escape. *)
Definition JSON_stringify (o : JsonOutput) : string :=
  match colors o with
  | [] => "{" ++ newline ++ "  " ++ quoted "colors" ++ ": []" ++ newline ++ "}"
  | items =>
      "{" ++ newline ++ "  " ++ quoted "colors" ++ ": [" ++ newline
      ++ json_items items ++ "  ]" ++ newline ++ "}"
  end.

(** [handleExport]: the text of the downloaded file, or nothing when
    the palette is empty. *)
Definition handleExport (palette : list (Z * Z * Z)) : option string :=
  match palette with
  | [] => None
  | _ => Some (JSON_stringify (jsonOutput palette))
  end.
End PaletteFile.

(* ================================================================== *)
(** * Vocabulary of the properties *)

Section Vocabulary.
Context {num : Type} {JS : JSNumber num} {HOST : JSHost num}.
Local Open Scope js_scope.
Local Abbreviation Color := (Color num).

(** [rgbToHsl(...c)[0]] *)
Definition hue (c : Color) : num :=
  let '(r, g, b) := c in
  let '(h, _, _) := rgbToHsl r g b in h.

(** The three tests of the range filter, on the lightness and the
    saturation of a colour. *)
Definition visible (c : Color) : bool :=
  (lightness c >? dec 1 10) && (lightness c <? dec 95 100)
  && (saturation c >? dec 1 10).

(** No colour of [l] is similar to one before it in [acc ++ l]. *)
Fixpoint distinct_from (threshold : num) (acc l : list Color) : Prop :=
  match l with
  | [] => True
  | c :: rest =>
      isSimilar c threshold acc = false /\ distinct_from threshold (acc ++ [c]) rest
  end.

(** What [harmonizeColors] does to the lightness and to the saturation
    under the profile [params]: scale, clamp to the range of the
    profile, clamp to [0, 1]. *)
Definition harmonized_l (params : Params) (l : num) : num :=
  Math_min (of_Z 1)
           (Math_max (of_Z 0)
                     (clamp_range (l_range params)
                                  (scale (l_mult params) (l_shift params) l))).

Definition harmonized_s (params : Params) (s : num) : num :=
  Math_min (of_Z 1)
           (Math_max (of_Z 0)
                     (clamp_range (s_range params)
                                  (scale (s_mult params) (s_shift params) s))).

(** The seed colours of the categorical branch over the categories
    [cats]: the median of each category that has pixels, in order. *)
Definition seeds_of (cats : list string) (allPixels : list Color) : list Color :=
  flat_map (fun cat =>
              match filter (in_category (rangePairs_of cat categories)) allPixels with
              | [] => []
              | catPixels => [getMedianColor catPixels]
              end)
           cats.

(** Each seed expanded in turn into [n] colours of the palette type. *)
Fixpoint expand_each (type : string) (n : nat) (seeds newPalette : list Color)
  : M (list Color) :=
  match seeds with
  | [] => ret newPalette
  | color :: rest =>
      variations <- expand type color n ;;
      expand_each type n rest (newPalette ++ variations)
  end.

(** The world after [n] more calls of [Math.random()]. *)
Definition after_draws (n : nat) (w : World) : World :=
  {| drawn := drawn w + n; clock_reads := clock_reads w; console := console w |}.
End Vocabulary.

Module HexSpec.
Local Open Scope Z_scope.

(** An uppercase hexadecimal digit. *)
Definition upper_digit (d : Z) : ascii :=
  match d with
  | 0 => "0" | 1 => "1" | 2 => "2" | 3 => "3" | 4 => "4" | 5 => "5" | 6 => "6"
  | 7 => "7" | 8 => "8" | 9 => "9" | 10 => "A" | 11 => "B" | 12 => "C"
  | 13 => "D" | 14 => "E" | _ => "F"
  end%char.

(** The two-digit, zero-padded, uppercase hexadecimal of a channel, as
    the file format states it. *)
Definition hex2 (c : Z) : string :=
  String (upper_digit (c / 16)) (String (upper_digit (c mod 16)) EmptyString).

Definition channel (c : Z) : Prop := 0 <= c <= 255.
End HexSpec.

(* ================================================================== *)
(** * Exact arithmetic: the conversions on rationals *)

(** The conversions as they compute on finite exact numbers.  Each is
    the source function with every operation replaced by the one on
    rationals that [xnum] performs on finite arguments. *)
Module OnQ.
Import QOps.
Local Open Scope Q_scope.

Definition qmax (a b : Q) : Q := if qltb a b then b else a.
Definition qmin (a b : Q) : Q := if qltb b a then b else a.

Definition hue_switchQ (max r g b d : Q) : Q :=
  (if Qeq_bool max r then (g - b) / d + (if qltb g b then 6 else 0)
   else if Qeq_bool max g then (b - r) / d + 2
   else (r - g) / d + 4) * (1 # 6).

(** [rgbToHsl] from the point where the channels are scaled to [0, 1]. *)
Definition hsl_unit (r g b : Q) : Q * Q * Q :=
  let max := qmax (qmax r g) b in
  let min := qmin (qmin r g) b in
  let l := (max + min) * (1 # 2) in
  if Qeq_bool max min then (0, 0, l)
  else
    let d := max - min in
    let s := if qltb (5 # 10) l then d / (2 - max - min) else d / (max + min) in
    (hue_switchQ max r g b d, s, l).

Definition rgbToHslQ (r g b : Q) : Q * Q * Q :=
  hsl_unit (r * (1 # 255)) (g * (1 # 255)) (b * (1 # 255)).

Definition hue2rgbQ (p q t : Q) : Q :=
  let t := if qltb t 0 then t + 1 else t in
  let t := if qltb 1 t then t - 1 else t in
  if qltb t (1 # 6) then p + (q - p) * 6 * t
  else if qltb t (1 # 2) then q
  else if qltb t (2 # 3) then p + (q - p) * ((2 # 3) - t) * 6
  else p.

Definition channels (c : Q * Q * Q) : Z * Z * Z :=
  let '(r, g, b) := c in (Qround (r * 255), Qround (g * 255), Qround (b * 255)).

Definition hslToRgbQ (h s l : Q) : Z * Z * Z :=
  channels
    (if Qeq_bool s 0 then (l, l, l)
     else
       let q := if qltb l (5 # 10) then l * (1 + s) else l + s - l * s in
       let p := 2 * l - q in
       (hue2rgbQ p q (h + (1 # 3)), hue2rgbQ p q h, hue2rgbQ p q (h - (1 # 3)))).

(** [rgbToHsv] from the point where the channels are scaled to [0, 1]. *)
Definition hsv_unit (r g b : Q) : Q * Q * Q :=
  let max := qmax (qmax r g) b in
  let min := qmin (qmin r g) b in
  let d := max - min in
  let s := if Qeq_bool max 0 then 0 else d / max in
  let h := if Qeq_bool max min then 0 else hue_switchQ max r g b d in
  (h, s, max).

Definition rgbToHsvQ (r g b : Q) : Q * Q * Q :=
  hsv_unit (r * (1 # 255)) (g * (1 # 255)) (b * (1 # 255)).

(** For a hue that is not negative the sector [i % 6] is one of 0 to 5. *)
Definition hsvToRgbQ (h s v : Q) : Z * Z * Z :=
  let i := Qfloor (h * 6) in
  let f := h * 6 - inject_Z i in
  let p := v * (1 - s) in
  let q := v * (1 - f * s) in
  let t := v * (1 - (1 - f) * s) in
  let k := Z.rem i 6 in
  channels
    (if (k =? 0)%Z then (v, t, p)
     else if (k =? 1)%Z then (q, v, p)
     else if (k =? 2)%Z then (p, v, t)
     else if (k =? 3)%Z then (p, q, v)
     else if (k =? 4)%Z then (t, p, v)
     else (v, p, q)).

(** The channels that [hsvToRgb] picks in sector [k]. *)
Definition sector_colors (k : Z) (v p q t : Q) : Q * Q * Q :=
  if (k =? 0)%Z then (v, t, p)
  else if (k =? 1)%Z then (q, v, p)
  else if (k =? 2)%Z then (p, v, t)
  else if (k =? 3)%Z then (p, q, v)
  else if (k =? 4)%Z then (t, p, v)
  else (v, p, q).
End OnQ.

(** A colour with integer channels, and the channels of the data model. *)
Definition rgb (r g b : Z) : Color xnum := (of_Z r, of_Z g, of_Z b).

Definition byte (c : Z) : Prop := (0 <= c <= 255)%Z.

Definition fin3 (c : Q * Q * Q) : Color xnum :=
  let '(x, y, z) := c in (Fin x, Fin y, Fin z).

Definition rgb3 (c : Z * Z * Z) : Color xnum :=
  let '(r, g, b) := c in rgb r g b.

(** A colour of the data model: integer channels from 0 to 255. *)
Definition valid_color (c : Color xnum) : Prop :=
  exists R G B : Z, byte R /\ byte G /\ byte B /\ c = rgb R G B.

(** A colour whose channels are finite numbers. *)
Definition finite_color (c : Color xnum) : Prop :=
  exists r g b : Q, c = (Fin r, Fin g, Fin b).

(** [Math.abs(a - b) <= 1], channel by channel. *)
Definition within_one (a b : xnum) : bool :=
  ((a - b <=? of_Z 1) && (b - a <=? of_Z 1))%js.

Definition near (c c' : Color xnum) : bool :=
  let '(r, g, b) := c in
  let '(r', g', b') := c' in
  within_one r r' && within_one g g' && within_one b b'.

(** [a] is at least as light as [b]. *)
Definition ge_lightness (a b : Color xnum) : Prop :=
  (lightness a >=? lightness b)%js = true.

(** A host for the examples: [Math.random()] always returns a half, the
    clock advances by one at each reading; its [Math.pow] and [Math.sqrt]
    return their first argument, and no example depends on them. *)
Definition example_host : JSHost xnum :=
  {| Math_pow := fun x _ => x;
     Math_sqrt := fun x => x;
     Math_random := fun _ => Fin (1 # 2);
     performance_now := fun n => Fin (inject_Z (Z.of_nat n)) |}.

(** The random source stays within [0, 1). *)
Definition random_in_unit (HOST : JSHost xnum) : Prop :=
  forall n : nat, exists q : Q, Math_random n = Fin q /\ (0 <= q < 1)%Q.

(** The colour that step [i] of [generateColorVariations] pushes when
    [d] random numbers were drawn before it. *)
Definition variation_at {HOST : JSHost xnum} (baseH baseS : xnum) (numVariations d i : nat)
  : Color xnum :=
  let varL := step_L i numVariations in
  let varH := rem (baseH + (Math_random d - dec 5 10) * dec 5 100)%js (of_Z 1) in
  let varS := Math_min (of_Z 1)
                       (Math_max (of_Z 0)
                                 (baseS + (Math_random (S d) - dec 5 10) * dec 1 10)%js) in
  hslToRgb varH varS varL.

(** The lightness of step [i] of [n]: from 0.15 to 0.85 in equal steps. *)
Definition ramp (i n : nat) : Q :=
  (15 # 100) + (7 # 10) * (inject_Z (Z.of_nat i) / (inject_Z (Z.of_nat n) - 1)).





(** Settings for the examples: the categorical method; the clustered
    method with a count of zero; the clustered method with three
    dominant colours, ten colours per group and the "neon" profile. *)
Definition settings_categorical : Settings (num := xnum) :=
  {| extractionMethod := "categorical"; paletteType := "variations";
     colorsPerHue := 10; dominantColorCount := 3;
     harmonizeModel := "none"; similarityThreshold := of_Z 15 |}.

Definition settings_no_cluster : Settings (num := xnum) :=
  {| extractionMethod := "complementary"; paletteType := "variations";
     colorsPerHue := 10; dominantColorCount := 0;
     harmonizeModel := "none"; similarityThreshold := of_Z 15 |}.

Definition settings_neon : Settings (num := xnum) :=
  {| extractionMethod := "complementary"; paletteType := "monochromatic";
     colorsPerHue := 10; dominantColorCount := 3;
     harmonizeModel := "neon"; similarityThreshold := of_Z 15 |}.

(** A host on binary64 numbers for the examples: [Math.random()]
    always returns a half, the clock advances by one at each reading,
    [Math.sqrt] is the square root of the processor; [Math.pow] has no
    counterpart here and returns [NaN], and no example depends on it. *)
Definition binary64_host : JSHost Floats.PrimFloat.float :=
  {| Math_pow := fun _ _ => Floats.PrimFloat.nan;
     Math_sqrt := Floats.PrimFloat.sqrt;
     Math_random := fun _ => B64.half;
     performance_now := fun n => B64.of_Z (Z.of_nat n) |}.

(** A colour with integer channels, on binary64 numbers. *)
Definition frgb (r g b : Z) : Color Floats.PrimFloat.float :=
  (B64.of_Z r, B64.of_Z g, B64.of_Z b).

(** [===] on the three channels. *)
Definition same_color (c c' : Color Floats.PrimFloat.float) : bool :=
  let '(r, g, b) := c in
  let '(r', g', b') := c' in
  ((r === r') && (g === g') && (b === b'))%js.

(** The colours whose channels are all among [levels], and whether both
    round trips return each of them. *)
Definition levels (step : Z) (n : nat) : list Z :=
  map (fun k => (Z.of_nat k * step)%Z) (List.seq 0 n).

Definition grid (ls : list Z) : list (Color Floats.PrimFloat.float) :=
  flat_map (fun r => flat_map (fun g => map (fun b => frgb r g b) ls) ls) ls.

Definition round_trips_on (ls : list Z) : bool :=
  forallb (fun c : Color Floats.PrimFloat.float =>
             let '(r, g, b) := c in
             same_color (let '(h, s, l) := rgbToHsl r g b in hslToRgb h s l) c
             && same_color (let '(h, s, v) := rgbToHsv r g b in hsvToRgb h s v) c)
          (grid ls).

(** The exported text of every channel up to [n] is its two-digit
    hexadecimal. *)
Definition hex_agree_upto (n : nat) : bool :=
  forallb (fun c => String.eqb (PaletteFile.toHex (Z.of_nat c)) (HexSpec.hex2 (Z.of_nat c)))
          (List.seq 0 n).

(* ================================================================== *)
(** * Swatch text *)

Module SwatchText.
Import PaletteFile.
Local Open Scope string_scope.

(** The [toHex] of [rgbToHex]: [`0${c.toString(16)}`.slice(-2)]. *)
Definition toHex (c : Z) : string := slice_last2 ("0" ++ toString16 c).

Definition rgbToHex (r g b : Z) : string :=
  toUpperCase ("#" ++ toHex r ++ toHex g ++ toHex b).
End SwatchText.

(* ================================================================== *)
(** * Vocabulary of the further properties *)

(** [l] with some of its elements left out, the others in their order. *)
Inductive subsequence {A : Type} : list A -> list A -> Prop :=
| subsequence_nil : subsequence [] []
| subsequence_skip (x : A) (l l' : list A) : subsequence l l' -> subsequence l (x :: l')
| subsequence_keep (x : A) (l l' : list A) : subsequence l l' -> subsequence (x :: l) (x :: l').

(** The channels of a colour: [c[0]], [c[1]], [c[2]]. *)
Definition red {num : Type} (c : Color num) : num := fst (fst c).
Definition green {num : Type} (c : Color num) : num := snd (fst c).
Definition blue {num : Type} (c : Color num) : num := snd c.

(** The random numbers that one expansion into [n] colours draws. *)
Definition draws_of (type : string) (n : nat) : nat :=
  if String.eqb type "analogous" || String.eqb type "monochromatic"
  then 0 else 2 * n.

(** The number of colours that each seed is expanded into. *)
Definition group_size {num : Type} (cfg : Settings (num := num)) : nat :=
  if String.eqb (extractionMethod cfg) "categorical" then colorsPerHue cfg
  else floor_div (colorsPerHue cfg) (dominantColorCount cfg).

(** The counts at which a palette type produces no colour, or colours
    from the step [0 / 0] only: every part it asks
    [generateColorVariations] for, or the count itself, is at most 1. *)
Definition single_steps (type : string) (n : nat) : bool :=
  if String.eqb type "complementary" then (n <=? 2)%nat
  else if String.eqb type "triadic" then (n <=? 3)%nat
  else (n <=? 1)%nat.

(** A finite number. *)
Definition finite (x : xnum) : Prop := exists q : Q, x = Fin q.

(** The colour that has no channel: [[NaN, NaN, NaN]]. *)
Definition nan_color : Color xnum := (NaN, NaN, NaN).

(** A colour of the data model, or the colour without channels. *)
Definition valid_or_nan (c : Color xnum) : Prop := valid_color c \/ c = nan_color.

(** The profiles that [models[model] || models.none] can be. *)
Definition profiles : list (Params (num := xnum)) :=
  no_fields :: models_none :: map snd models.

(** Before the clamp to [0, 1], the lightness and the saturation of a
    profile are finite when they were. *)
Definition keeps_finite (p : Params (num := xnum)) : Prop :=
  forall x : Q,
    (exists y, clamp_range (l_range p) (scale (l_mult p) (l_shift p) (Fin x)) = Fin y)
    /\ (exists y, clamp_range (s_range p) (scale (s_mult p) (s_shift p) (Fin x)) = Fin y).

(** The lightness and the saturation that a profile with ranges hands
    to [hslToRgb] lie in its ranges. *)
Definition within_ranges (p : Params (num := xnum)) : Prop :=
  forall x : Q,
    match l_range p with
    | Some (Fin lo, Fin hi) =>
        exists y, harmonized_l p (Fin x) = Fin y /\ (lo <= y <= hi)%Q
    | _ => True
    end
    /\ match s_range p with
       | Some (Fin lo, Fin hi) =>
           exists y, harmonized_s p (Fin x) = Fin y /\ (lo <= y <= hi)%Q
       | _ => True
       end.

(** The hue offset of step [i] of [n] of the analogous palette:
    [analogousRange * (t - 0.5)]. *)
Definition hue_offset (i n : nat) : Q :=
  ((8 # 100) * (inject_Z (Z.of_nat i) / (inject_Z (Z.of_nat n) - 1) - (5 # 10)))%Q.

(** The colour of step [i] of [n] of the analogous palette of [seed]. *)
Definition analogous_at (seed : Color xnum) (i n : nat) : Color xnum :=
  hslToRgb (rem (hue seed + Fin (hue_offset i n))%js (of_Z 1)) (saturation seed)
           (Fin (ramp i n)).

(** The colour of step [i] of [n] of the monochromatic palette. *)
Definition monochromatic_at (seed : Color xnum) (i n : nat) : Color xnum :=
  hslToRgb (hue seed) (saturation seed) (Fin (ramp i n)).

(** Settings for the examples: ten colours per group shared among six
    dominant colours. *)
Definition settings_six_clusters : Settings (num := xnum) :=
  {| extractionMethod := "complementary"; paletteType := "analogous";
     colorsPerHue := 10; dominantColorCount := 6;
     harmonizeModel := "none"; similarityThreshold := of_Z 15 |}.

(** The warning of [kMeansClustering]. *)
Definition timeout_warning : string :=
  "kMeansClustering timed out after 5 seconds. Returning current centroids.".

(** The settings of [settings_six_clusters], on binary64 numbers. *)
Definition settings_six_clusters_binary64 : Settings (num := Floats.PrimFloat.float) :=
  {| extractionMethod := "complementary"; paletteType := "analogous";
     colorsPerHue := 10; dominantColorCount := 6;
     harmonizeModel := "none"; similarityThreshold := of_Z 15 |}.

(** The value of an uppercase hexadecimal digit, [-1] for any other
    character. *)
Definition digit_value (c : ascii) : Z :=
  match c with
  | "0" => 0 | "1" => 1 | "2" => 2 | "3" => 3 | "4" => 4 | "5" => 5 | "6" => 6
  | "7" => 7 | "8" => 8 | "9" => 9 | "A" => 10 | "B" => 11 | "C" => 12
  | "D" => 13 | "E" => 14 | "F" => 15 | _ => -1
  end%char%Z.

(** The exported text of every channel from [-1] down to [-n]: a minus
    sign and one digit down to [-15], the two digits of the magnitude
    from [-16] on. *)
Definition hex_agree_negative (n : nat) : bool :=
  forallb (fun k =>
             String.eqb (PaletteFile.toHex (- Z.of_nat k))
                        (if (- 16 <? - Z.of_nat k)%Z
                         then String "-" (String (HexSpec.upper_digit (Z.of_nat k)) "")
                         else HexSpec.hex2 (Z.of_nat k)))
          (List.seq 1 n).

(** [Object.is(JSON.parse(JSON.stringify(x)), x)]: the text of [x] is
    read back as [x].  This holds for every finite number but the
    negative zero, whose text is [0]; [NaN] and the infinities are
    printed as [null]. *)
Definition parses_back {num : Type} {JS : JSNumber num} (x : num) : bool :=
  (isFinite x && negb ((x === of_Z 0) && (of_Z 1 / x <? of_Z 0)))%js.

Definition parses_back_color {num : Type} {JS : JSNumber num} (c : Color num) : bool :=
  let '(r, g, b) := c in parses_back r && parses_back g && parses_back b.

(* ================================================================== *)
(** * The earlier copy of the application *)

(** [src/App.jsx] is version 0.1.2 of the same application.  Its
    [rgbToHsl] and [hslToRgb] are those above; its variations generator
    and its range filter are not those of version 0.2.1, and are
    embedded here as they are written there. *)
Module AppJsx.
Section Code.
Context {num : Type} {JS : JSNumber num}.
Local Open Scope js_scope.
Local Abbreviation Color := (Color num).

(** The comparator [(a, b) => rgbToHsl(...a)[2] - rgbToHsl(...b)[2]]
    of the ascending sort. *)
Definition by_lightness_asc (a b : Color) : num := lightness a - lightness b.

(** [varL] at step [i]: [0.1 + (0.8 * i) / (numVariations - 1)]. *)
Definition step_L (i numVariations : nat) : num :=
  dec 1 10 + (dec 8 10 * of_nat i) / (of_nat numVariations - of_Z 1).

Definition generateColorVariations (baseColor : Color) (numVariations : nat)
  : list Color :=
  let '(r, g, b) := baseColor in
  let '(h, s, l) := rgbToHsl r g b in
  let variations :=
    map (fun i => hslToRgb h s (step_L i numVariations))
        (List.seq 0 numVariations) in
  Array_sort by_lightness_asc variations.

(** The predicate of [newPalette.filter(...)] *)
Definition in_range (color : Color) : bool :=
  let '(r, g, b) := color in
  let '(h, s, l) := rgbToHsl r g b in
  (l >? dec 1 10) && (l <? dec 95 100).

Definition filteredPalette (newPalette : list Color) : list Color :=
  filter in_range newPalette.
End Code.
End AppJsx.

(* ================================================================== *)
(** * Properties that hold for every number implementation *)

Section Structure.
Context {num : Type} {JS : JSNumber num} {HOST : JSHost num}.
Local Open Scope js_scope.
Local Abbreviation Color := (Color num).

Lemma in_range_visible (c : Color) : in_range c = visible c.
Proof.
  unfold in_range, visible, lightness, saturation.
  destruct c as [[r g] b]. destruct (rgbToHsl r g b) as [[h s] l]. reflexivity.
Qed.

(** C5. The range filter of version 0.2.1 keeps a colour of the palette
    exactly when its HSL lightness is above 0.1 and below 0.95 and its
    HSL saturation is above 0.1; the colours it keeps stay in their
    order, and every other colour is dropped.  The filter of the
    earlier copy, [AppJsx.filteredPalette], has no test of the
    saturation. *)
Theorem range_filter_keeps_exactly (newPalette : list Color) :
  filteredPalette newPalette = filter visible newPalette
  /\ forall c : Color,
       In c (filteredPalette newPalette) <->
       In c newPalette
       /\ (lightness c >? dec 1 10) = true
       /\ (lightness c <? dec 95 100) = true
       /\ (saturation c >? dec 1 10) = true.
Proof.
  assert (E : filteredPalette newPalette = filter visible newPalette).
  { unfold filteredPalette. apply filter_ext. exact in_range_visible. }
  split; [exact E|].
  intro c. rewrite E, filter_In. unfold visible.
  rewrite !andb_true_iff. tauto.
Qed.

(* ---------------------------------------------------------------- *)
(** ** The similarity filter *)

Lemma filter_loop_keeps_distinct (threshold : num) (l acc : list Color) :
  distinct_from threshold acc l -> filter_loop l threshold acc = acc ++ l.
Proof.
  revert acc. induction l as [|c rest IH]; intros acc D; simpl in *.
  - now rewrite app_nil_r.
  - destruct D as [Hc D]. rewrite Hc, (IH _ D), <- app_assoc. reflexivity.
Qed.

Lemma filter_loop_result (threshold : num) (colors acc : list Color) :
  exists kept, filter_loop colors threshold acc = acc ++ kept
               /\ distinct_from threshold acc kept.
Proof.
  revert acc. induction colors as [|c rest IH]; intro acc; simpl.
  - exists []. now rewrite app_nil_r.
  - destruct (isSimilar c threshold acc) eqn:Hc.
    + apply IH.
    + destruct (IH (acc ++ [c])) as (kept & E & D).
      exists (c :: kept). rewrite E, <- app_assoc. simpl. auto.
Qed.

(** C6. Filtering the output of [filterSimilarColors] again, with the
    same threshold, returns that output unchanged. *)
Theorem filterSimilarColors_idempotent (colors : list Color) (threshold : num) :
  filterSimilarColors (filterSimilarColors colors threshold) threshold
  = filterSimilarColors colors threshold.
Proof.
  destruct colors as [|first [|second rest]]; try reflexivity.
  destruct (filter_loop_result threshold (second :: rest) [first]) as (kept & E & D).
  change (filterSimilarColors (first :: second :: rest) threshold)
    with (filter_loop (second :: rest) threshold [first]).
  rewrite E. destruct kept as [|c kept]; [reflexivity|].
  change (filter_loop (c :: kept) threshold [first] = [first] ++ c :: kept).
  now apply filter_loop_keeps_distinct.
Qed.

(* ---------------------------------------------------------------- *)
(** ** The harmoniser, colour by colour *)

Lemma harmonizeColors_map (colors : list Color) (model : string) :
  harmonizeColors colors model
  = map (fun c => hslToRgb (hue c)
                           (harmonized_s (params_of model) (saturation c))
                           (harmonized_l (params_of model) (lightness c)))
        colors.
Proof.
  unfold harmonizeColors. apply map_ext. intros [[r g] b].
  unfold hue, saturation, lightness, harmonized_s, harmonized_l.
  destruct (rgbToHsl r g b) as [[h s] l]. reflexivity.
Qed.

(** C10. For every profile there are a map of lightness and a map of
    saturation such that, for every palette, [harmonizeColors] returns
    as many colours as it was given, and the colour at each position is
    [hslToRgb] of the unchanged hue, the mapped saturation and the
    mapped lightness of the input colour at that position. *)
Theorem harmonizeColors_frame (model : string) :
  exists f_s f_l : num -> num,
    forall colors : list Color,
      List.length (harmonizeColors colors model) = List.length colors
      /\ forall (i : nat) (c : Color),
           nth_error colors i = Some c ->
           nth_error (harmonizeColors colors model) i
           = Some (hslToRgb (hue c) (f_s (saturation c)) (f_l (lightness c))).
Proof.
  exists (harmonized_s (params_of model)), (harmonized_l (params_of model)).
  intro colors. rewrite harmonizeColors_map. split.
  - apply length_map.
  - intros i c Hc. now rewrite nth_error_map, Hc.
Qed.
End Structure.

(* ================================================================== *)
(** * Empty inputs *)

Section EmptyInputs.
Context {num : Type} {JS : JSNumber num} {HOST : JSHost num}.
Local Open Scope js_scope.
Local Abbreviation Color := (Color num).

(** The categorical branch expands the seeds of its categories. *)
Lemma categorical_loop_seeds (cats : list string) (cfg : Settings)
      (allPixels newPalette : list Color) (w : World) :
  categorical_loop cats cfg allPixels newPalette w
  = expand_each (paletteType cfg) (colorsPerHue cfg) (seeds_of cats allPixels)
                newPalette w.
Proof.
  revert newPalette w. induction cats as [|cat rest IH]; intros newPalette w.
  - reflexivity.
  - change (seeds_of (cat :: rest) allPixels)
      with (match filter (in_category (rangePairs_of cat categories)) allPixels with
            | [] => []
            | catPixels => [getMedianColor catPixels]
            end ++ seeds_of rest allPixels).
    cbn [categorical_loop].
    destruct (filter (in_category (rangePairs_of cat categories)) allPixels)
      as [|p ps]; cbn [app expand_each].
    + apply IH.
    + unfold bind.
      destruct (expand (paletteType cfg) (getMedianColor (p :: ps)) (colorsPerHue cfg) w).
      apply IH.
Qed.

(** The clustered branch expands the colours of [getDominantColors]. *)
Lemma clustered_loop_seeds (cfg : Settings) (seeds newPalette : list Color) (w : World) :
  clustered_loop seeds cfg newPalette w
  = expand_each (paletteType cfg)
                (floor_div (colorsPerHue cfg) (dominantColorCount cfg))
                seeds newPalette w.
Proof.
  revert newPalette w. induction seeds as [|c rest IH]; intros newPalette w.
  - reflexivity.
  - cbn [clustered_loop expand_each]. unfold bind.
    destruct (expand (paletteType cfg) c
                     (floor_div (colorsPerHue cfg) (dominantColorCount cfg)) w).
    apply IH.
Qed.

Lemma seeds_of_no_pixel (cats : list string) : seeds_of cats ([] : list Color) = [].
Proof. induction cats as [|cat rest IH]; [reflexivity | exact IH]. Qed.

Lemma kMeansClustering_no_pixel (k maxIterations sampleSize : nat) (w : World) :
  kMeansClustering ([] : list Color) k maxIterations sampleSize w = ([], w).
Proof. reflexivity. Qed.

Lemma kMeansClustering_zero (pixels : list Color) (maxIterations sampleSize : nat)
      (w : World) :
  kMeansClustering pixels 0 maxIterations sampleSize w = ([], w).
Proof. unfold kMeansClustering. now rewrite orb_true_r. Qed.

Lemma getDominantColors_zero (pixels : list Color) (w : World) :
  getDominantColors pixels 0 w = ([], w).
Proof. unfold getDominantColors. simpl. apply kMeansClustering_zero. Qed.

Lemma random_pixel_no_pixel (w : World) :
  random_pixel ([] : list Color) w = (None, after_draws 1 w).
Proof.
  unfold random_pixel, bind, random, ret, array_get, after_draws. simpl.
  rewrite Nat.add_1_r.
  destruct (as_index _) as [i|]; [destruct i|]; reflexivity.
Qed.

Lemma pad_loop_no_pixel (n : nat) (result : list Color) (w : World) :
  pad_loop n [] result w = (result ++ repeat black n, after_draws n w).
Proof.
  revert result w. induction n as [|n IH]; intros result w.
  - simpl. rewrite app_nil_r. unfold ret, after_draws. rewrite Nat.add_0_r.
    now destruct w.
  - simpl. unfold bind at 1. rewrite random_pixel_no_pixel, IH, <- app_assoc.
    unfold after_draws. simpl. rewrite <- Nat.add_assoc. reflexivity.
Qed.

Lemma refine_nothing (cfg : Settings) :
  uniqueColors
    (filterSimilarColors
       (filteredPalette
          (if negb (String.eqb (harmonizeModel cfg) "none")
           then harmonizeColors ([] : list Color) (harmonizeModel cfg) else []))
       (similarityThreshold cfg)) = [].
Proof. now destruct (negb _). Qed.

(** C2, as the code has it.  With no pixel the categorical method has
    no seed, and with a count of zero the clustered method has none,
    whatever the pixels; in both cases the palette is empty, nothing is
    drawn, read or logged, and no error is possible.
    [kMeansClustering] itself returns no centroid for no pixel or for a
    count of zero.  With no pixel and a count of [n > 0], however, the
    clustered method does not reach [kMeansClustering]: the padding
    loop of [getDominantColors] returns [n] seeds, all black. *)
Theorem empty_input_seeds (cfg : Settings) (pixels : list Color)
        (k maxIterations sampleSize : nat) (w : World) :
  seeds_of categoryOrder ([] : list Color) = []
  /\ (String.eqb (extractionMethod cfg) "categorical" = true ->
      generatePalette cfg [] w = ([], w))
  /\ getDominantColors pixels 0 w = ([], w)
  /\ (String.eqb (extractionMethod cfg) "categorical" = false ->
      dominantColorCount cfg = 0%nat ->
      generatePalette cfg pixels w = ([], w))
  /\ kMeansClustering [] k maxIterations sampleSize w = ([], w)
  /\ kMeansClustering pixels 0 maxIterations sampleSize w = ([], w)
  /\ (forall n : nat,
        getDominantColors [] (S n) w = (repeat black (S n), after_draws (S n) w)).
Proof.
  split; [apply seeds_of_no_pixel|].
  split.
  { intro Hm. unfold generatePalette, rawPalette, bind. rewrite Hm.
    rewrite categorical_loop_seeds, seeds_of_no_pixel. simpl. unfold ret.
    now rewrite refine_nothing. }
  split; [apply getDominantColors_zero|].
  split.
  { intros Hm Hc. unfold generatePalette, rawPalette, seeds_clustered, bind.
    rewrite Hm, Hc, getDominantColors_zero. simpl. unfold ret.
    now rewrite refine_nothing. }
  split; [apply kMeansClustering_no_pixel|].
  split; [apply kMeansClustering_zero|].
  intro n. unfold getDominantColors.
  change (List.length (@nil Color) <? S n)%nat with true.
  apply (pad_loop_no_pixel (S n) []).
Qed.
End EmptyInputs.

Section EmptyInputExamples.
Local Open Scope js_scope.

Lemma empty_input_seeds_witness :
  generatePalette (HOST := example_host) settings_categorical [] initial_world
  = ([], initial_world)
  /\ generatePalette (HOST := example_host) settings_no_cluster [rgb 200 30 30] initial_world
     = ([], initial_world)
  /\ getDominantColors (HOST := example_host) [] 3 initial_world
     = (repeat black 3, after_draws 3 initial_world).
Proof.
  destruct (@empty_input_seeds xnum _ example_host settings_categorical [] 0 10 1000
                               initial_world) as (_ & A & _).
  destruct (@empty_input_seeds xnum _ example_host settings_no_cluster [rgb 200 30 30]
                               0 10 1000 initial_world) as (_ & _ & _ & B & _ & _ & C).
  split; [apply A; reflexivity|].
  split; [apply B; reflexivity | apply C].
Defined.

(** With no pixel and three dominant colours asked for, the clustered
    method has three seeds, all black, and with the "neon" profile the
    palette it ends with has a colour. *)
Lemma empty_buffer_clustered_has_seeds :
  fst (getDominantColors (HOST := example_host) [] 3 initial_world)
  = [rgb 0 0 0; rgb 0 0 0; rgb 0 0 0]
  /\ exists c rest,
       fst (generatePalette (HOST := example_host) settings_neon [] initial_world)
       = c :: rest.
Proof.
  split; [reflexivity|].
  vm_compute. eexists. eexists. reflexivity.
Qed.
End EmptyInputExamples.

(* ================================================================== *)
(** * The exported file *)

Module PaletteFileFacts.
Import PaletteFile HexSpec.
Local Open Scope Z_scope.

Lemma toHex_channel (c : Z) : channel c -> toHex c = hex2 c.
Proof.
  intros [H0 H255].
  assert (A : hex_agree_upto 256 = true) by (vm_compute; reflexivity).
  unfold hex_agree_upto in A. rewrite forallb_forall in A.
  specialize (A (Z.to_nat c)).
  rewrite Z2Nat.id in A by exact H0.
  apply String.eqb_eq, A, in_seq. lia.
Qed.


End PaletteFileFacts.

(* ================================================================== *)
(** * Exact arithmetic: evaluation on finite numbers *)

Section ExactBasics.
Import QOps OnQ.
Local Open Scope Q_scope.

Lemma qltb_spec (a b : Q) : BoolSpec (a < b) (b <= a) (qltb a b).
Proof.
  unfold qltb. destruct (Qle_bool b a) eqn:E; simpl; constructor.
  - now apply Qle_bool_iff.
  - apply Qnot_le_lt. intro H. apply Qle_bool_iff in H. congruence.
Qed.

Lemma Qeq_bool_spec (a b : Q) : BoolSpec (a == b) (~ a == b) (Qeq_bool a b).
Proof.
  destruct (Qeq_bool a b) eqn:E; constructor.
  - now apply Qeq_bool_iff.
  - now apply Qeq_bool_neq.
Qed.

Lemma div_Fin (a b : Q) : ~ b == 0 -> XNum.div (Fin a) (Fin b) = Fin (a / b).
Proof.
  intro H. unfold XNum.div. destruct (Qeq_bool_spec b 0); [contradiction | reflexivity].
Qed.

Lemma le_Fin (a b : Q) : XNum.le (Fin a) (Fin b) = Qle_bool a b.
Proof.
  unfold XNum.le. cbn [XNum.lt XNum.strict_eq].
  destruct (qltb_spec a b) as [L|L]; destruct (Qeq_bool_spec a b) as [E|E];
    destruct (Qle_bool a b) eqn:B; try reflexivity;
    try (apply Qle_bool_iff in B; exfalso; apply E; lra);
    exfalso; assert (a <= b) by lra; apply Qle_bool_iff in H; congruence.
Qed.

Lemma isNaN_Fin (a : Q) : isNaN (Fin a) = false.
Proof. unfold isNaN. simpl. now rewrite Qeq_bool_refl. Qed.

Lemma Math_max_Fin (a b : Q) : Math_max (Fin a) (Fin b) = Fin (qmax a b).
Proof.
  unfold Math_max, qmax. rewrite !isNaN_Fin. simpl. now destruct (qltb a b).
Qed.

Lemma Math_min_Fin (a b : Q) : Math_min (Fin a) (Fin b) = Fin (qmin a b).
Proof.
  unfold Math_min, qmin. rewrite !isNaN_Fin. simpl. now destruct (qltb b a).
Qed.

Lemma Math_max3_Fin (a b c : Q) :
  Math_max3 (Fin a) (Fin b) (Fin c) = Fin (qmax (qmax a b) c).
Proof. unfold Math_max3. now rewrite !Math_max_Fin. Qed.

Lemma Math_min3_Fin (a b c : Q) :
  Math_min3 (Fin a) (Fin b) (Fin c) = Fin (qmin (qmin a b) c).
Proof. unfold Math_min3. now rewrite !Math_min_Fin. Qed.

Lemma qmax_cases (a b : Q) : (qmax a b = a /\ b <= a) \/ (qmax a b = b /\ a < b).
Proof. unfold qmax. destruct (qltb_spec a b); auto. Qed.

Lemma qmin_cases (a b : Q) : (qmin a b = a /\ a <= b) \/ (qmin a b = b /\ b < a).
Proof. unfold qmin. destruct (qltb_spec b a); auto. Qed.

Lemma of_Z_Fin (z : Z) : of_Z z = Fin (z # 1).
Proof. reflexivity. Qed.

Lemma div_Fin_255 (a : Q) : (Fin a / Fin 255)%js = Fin (a * (1 # 255)).
Proof. reflexivity. Qed.

Lemma div_Fin_6 (a : Q) : (Fin a / Fin 6)%js = Fin (a * (1 # 6)).
Proof. reflexivity. Qed.

Lemma div_Fin_2 (a : Q) : (Fin a / Fin 2)%js = Fin (a * (1 # 2)).
Proof. reflexivity. Qed.

Lemma const_1_6 : (Fin 1 / Fin 6)%js = Fin (1 # 6).
Proof. reflexivity. Qed.

Lemma const_1_2 : (Fin 1 / Fin 2)%js = Fin (1 # 2).
Proof. reflexivity. Qed.

Lemma const_1_3 : (Fin 1 / Fin 3)%js = Fin (1 # 3).
Proof. reflexivity. Qed.

Lemma const_2_3 : (Fin 2 / Fin 3)%js = Fin (2 # 3).
Proof. reflexivity. Qed.

Lemma rem_Fin_6 (a : Q) :
  rem (Fin a) (Fin 6) = Fin (a - 6 * inject_Z (Qtrunc (a / 6))).
Proof. reflexivity. Qed.

Lemma const_dec (n : Z) (d : positive) : dec n d = Fin (n # d).
Proof.
  unfold dec. cbn [of_Z div xnum_JSNumber]. rewrite div_Fin by discriminate.
  f_equal. unfold Qdiv, Qinv, Qmult, inject_Z. simpl.
  now rewrite Z.mul_1_r.
Qed.
End ExactBasics.

(** Evaluation of the operations of [xnum] on finite arguments. *)
Ltac xeval :=
  repeat progress
    (rewrite ?of_Z_Fin, ?const_1_6, ?const_1_2, ?const_1_3, ?const_2_3,
       ?div_Fin_255, ?div_Fin_6, ?div_Fin_2, ?Math_max_Fin, ?Math_min_Fin, ?Math_max3_Fin,
       ?Math_min3_Fin, ?rem_Fin_6, ?le_Fin;
     cbn [add sub mul lt le strict_eq of_Z Math_round Math_floor NaN
          xnum_JSNumber XNum.add XNum.sub XNum.mul XNum.lt XNum.le
          XNum.strict_eq XNum.lift]).

Ltac split_ifs :=
  repeat match goal with
         | |- context [if ?c then _ else _] => destruct c
         end.

(** The tests on rationals, innermost first; a branch that linear
    arithmetic refutes is closed. *)
Ltac qtests :=
  repeat match goal with
         | |- context [QOps.qltb ?a ?b] =>
             lazymatch a with
             | context [QOps.qltb _ _] => fail
             | _ => lazymatch b with
                    | context [QOps.qltb _ _] => fail
                    | _ => destruct (qltb_spec a b); try (exfalso; lra)
                    end
             end
         end.

Ltac zconst :=
  change (inject_Z 0) with 0 in *; change (inject_Z 1) with 1 in *;
  change (inject_Z 2) with 2 in *; change (inject_Z 3) with 3 in *;
  change (inject_Z 4) with 4 in *; change (inject_Z 5) with 5 in *.

Section ExactConversions.
Import QOps OnQ.
Local Open Scope Q_scope.

Lemma hue2rgb_Fin (p q t : Q) :
  hue2rgb (Fin p) (Fin q) (Fin t) = Fin (hue2rgbQ p q t).
Proof.
  unfold hue2rgb, hue2rgbQ. xeval.
  destruct (qltb t 0); xeval;
    match goal with |- context [qltb 1 ?x] => destruct (qltb 1 x) end; xeval;
    split_ifs; reflexivity.
Qed.

Lemma hslToRgb_Fin (h s l : Q) :
  hslToRgb (Fin h) (Fin s) (Fin l) = rgb3 (hslToRgbQ h s l).
Proof.
  unfold hslToRgb, hslToRgbQ. rewrite (const_dec 5 10). xeval.
  destruct (Qeq_bool s 0); [reflexivity|].
  destruct (qltb l (5 # 10)); xeval; rewrite !hue2rgb_Fin; reflexivity.
Qed.

Lemma qmax3_spec (a b c : Q) :
  let m := qmax (qmax a b) c in
  (m = a \/ m = b \/ m = c) /\ a <= m /\ b <= m /\ c <= m.
Proof.
  cbv zeta. destruct (qmax_cases a b) as [[E1 H1]|[E1 H1]];
    destruct (qmax_cases (qmax a b) c) as [[E2 H2]|[E2 H2]];
    rewrite E2 in *; rewrite ?E1 in *; repeat split; auto; lra.
Qed.

Lemma qmin3_spec (a b c : Q) :
  let m := qmin (qmin a b) c in
  (m = a \/ m = b \/ m = c) /\ m <= a /\ m <= b /\ m <= c.
Proof.
  cbv zeta. destruct (qmin_cases a b) as [[E1 H1]|[E1 H1]];
    destruct (qmin_cases (qmin a b) c) as [[E2 H2]|[E2 H2]];
    rewrite E2 in *; rewrite ?E1 in *; repeat split; auto; lra.
Qed.

(** On the channels of a colour of the data model, [rgbToHsl] divides
    by no zero and computes on rationals. *)
Lemma rgbToHsl_Fin (r g b : Q) :
  0 <= r <= 255 -> 0 <= g <= 255 -> 0 <= b <= 255 ->
  rgbToHsl (Fin r) (Fin g) (Fin b) = fin3 (rgbToHslQ r g b).
Proof.
  intros Hr Hg Hb. unfold rgbToHsl, rgbToHslQ, hsl_unit, hue_switch, hue_switchQ.
  rewrite (const_dec 5 10). xeval.
  set (r' := r * (1 # 255)). set (g' := g * (1 # 255)). set (b' := b * (1 # 255)).
  assert (Hr' : 0 <= r' <= 1) by (unfold r'; lra).
  assert (Hg' : 0 <= g' <= 1) by (unfold g'; lra).
  assert (Hb' : 0 <= b' <= 1) by (unfold b'; lra).
  clearbody r' g' b'.
  destruct (qmax3_spec r' g' b') as (Mi & M1 & M2 & M3).
  destruct (qmin3_spec r' g' b') as (mi & m1 & m2 & m3).
  set (max := qmax (qmax r' g') b') in *.
  set (min := qmin (qmin r' g') b') in *.
  clearbody max min.
  destruct (Qeq_bool_spec max min) as [E|E]; [reflexivity|].
  assert (Hmax : max <= 1) by (destruct Mi as [->|[->| ->]]; lra).
  assert (Hmin : 0 <= min) by (destruct mi as [->|[->| ->]]; lra).
  assert (Hd : ~ max - min == 0) by (intro H; apply E; lra).
  assert (Hs1 : ~ 2 - max - min == 0) by (intro H; apply E; lra).
  assert (Hs2 : ~ max + min == 0) by (intro H; apply E; lra).
  xeval. rewrite !div_Fin by assumption. xeval.
  destruct (qltb (5 # 10) ((max + min) * (1 # 2)));
    destruct (Qeq_bool_spec max r') as [E1|E1]; xeval;
    try (destruct (qltb g' b'); reflexivity);
    destruct (Qeq_bool_spec max g') as [E2|E2]; xeval; try reflexivity;
    (destruct (Qeq_bool_spec max b') as [E3|E3]; xeval; [reflexivity|]);
    exfalso; destruct Mi as [Mi|[Mi|Mi]]; rewrite Mi in *;
    first [now apply E1 | now apply E2 | now apply E3].
Qed.

(** The lightness of a colour with finite channels, whatever they are. *)
Lemma lightness_Fin (r g b : Q) :
  lightness (Fin r, Fin g, Fin b)
  = Fin ((qmax (qmax (r * (1 # 255)) (g * (1 # 255))) (b * (1 # 255))
          + qmin (qmin (r * (1 # 255)) (g * (1 # 255))) (b * (1 # 255)))
         * (1 # 2)).
Proof.
  unfold lightness, rgbToHsl. xeval.
  match goal with |- context [if ?c then _ else _] => destruct c end; reflexivity.
Qed.
End ExactConversions.

(* ================================================================== *)
(** * Exact arithmetic: the round trips *)

Section RoundTrips.
Import QOps OnQ.
Local Open Scope Q_scope.

(** The quotient of the hue computation: where it lies, from where its
    numerator lies. *)
Lemma quot_spec (a d : Q) : 0 < d -> - d <= a <= d ->
  (a / d) * d == a
  /\ -1 <= a / d <= 1
  /\ (0 <= a -> 0 <= a / d)
  /\ (a < 0 -> a / d < 0)
  /\ (a < d -> a / d < 1)
  /\ (- d < a -> -1 < a / d).
Proof.
  intros Hd Ha.
  assert (E : (a / d) * d == a) by (field; lra).
  set (x := a / d) in *. clearbody x.
  repeat split; intros; nra.
Qed.

(** With [p] the least and [q] the greatest channel, [hue2rgb] at the
    hue and a third to either side of it gives the three channels back. *)
Lemma hue_sectors (r g b max min : Q) :
  (max == r \/ max == g \/ max == b) -> (min == r \/ min == g \/ min == b) ->
  r <= max -> g <= max -> b <= max -> min <= r -> min <= g -> min <= b ->
  ~ max == min ->
  let h := hue_switchQ max r g b (max - min) in
  hue2rgbQ min max (h + (1#3)) == r
  /\ hue2rgbQ min max h == g
  /\ hue2rgbQ min max (h - (1#3)) == b.
Proof.
  intros Mi mi M1 M2 M3 m1 m2 m3 E. cbv zeta. unfold hue_switchQ.
  assert (Hd : 0 < max - min).
  { assert (min <= max) by lra.
    destruct (Qlt_le_dec min max); [lra | exfalso; apply E; lra]. }
  assert (Hmin : min <= max) by lra.
  destruct (Qeq_bool_spec max r) as [E1|E1].
  - destruct (@quot_spec (g - b) (max - min) Hd) as (Hx & Hx1 & Hx2 & Hx3 & Hx4 & Hx5); [lra|].
    set (x := (g - b) / (max - min)) in *. clearbody x.
    destruct (qltb_spec g b) as [L|L].
    + specialize (Hx3 ltac:(lra)).
      repeat split; unfold hue2rgbQ; qtests; solve [nra | destruct mi as [mi|[mi|mi]]; nra].
    + specialize (Hx2 ltac:(lra)).
      repeat split; unfold hue2rgbQ; qtests; solve [nra | destruct mi as [mi|[mi|mi]]; nra].
  - destruct (Qeq_bool_spec max g) as [E2|E2].
    + destruct (@quot_spec (b - r) (max - min) Hd) as (Hx & Hx1 & Hx2 & Hx3 & Hx4 & Hx5); [lra|].
      set (x := (b - r) / (max - min)) in *. clearbody x.
      assert (r < max) by (destruct (Qlt_le_dec r max); [lra | exfalso; apply E1; lra]).
      repeat split; unfold hue2rgbQ; qtests; solve [nra | destruct mi as [mi|[mi|mi]]; nra].
    + destruct (@quot_spec (r - g) (max - min) Hd) as (Hx & Hx1 & Hx2 & Hx3 & Hx4 & Hx5); [lra|].
      set (x := (r - g) / (max - min)) in *. clearbody x.
      assert (r < max) by (destruct (Qlt_le_dec r max); [lra | exfalso; apply E1; lra]).
      assert (g < max) by (destruct (Qlt_le_dec g max); [lra | exfalso; apply E2; lra]).
      assert (max == b) by (destruct Mi as [Mi|[Mi|Mi]]; lra).
      repeat split; unfold hue2rgbQ; qtests; solve [nra | destruct mi as [mi|[mi|mi]]; nra].
Qed.

Lemma qltb_comp (a a' b b' : Q) : a == a' -> b == b' -> qltb a b = qltb a' b'.
Proof. intros Ha Hb. unfold qltb. now rewrite Ha, Hb. Qed.

Lemma hue2rgbQ_comp (p p' q q' t t' : Q) :
  p == p' -> q == q' -> t == t' -> hue2rgbQ p q t == hue2rgbQ p' q' t'.
Proof.
  intros Hp Hq Ht. unfold hue2rgbQ.
  rewrite (@qltb_comp t t' 0 0 Ht (Qeq_refl 0)).
  destruct (qltb t' 0).
  - rewrite (@qltb_comp 1 1 (t + 1) (t' + 1)) by (try reflexivity; now rewrite Ht).
    destruct (qltb 1 (t' + 1)).
    + rewrite !(@qltb_comp (t + 1 - 1) (t' + 1 - 1) _ _) by (try reflexivity; now rewrite Ht).
      split_ifs; rewrite ?Hp, ?Hq, ?Ht; reflexivity.
    + rewrite !(@qltb_comp (t + 1) (t' + 1) _ _) by (try reflexivity; now rewrite Ht).
      split_ifs; rewrite ?Hp, ?Hq, ?Ht; reflexivity.
  - rewrite (@qltb_comp 1 1 t t') by (try reflexivity; now rewrite Ht).
    destruct (qltb 1 t').
    + rewrite !(@qltb_comp (t - 1) (t' - 1) _ _) by (try reflexivity; now rewrite Ht).
      split_ifs; rewrite ?Hp, ?Hq, ?Ht; reflexivity.
    + rewrite !(@qltb_comp t t' _ _) by (try reflexivity; now rewrite Ht).
      split_ifs; rewrite ?Hp, ?Hq, ?Ht; reflexivity.
Qed.

Lemma Qround_comp (a b : Q) : a == b -> Qround a = Qround b.
Proof. intro H. unfold Qround. now rewrite H. Qed.

Lemma channels_comp (a a' b b' c c' : Q) :
  a == a' -> b == b' -> c == c' -> channels (a, b, c) = channels (a', b', c').
Proof.
  intros Ha Hb Hc. unfold channels.
  rewrite (@Qround_comp (a * 255) (a' * 255)) by now rewrite Ha.
  rewrite (@Qround_comp (b * 255) (b' * 255)) by now rewrite Hb.
  rewrite (@Qround_comp (c * 255) (c' * 255)) by now rewrite Hc.
  reflexivity.
Qed.

Lemma hslToRgbQ_comp (h h' s s' l l' : Q) :
  h == h' -> s == s' -> l == l' -> hslToRgbQ h s l = hslToRgbQ h' s' l'.
Proof.
  intros Hh Hs Hl. unfold hslToRgbQ.
  rewrite (Qeqb_comp s s' Hs 0 0 (Qeq_refl 0)).
  destruct (Qeq_bool s' 0); [now apply channels_comp|].
  rewrite (@qltb_comp l l' (5 # 10) (5 # 10) Hl (Qeq_refl _)).
  destruct (qltb l' (5 # 10)); apply channels_comp; apply hue2rgbQ_comp;
    rewrite ?Hh, ?Hs, ?Hl; reflexivity.
Qed.

Lemma Qround_channel (x : Q) (z : Z) : x == inject_Z z * (1 # 255) -> Qround (x * 255) = z.
Proof.
  intro H. unfold Qround.
  assert (E : x * 255 + (1 # 2) == inject_Z z + (1 # 2)) by (rewrite H; field).
  rewrite E.
  assert (L := Qfloor_le (inject_Z z + (1 # 2))).
  assert (U := Qlt_floor (inject_Z z + (1 # 2))).
  set (f := Qfloor (inject_Z z + (1 # 2))) in *. clearbody f.
  rewrite inject_Z_plus in U. change (inject_Z 1) with 1 in U.
  assert (A : inject_Z f < inject_Z z + inject_Z 1) by (change (inject_Z 1) with 1; lra).
  assert (B : inject_Z z < inject_Z f + inject_Z 1) by (change (inject_Z 1) with 1; lra).
  rewrite <- inject_Z_plus, <- Zlt_Qlt in A, B. lia.
Qed.

Lemma hsl_pq (max min : Q) :
  0 <= min -> min < max -> max <= 1 ->
  let l := (max + min) * (1 # 2) in
  let s := if qltb (5 # 10) l then (max - min) / (2 - max - min)
           else (max - min) / (max + min) in
  0 < s <= 1
  /\ (if qltb l (5 # 10) then l * (1 + s) else l + s - l * s) == max
  /\ 2 * l - (if qltb l (5 # 10) then l * (1 + s) else l + s - l * s) == min.
Proof.
  intros H0 Hlt H1. cbv zeta.
  destruct (qltb_spec (5 # 10) ((max + min) * (1 # 2))) as [L|L].
  - assert (E : (max - min) / (2 - max - min) * (2 - max - min) == max - min)
      by (field; lra).
    set (s := (max - min) / (2 - max - min)) in *. clearbody s.
    destruct (qltb_spec ((max + min) * (1 # 2)) (5 # 10)); [lra|].
    repeat split; nra.
  - assert (E : (max - min) / (max + min) * (max + min) == max - min)
      by (field; lra).
    set (s := (max - min) / (max + min)) in *. clearbody s.
    destruct (qltb_spec ((max + min) * (1 # 2)) (5 # 10)); repeat split; nra.
Qed.

Lemma byte_Q (z : Z) : byte z -> 0 <= inject_Z z * (1 # 255) <= 1 /\ 0 <= inject_Z z <= 255.
Proof.
  intros [H0 H1]. rewrite (Zle_Qle 0 z) in H0. rewrite (Zle_Qle z 255) in H1.
  change (inject_Z 0) with 0 in H0. change (inject_Z 255) with 255 in H1. lra.
Qed.

Lemma channels_exact (x y z : Q) (R G B : Z) :
  x == inject_Z R * (1 # 255) -> y == inject_Z G * (1 # 255) ->
  z == inject_Z B * (1 # 255) -> channels (x, y, z) = (R, G, B).
Proof.
  intros Hx Hy Hz. unfold channels.
  now rewrite (Qround_channel Hx), (Qround_channel Hy), (Qround_channel Hz).
Qed.

Lemma hsl_unit_inverse (r g b : Q) (R G B : Z) :
  r == inject_Z R * (1 # 255) -> g == inject_Z G * (1 # 255) ->
  b == inject_Z B * (1 # 255) ->
  0 <= r <= 1 -> 0 <= g <= 1 -> 0 <= b <= 1 ->
  let '(h, s, l) := hsl_unit r g b in
  hslToRgbQ h s l = (R, G, B) /\ 0 <= s <= 1 /\ 0 <= l <= 1.
Proof.
  intros Er Eg Eb Hr Hg Hb. unfold hsl_unit.
  destruct (qmax3_spec r g b) as (Mi & M1 & M2 & M3).
  destruct (qmin3_spec r g b) as (mi & m1 & m2 & m3).
  set (max := qmax (qmax r g) b) in *.
  set (min := qmin (qmin r g) b) in *.
  clearbody max min.
  assert (Mi' : max == r \/ max == g \/ max == b)
    by (destruct Mi as [->|[->| ->]]; auto using Qeq_refl).
  assert (mi' : min == r \/ min == g \/ min == b)
    by (destruct mi as [->|[->| ->]]; auto using Qeq_refl).
  assert (Hmax : max <= 1) by (destruct Mi as [->|[->| ->]]; lra).
  assert (Hmin : 0 <= min) by (destruct mi as [->|[->| ->]]; lra).
  clear Mi mi.
  destruct (Qeq_bool_spec max min) as [E|E].
  - split; [|lra]. unfold hslToRgbQ. change (Qeq_bool 0 0) with true. cbv iota.
    apply channels_exact; lra.
  - assert (Hlt : min < max)
      by (destruct (Qlt_le_dec min max); [assumption | exfalso; apply E; lra]).
    destruct (hsl_pq Hmin Hlt Hmax) as (Hs & Hq & Hp).
    destruct (hue_sectors Mi' mi' M1 M2 M3 m1 m2 m3 E) as (S1 & S2 & S3).
    cbv zeta in Hs, Hq, Hp.
    split; [|split; lra].
    unfold hslToRgbQ.
    match goal with |- context [Qeq_bool ?s 0] =>
      destruct (Qeq_bool_spec s 0) as [Z|Z]; [exfalso; lra|] end.
    apply channels_exact.
    + apply Qeq_trans with (2 := Er), Qeq_trans with (2 := S1).
      now apply hue2rgbQ_comp.
    + apply Qeq_trans with (2 := Eg), Qeq_trans with (2 := S2).
      now apply hue2rgbQ_comp.
    + apply Qeq_trans with (2 := Eb), Qeq_trans with (2 := S3).
      now apply hue2rgbQ_comp.
Qed.

Lemma rgbToHslQ_inverse (R G B : Z) :
  byte R -> byte G -> byte B ->
  let '(h, s, l) := rgbToHslQ (inject_Z R) (inject_Z G) (inject_Z B) in
  hslToRgbQ h s l = (R, G, B) /\ 0 <= s <= 1 /\ 0 <= l <= 1.
Proof.
  intros HR HG HB. unfold rgbToHslQ.
  destruct (byte_Q HR) as [? _], (byte_Q HG) as [? _], (byte_Q HB) as [? _].
  apply hsl_unit_inverse; try reflexivity; assumption.
Qed.

Lemma Qfloor_unique (y : Q) (k : Z) : inject_Z k <= y -> y < inject_Z k + 1 -> Qfloor y = k.
Proof.
  intros L U.
  assert (A := Qfloor_le y). assert (B := Qlt_floor y).
  set (f := Qfloor y) in *. clearbody f.
  rewrite inject_Z_plus in B. change (inject_Z 1) with 1 in B.
  assert (C : inject_Z f < inject_Z k + inject_Z 1) by (change (inject_Z 1) with 1; lra).
  assert (D : inject_Z k < inject_Z f + inject_Z 1) by (change (inject_Z 1) with 1; lra).
  rewrite <- inject_Z_plus, <- Zlt_Qlt in C, D. lia.
Qed.

Lemma hsvToRgbQ_sector (h s v : Q) (k : Z) :
  (0 <= k < 6)%Z -> inject_Z k <= h * 6 -> h * 6 < inject_Z k + 1 ->
  hsvToRgbQ h s v
  = channels (sector_colors k v (v * (1 - s))
                            (v * (1 - (h * 6 - inject_Z k) * s))
                            (v * (1 - (1 - (h * 6 - inject_Z k)) * s))).
Proof.
  intros Hk L U. unfold hsvToRgbQ. rewrite (Qfloor_unique L U).
  assert (C : (k = 0 \/ k = 1 \/ k = 2 \/ k = 3 \/ k = 4 \/ k = 5)%Z) by lia.
  destruct C as [->|[->|[->|[->|[->| ->]]]]]; reflexivity.
Qed.

Lemma hsv_pqt (v s f d : Q) :
  v * s == d ->
  v * (1 - s) == v - d /\ v * (1 - f * s) == v - f * d
  /\ v * (1 - (1 - f) * s) == v - (1 - f) * d.
Proof.
  intro H. repeat split.
  - rewrite <- H. ring.
  - rewrite <- H. ring.
  - rewrite <- H. ring.
Qed.

Lemma sector_exact (k : Z) (v p q t v' p' q' t' : Q) (R G B : Z) :
  v == v' -> p == p' -> q == q' -> t == t' ->
  channels (sector_colors k v' p' q' t') = (R, G, B) ->
  channels (sector_colors k v p q t) = (R, G, B).
Proof.
  intros Hv Hp Hq Ht <-.
  unfold sector_colors. split_ifs; now apply channels_comp.
Qed.

(** One sector of [hsvToRgb]: the channels are those of the colour. *)
Ltac hsv_case x c k :=
  match goal with
  | Es : ?max * ?s == ?max - _, mi' : _ \/ _ \/ _ |- OnQ.hsvToRgbQ _ ?s ?max = _ =>
      rewrite (@hsvToRgbQ_sector _ s max k) by (try lia; zconst; lra);
      let P1 := fresh "P" in
      let P2 := fresh "P" in
      let P3 := fresh "P" in
      destruct (hsv_pqt ((x + c) * (1 # 6) * 6 - inject_Z k) Es) as (P1 & P2 & P3);
      apply sector_exact with (1 := Qeq_refl max) (2 := P1) (3 := P2) (4 := P3);
      apply channels_exact; zconst;
      solve [nra | destruct mi' as [mi|[mi|mi]]; nra]
  end.

Lemma hsv_unit_inverse (r g b : Q) (R G B : Z) :
  r == inject_Z R * (1 # 255) -> g == inject_Z G * (1 # 255) ->
  b == inject_Z B * (1 # 255) ->
  0 <= r <= 1 -> 0 <= g <= 1 -> 0 <= b <= 1 ->
  let '(h, s, v) := hsv_unit r g b in
  hsvToRgbQ h s v = (R, G, B) /\ 0 <= h.
Proof.
  intros Er Eg Eb Hr Hg Hb. unfold hsv_unit.
  destruct (qmax3_spec r g b) as (Mi & M1 & M2 & M3).
  destruct (qmin3_spec r g b) as (mi & m1 & m2 & m3).
  set (max := qmax (qmax r g) b) in *.
  set (min := qmin (qmin r g) b) in *.
  clearbody max min.
  assert (Mi' : max == r \/ max == g \/ max == b)
    by (destruct Mi as [->|[->| ->]]; auto using Qeq_refl).
  assert (mi' : min == r \/ min == g \/ min == b)
    by (destruct mi as [->|[->| ->]]; auto using Qeq_refl).
  assert (Hmax : max <= 1) by (destruct Mi as [->|[->| ->]]; lra).
  assert (Hmin : 0 <= min) by (destruct mi as [->|[->| ->]]; lra).
  clear Mi mi.
  assert (Es : (if Qeq_bool max 0 then 0 else (max - min) / max) * max == max - min).
  { destruct (Qeq_bool_spec max 0); [lra | field; assumption]. }
  set (s := if Qeq_bool max 0 then 0 else (max - min) / max) in *. clearbody s.
  rewrite Qmult_comm in Es.
  destruct (Qeq_bool_spec max min) as [E|E].
  - split; [|lra].
    rewrite (@hsvToRgbQ_sector 0 s max 0) by (try lia; zconst; lra).
    destruct (hsv_pqt (0 * 6 - inject_Z 0) Es) as (P1 & P2 & P3).
    apply sector_exact with (1 := Qeq_refl max) (2 := P1) (3 := P2) (4 := P3).
    apply channels_exact; zconst; lra.
  - assert (Hd : 0 < max - min)
      by (destruct (Qlt_le_dec min max); [lra | exfalso; apply E; lra]).
    unfold hue_switchQ.
    destruct (Qeq_bool_spec max r) as [E1|E1].
    + destruct (@quot_spec (g - b) (max - min) Hd) as (Hx & Hx1 & Hx2 & Hx3 & Hx4 & Hx5); [lra|].
      set (x := (g - b) / (max - min)) in *. clearbody x.
      destruct (qltb_spec g b) as [L|L].
      * specialize (Hx3 ltac:(lra)). split; [|lra].
        rewrite (@hsvToRgbQ_sector _ s max 5) by (try lia; zconst; lra).
        destruct (hsv_pqt ((x + 6) * (1 # 6) * 6 - inject_Z 5) Es) as (P1 & P2 & P3).
        apply sector_exact with (1 := Qeq_refl max) (2 := P1) (3 := P2) (4 := P3).
        apply channels_exact; zconst; solve [nra | destruct mi' as [mi|[mi|mi]]; nra].
      * specialize (Hx2 ltac:(lra)). split; [|lra].
        destruct (Qlt_le_dec x 1) as [X|X].
        -- rewrite (@hsvToRgbQ_sector _ s max 0) by (try lia; zconst; lra).
           destruct (hsv_pqt ((x + 0) * (1 # 6) * 6 - inject_Z 0) Es) as (P1 & P2 & P3).
           apply sector_exact with (1 := Qeq_refl max) (2 := P1) (3 := P2) (4 := P3).
           apply channels_exact; zconst; solve [nra | destruct mi' as [mi|[mi|mi]]; nra].
        -- rewrite (@hsvToRgbQ_sector _ s max 1) by (try lia; zconst; lra).
           destruct (hsv_pqt ((x + 0) * (1 # 6) * 6 - inject_Z 1) Es) as (P1 & P2 & P3).
           apply sector_exact with (1 := Qeq_refl max) (2 := P1) (3 := P2) (4 := P3).
           apply channels_exact; zconst; solve [nra | destruct mi' as [mi|[mi|mi]]; nra].
    + assert (Hr' : r < max)
        by (destruct (Qlt_le_dec r max); [lra | exfalso; apply E1; lra]).
      destruct (Qeq_bool_spec max g) as [E2|E2].
      * destruct (@quot_spec (b - r) (max - min) Hd)
          as (Hx & Hx1 & Hx2 & Hx3 & Hx4 & Hx5); [lra|].
        set (x := (b - r) / (max - min)) in *. clearbody x.
        specialize (Hx5 ltac:(lra)). split; [|lra].
        destruct (Qlt_le_dec x 0) as [X0|X0]; [|destruct (Qlt_le_dec x 1) as [X1|X1]].
        -- hsv_case x 2 1%Z.
        -- hsv_case x 2 2%Z.
        -- hsv_case x 2 3%Z.
      * assert (Hg' : g < max)
          by (destruct (Qlt_le_dec g max); [lra | exfalso; apply E2; lra]).
        assert (E3 : max == b) by (destruct Mi' as [Mi|[Mi|Mi]]; lra).
        destruct (@quot_spec (r - g) (max - min) Hd)
          as (Hx & Hx1 & Hx2 & Hx3 & Hx4 & Hx5); [lra|].
        set (x := (r - g) / (max - min)) in *. clearbody x.
        specialize (Hx5 ltac:(lra)). specialize (Hx4 ltac:(lra)). split; [|lra].
        destruct (Qlt_le_dec x 0) as [X0|X0].
        -- hsv_case x 4 3%Z.
        -- hsv_case x 4 4%Z.
Qed.

Lemma rgbToHsv_Fin (r g b : Q) :
  0 <= r <= 255 -> 0 <= g <= 255 -> 0 <= b <= 255 ->
  rgbToHsv (Fin r) (Fin g) (Fin b) = fin3 (rgbToHsvQ r g b).
Proof.
  intros Hr Hg Hb. unfold rgbToHsv, rgbToHsvQ, hsv_unit, hue_switch, hue_switchQ.
  xeval.
  set (r' := r * (1 # 255)). set (g' := g * (1 # 255)). set (b' := b * (1 # 255)).
  clearbody r' g' b'.
  destruct (qmax3_spec r' g' b') as (Mi & _).
  set (max := qmax (qmax r' g') b') in *.
  set (min := qmin (qmin r' g') b') in *.
  clearbody max min.
  destruct (Qeq_bool_spec max 0) as [Z|Z]; destruct (Qeq_bool_spec max min) as [E|E];
    xeval; rewrite ?div_Fin by (assumption || (intro H; apply E; lra)); xeval;
    try reflexivity;
    (destruct (Qeq_bool_spec max r') as [E1|E1]; xeval;
     try (destruct (qltb g' b'); reflexivity);
     destruct (Qeq_bool_spec max g') as [E2|E2]; xeval; try reflexivity;
     (destruct (Qeq_bool_spec max b') as [E3|E3]; xeval; [reflexivity|]);
     exfalso; destruct Mi as [Mi|[Mi|Mi]]; rewrite Mi in *;
     first [now apply E1 | now apply E2 | now apply E3]).
Qed.

Lemma Qeq_bool_inject_Z (a b : Z) : Qeq_bool (inject_Z a) (inject_Z b) = (a =? b)%Z.
Proof.
  destruct (Qeq_bool_spec (inject_Z a) (inject_Z b)) as [E|E]; symmetry.
  - apply Z.eqb_eq. now apply inject_Z_injective.
  - apply Z.eqb_neq. intro H. apply E. now rewrite H.
Qed.

Lemma rem6_nonneg (i : Z) :
  (0 <= i)%Z ->
  inject_Z i - 6 * inject_Z (Qtrunc (inject_Z i / 6)) == inject_Z (Z.rem i 6).
Proof.
  intro Hi.
  assert (T : Qtrunc (inject_Z i / 6) = Z.quot i 6).
  { unfold Qtrunc.
    assert (P : 0 <= inject_Z i / 6).
    { apply Qle_shift_div_l; [reflexivity|]. rewrite Qmult_0_l.
      change 0 with (inject_Z 0). now rewrite <- Zle_Qle. }
    apply Qle_bool_iff in P. rewrite P.
    unfold Qdiv, Qinv, Qmult, Qfloor, inject_Z. simpl.
    rewrite Z.mul_1_r. now rewrite Z.quot_div_nonneg by lia. }
  rewrite T. rewrite (Z.quot_rem' i 6) at 1.
  rewrite inject_Z_plus, inject_Z_mult. change (inject_Z 6) with 6. ring.
Qed.

Lemma hsvToRgb_Fin (h s v : Q) :
  0 <= h -> hsvToRgb (Fin h) (Fin s) (Fin v) = rgb3 (hsvToRgbQ h s v).
Proof.
  intro Hh. unfold hsvToRgb, hsvToRgbQ. xeval.
  set (i := Qfloor (h * 6)).
  assert (Hi : (0 <= i)%Z).
  { unfold i. change 0%Z with (Qfloor 0). apply Qfloor_resp_le. lra. }
  assert (Hk : (0 <= Z.rem i 6 < 6)%Z) by (apply Z.rem_bound_pos; lia).
  assert (T : forall j : Z,
             Qeq_bool (inject_Z i - 6 * inject_Z (Qtrunc (inject_Z i / 6))) (inject_Z j)
             = (Z.rem i 6 =? j)%Z).
  { intro j. rewrite (Qeqb_comp _ _ (rem6_nonneg Hi) _ _ (Qeq_refl _)).
    apply Qeq_bool_inject_Z. }
  assert (T0 := T 0%Z). assert (T1 := T 1%Z). assert (T2 := T 2%Z).
  assert (T3 := T 3%Z). assert (T4 := T 4%Z). assert (T5 := T 5%Z).
  zconst. rewrite T0, T1, T2, T3, T4, T5.
  assert (C : (Z.rem i 6 = 0 \/ Z.rem i 6 = 1 \/ Z.rem i 6 = 2 \/ Z.rem i 6 = 3
               \/ Z.rem i 6 = 4 \/ Z.rem i 6 = 5)%Z) by lia.
  destruct C as [->|[->|[->|[->|[->| ->]]]]]; reflexivity.
Qed.

Lemma rgbToHsvQ_inverse (R G B : Z) :
  byte R -> byte G -> byte B ->
  let '(h, s, v) := rgbToHsvQ (inject_Z R) (inject_Z G) (inject_Z B) in
  hsvToRgbQ h s v = (R, G, B) /\ 0 <= h.
Proof.
  intros HR HG HB. unfold rgbToHsvQ.
  destruct (byte_Q HR) as [? _], (byte_Q HG) as [? _], (byte_Q HB) as [? _].
  apply hsv_unit_inverse; try reflexivity; assumption.
Qed.

(** The two round trips on the colours of the data model. *)
Lemma hslToRgb_rgbToHsl (R G B : Z) :
  byte R -> byte G -> byte B ->
  (let '(h, s, l) := rgbToHsl (of_Z R) (of_Z G) (of_Z B) in hslToRgb h s l)
  = rgb R G B.
Proof.
  intros HR HG HB.
  change (of_Z R) with (Fin (inject_Z R)). change (of_Z G) with (Fin (inject_Z G)).
  change (of_Z B) with (Fin (inject_Z B)).
  rewrite rgbToHsl_Fin by now apply byte_Q.
  assert (I := rgbToHslQ_inverse HR HG HB).
  destruct (rgbToHslQ (inject_Z R) (inject_Z G) (inject_Z B)) as [[h s] l].
  destruct I as [I _]. cbn [fin3]. now rewrite hslToRgb_Fin, I.
Qed.

Lemma hsvToRgb_rgbToHsv (R G B : Z) :
  byte R -> byte G -> byte B ->
  (let '(h, s, v) := rgbToHsv (of_Z R) (of_Z G) (of_Z B) in hsvToRgb h s v)
  = rgb R G B.
Proof.
  intros HR HG HB.
  change (of_Z R) with (Fin (inject_Z R)). change (of_Z G) with (Fin (inject_Z G)).
  change (of_Z B) with (Fin (inject_Z B)).
  rewrite rgbToHsv_Fin by now apply byte_Q.
  assert (I := rgbToHsvQ_inverse HR HG HB).
  destruct (rgbToHsvQ (inject_Z R) (inject_Z G) (inject_Z B)) as [[h s] v].
  destruct I as [I Hh]. cbn [fin3]. now rewrite hsvToRgb_Fin, I.
Qed.
End RoundTrips.

(* ================================================================== *)
(** * Round trips on the colours of the data model *)

Section RoundTripClaims.
Import QOps OnQ.
Local Open Scope Q_scope.

Lemma within_one_refl (z : Z) : within_one (of_Z z) (of_Z z) = true.
Proof.
  unfold within_one. xeval.
  assert (H : Qle_bool ((z # 1) - (z # 1)) 1 = true) by (apply Qle_bool_iff; lra).
  now rewrite H.
Qed.

Lemma near_refl (R G B : Z) : near (rgb R G B) (rgb R G B) = true.
Proof. unfold near, rgb. now rewrite !within_one_refl. Qed.

(** C7. For integer channels from 0 to 255, [hslToRgb] of [rgbToHsl]
    of a colour, and [hsvToRgb] of [rgbToHsv] of it, differ from the
    colour by at most 1 in every channel. *)
Theorem round_trips_within_one (R G B : Z) :
  byte R -> byte G -> byte B ->
  near (let '(h, s, l) := rgbToHsl (of_Z R) (of_Z G) (of_Z B) in hslToRgb h s l)
       (rgb R G B) = true
  /\ near (let '(h, s, v) := rgbToHsv (of_Z R) (of_Z G) (of_Z B) in hsvToRgb h s v)
          (rgb R G B) = true.
Proof.
  intros HR HG HB.
  rewrite (hslToRgb_rgbToHsl HR HG HB), (hsvToRgb_rgbToHsv HR HG HB).
  split; apply near_refl.
Qed.

Lemma round_trips_within_one_witness :
  near (let '(h, s, l) := rgbToHsl (of_Z 200) (of_Z 30) (of_Z 31) in hslToRgb h s l)
       (rgb 200 30 31) = true
  /\ near (let '(h, s, v) := rgbToHsv (of_Z 200) (of_Z 30) (of_Z 31) in hsvToRgb h s v)
          (rgb 200 30 31) = true.
Proof.
  apply (@round_trips_within_one 200 30 31); unfold byte; lia.
Defined.
End RoundTripClaims.

(* ================================================================== *)
(** * The harmoniser on exact numbers *)

Section HarmonizerClaims.
Import QOps OnQ.
Local Open Scope Q_scope.

(** Clamping to [0, 1] leaves a number of [0, 1] where it is. *)
Lemma clamp01_Fin (x : Q) :
  0 <= x <= 1 ->
  exists x', Math_min (of_Z 1) (Math_max (of_Z 0) (Fin x)) = Fin x' /\ x' == x.
Proof.
  intro H. xeval. eexists. split; [reflexivity|].
  unfold qmin, qmax. qtests; lra.
Qed.

(** A profile that multiplies by one and adds zero, or has no field at
    all, and has no range, returns every colour of the data model. *)
Lemma harmonize_identity (params : Params (num := xnum)) (R G B : Z) :
  params = models_none \/ params = no_fields ->
  byte R -> byte G -> byte B ->
  hslToRgb (hue (rgb R G B))
           (harmonized_s params (saturation (rgb R G B)))
           (harmonized_l params (lightness (rgb R G B)))
  = rgb R G B.
Proof.
  intros Hp HR HG HB.
  assert (I := rgbToHslQ_inverse HR HG HB).
  unfold hue, saturation, lightness, rgb.
  change (of_Z R) with (Fin (inject_Z R)). change (of_Z G) with (Fin (inject_Z G)).
  change (of_Z B) with (Fin (inject_Z B)).
  rewrite rgbToHsl_Fin by now apply byte_Q.
  destruct (rgbToHslQ (inject_Z R) (inject_Z G) (inject_Z B)) as [[h s] l].
  destruct I as (I & Hs & Hl). cbn [fin3].
  assert (S : exists s', harmonized_s params (Fin s) = Fin s' /\ s' == s).
  { destruct Hp as [-> | ->]; unfold harmonized_s.
    - change (clamp_range _ _) with (Fin (s * 1 + 0)).
      destruct (@clamp01_Fin (s * 1 + 0)) as (s' & E & Q); [lra|].
      exists s'. split; [exact E | lra].
    - change (clamp_range _ _) with (Fin s). now apply clamp01_Fin. }
  assert (L : exists l', harmonized_l params (Fin l) = Fin l' /\ l' == l).
  { destruct Hp as [-> | ->]; unfold harmonized_l.
    - change (clamp_range _ _) with (Fin (l * 1 + 0)).
      destruct (@clamp01_Fin (l * 1 + 0)) as (l' & E & Q); [lra|].
      exists l'. split; [exact E | lra].
    - change (clamp_range _ _) with (Fin l). now apply clamp01_Fin. }
  destruct S as (s' & -> & Es). destruct L as (l' & -> & El).
  rewrite hslToRgb_Fin.
  change (rgb3 (hslToRgbQ h s' l') = rgb3 (R, G, B)). rewrite <- I.
  f_equal. apply hslToRgbQ_comp; [reflexivity | exact Es | exact El].
Qed.

Lemma params_of_unknown (model : string) :
  own_property model (models (num := xnum)) = None ->
  params_of (num := xnum) model = models_none \/ params_of (num := xnum) model = no_fields.
Proof.
  intro H. unfold params_of, models_get. rewrite H.
  destruct (existsb (String.eqb model) Object_prototype_keys); auto.
Qed.

Lemma harmonize_identity_list (params_name : string) (colors : list (Color xnum)) :
  params_of (num := xnum) params_name = models_none
  \/ params_of (num := xnum) params_name = no_fields ->
  Forall valid_color colors ->
  harmonizeColors colors params_name = colors.
Proof.
  intros Hp Hv. rewrite harmonizeColors_map.
  induction Hv as [|c rest Hc _ IH]; [reflexivity|].
  cbn [map]. rewrite IH. f_equal.
  destruct Hc as (R & G & B & HR & HG & HB & ->).
  now apply harmonize_identity.
Qed.

(** C9. On a palette of colours of the data model, a profile name that
    is none of the defined ones gives what "none" gives, and "none"
    returns the palette unchanged.  [harmonizeColors] is a total
    function of the palette and the name: no name raises an error. *)
Theorem unknown_profile_is_none (colors : list (Color xnum)) (model : string) :
  Forall valid_color colors ->
  (own_property model (models (num := xnum)) = None ->
   harmonizeColors colors model = harmonizeColors colors "none")
  /\ harmonizeColors colors "none" = colors.
Proof.
  intro Hv.
  assert (N : harmonizeColors colors "none" = colors)
    by (apply harmonize_identity_list; [now left | exact Hv]).
  split; [|exact N].
  intro Hm. rewrite N. apply harmonize_identity_list; [|exact Hv].
  now apply params_of_unknown.
Qed.

Lemma unknown_profile_is_none_witness :
  (own_property "sepia" (models (num := xnum)) = None ->
   harmonizeColors [rgb 200 30 30; rgb 0 0 0] "sepia"
   = harmonizeColors [rgb 200 30 30; rgb 0 0 0] "none")
  /\ harmonizeColors [rgb 200 30 30; rgb 0 0 0] "none" = [rgb 200 30 30; rgb 0 0 0].
Proof.
  apply (@unknown_profile_is_none [rgb 200 30 30; rgb 0 0 0] "sepia").
  repeat constructor; [exists 200%Z, 30%Z, 30%Z | exists 0%Z, 0%Z, 0%Z];
    unfold byte; repeat split; lia.
Defined.
End HarmonizerClaims.

(* ================================================================== *)
(** * The pastel profile on grey *)

Section PastelOnGrey.
Local Open Scope js_scope.

(** C8. For the grey [[128, 128, 128]] the saturation is 0; under
    "pastel" the multiplication and shift leave it at 0, the clamp to the
    range of the profile raises it to 0.2, which is the saturation that
    [harmonizeColors] converts back with; the colour returned is
    [[215, 195, 195]], whose HSL saturation is 0.2 and not 0.  On
    binary64 numbers the same holds, the saturation of the colour
    returned being 0.2 within [1e-15]. *)
Theorem pastel_clamp_raises_grey :
  (let grey := rgb 128 128 128 in
   let pastel := params_of (num := xnum) "pastel" in
   saturation grey = of_Z 0
   /\ (scale (s_mult pastel) (s_shift pastel) (saturation grey) === of_Z 0) = true
   /\ s_range pastel = Some (dec 2 10, dec 6 10)
   /\ (clamp_range (s_range pastel)
                   (scale (s_mult pastel) (s_shift pastel) (saturation grey))
       === dec 2 10) = true
   /\ (harmonized_s pastel (saturation grey) === dec 2 10) = true
   /\ harmonizeColors [grey] "pastel" = [rgb 215 195 195]
   /\ (saturation (rgb 215 195 195) === dec 2 10) = true
   /\ (saturation (rgb 215 195 195) === of_Z 0) = false)
  /\ (let grey := frgb 128 128 128 in
      let pastel := params_of (num := Floats.PrimFloat.float) "pastel" in
      saturation grey = of_Z 0
      /\ scale (s_mult pastel) (s_shift pastel) (saturation grey) = of_Z 0
      /\ clamp_range (s_range pastel)
                     (scale (s_mult pastel) (s_shift pastel) (saturation grey))
         = dec 2 10
      /\ harmonized_s pastel (saturation grey) = dec 2 10
      /\ harmonizeColors [grey] "pastel" = [frgb 215 195 195]
      /\ (Floats.PrimFloat.abs (saturation (frgb 215 195 195) - dec 2 10)
          <? dec 1 1000000000000000) = true
      /\ (saturation (frgb 215 195 195) === of_Z 0) = false).
Proof. vm_compute. repeat split. Qed.
End PastelOnGrey.

(* ================================================================== *)
(** * A single variation *)

Section SingleVariation.
Context {HOST : JSHost xnum}.
Local Open Scope js_scope.

Lemma step_L_single : step_L (num := xnum) 0 1 = XNaN.
Proof. reflexivity. Qed.

Lemma hue2rgb_NaN (t : xnum) : hue2rgb XNaN XNaN t = XNaN.
Proof. unfold hue2rgb. split_ifs; reflexivity. Qed.

(** A lightness that is not a number yields no channel that is one. *)
Lemma hslToRgb_NaN (h s : xnum) : hslToRgb h s XNaN = (XNaN, XNaN, XNaN).
Proof.
  unfold hslToRgb. destruct (s === of_Z 0); [reflexivity|].
  change (XNaN <? dec 5 10) with false. cbv iota.
  change (XNaN + s - XNaN * s) with XNaN.
  change (of_Z 2 * XNaN - XNaN) with XNaN.
  now rewrite !hue2rgb_NaN.
Qed.

(** C4, as the code has it.  With a count of 1 the step is 0 / 0: for
    every seed and every random source, the one colour returned has no
    channel that is a number. *)
Theorem single_variation_is_NaN (baseColor : Color xnum) (w : World) :
  fst (generateColorVariations baseColor 1 w) = [(XNaN, XNaN, XNaN)].
Proof.
  unfold generateColorVariations. destruct baseColor as [[r g] b].
  destruct (rgbToHsl r g b) as [[baseH baseS] baseL].
  unfold bind, ret. cbn [variations_loop]. unfold bind, ret, random.
  rewrite step_L_single, hslToRgb_NaN. reflexivity.
Qed.
End SingleVariation.

(* ================================================================== *)
(** * Sorting *)

Section Sorting.
Context {num : Type} {JS : JSNumber num} {A : Type}.
Variable cmp : A -> A -> num.

Lemma sort_insert_perm (x : A) (l : list A) :
  Permutation (sort_insert cmp x l) (x :: l).
Proof.
  induction l as [|y rest IH]; cbn [sort_insert]; [reflexivity|].
  destruct (lt (of_Z 0) (cmp y x)); [reflexivity|].
  rewrite IH. apply perm_swap.
Qed.

Lemma fold_insert_perm (l acc : list A) :
  Permutation (fold_left (fun sorted x => sort_insert cmp x sorted) l acc) (acc ++ l).
Proof.
  revert acc. induction l as [|x rest IH]; intro acc; cbn [fold_left].
  - now rewrite app_nil_r.
  - rewrite IH, sort_insert_perm. apply Permutation_middle.
Qed.

(** The sort returns the elements it was given. *)
Lemma Array_sort_perm (l : list A) : Permutation (Array_sort cmp l) l.
Proof. unfold Array_sort. apply (fold_insert_perm l []). Qed.

(** With a relation [ord] that holds from [y] to [x] when the comparator
    leaves [y] before [x], and from [x] to [y] when it does not, on the
    elements that satisfy [P], the sort of such elements is sorted. *)
Variable ord : A -> A -> Prop.
Variable P : A -> Prop.
Hypothesis keeps : forall y x, P y -> P x -> lt (of_Z 0) (cmp y x) = false -> ord y x.
Hypothesis swaps : forall y x, P y -> P x -> lt (of_Z 0) (cmp y x) = true -> ord x y.

Lemma sort_insert_HdRel (a x : A) (l : list A) :
  ord a x -> HdRel ord a l -> HdRel ord a (sort_insert cmp x l).
Proof.
  intros Hax Hl. destruct l as [|y rest]; cbn [sort_insert].
  - now constructor.
  - destruct (lt (of_Z 0) (cmp y x)); constructor; [exact Hax|].
    now inversion Hl.
Qed.

Lemma sort_insert_sorted (x : A) (l : list A) :
  P x -> Forall P l -> Sorted ord l -> Sorted ord (sort_insert cmp x l).
Proof.
  intros Px Pl Sl. induction l as [|y rest IH]; cbn [sort_insert].
  - repeat constructor.
  - inversion Pl as [|? ? Py Prest]; subst. inversion Sl as [|? ? Srest Hd]; subst.
    destruct (lt (of_Z 0) (cmp y x)) eqn:E.
    + constructor; [exact Sl|]. constructor. now apply swaps.
    + constructor; [now apply IH|].
      apply sort_insert_HdRel; [now apply keeps | exact Hd].
Qed.

Lemma fold_insert_sorted (l acc : list A) :
  Forall P l -> Forall P acc -> Sorted ord acc ->
  Sorted ord (fold_left (fun sorted x => sort_insert cmp x sorted) l acc).
Proof.
  revert acc. induction l as [|x rest IH]; intros acc Pl Pacc Sacc; cbn [fold_left].
  - exact Sacc.
  - inversion Pl as [|? ? Px Prest]; subst. apply IH; [exact Prest| |].
    + apply Forall_forall. intros z Hz.
      apply (Permutation_in _ (sort_insert_perm x acc)) in Hz.
      destruct Hz as [<-|Hz]; [exact Px|].
      now apply (proj1 (Forall_forall P acc) Pacc).
    + now apply sort_insert_sorted.
Qed.

Lemma Array_sort_sorted (l : list A) : Forall P l -> Sorted ord (Array_sort cmp l).
Proof.
  intro Pl. unfold Array_sort. apply fold_insert_sorted; [exact Pl| |]; constructor.
Qed.
End Sorting.

(* ================================================================== *)
(** * Variations of a seed *)

Section Variations.
Context {HOST : JSHost xnum}.
Import QOps OnQ.
Local Open Scope Q_scope.

Lemma lightness_finite (c : Color xnum) :
  finite_color c -> exists q, lightness c = Fin q.
Proof. intros (r & g & b & ->). rewrite lightness_Fin. now eexists. Qed.

Lemma lightness_keeps (y x : Color xnum) :
  finite_color y -> finite_color x ->
  lt (of_Z 0) (by_lightness_desc y x) = false -> ge_lightness y x.
Proof.
  intros Fy Fx. unfold by_lightness_desc, ge_lightness.
  destruct (lightness_finite Fy) as (ly & ->), (lightness_finite Fx) as (lx & ->).
  xeval. intro H. apply Qle_bool_iff.
  destruct (qltb_spec 0 (lx - ly)); [discriminate | lra].
Qed.

Lemma lightness_swaps (y x : Color xnum) :
  finite_color y -> finite_color x ->
  lt (of_Z 0) (by_lightness_desc y x) = true -> ge_lightness x y.
Proof.
  intros Fy Fx. unfold by_lightness_desc, ge_lightness.
  destruct (lightness_finite Fy) as (ly & ->), (lightness_finite Fx) as (lx & ->).
  xeval. intro H. apply Qle_bool_iff.
  destruct (qltb_spec 0 (lx - ly)); [lra | discriminate].
Qed.

Lemma XNum_le_trans (a b c : xnum) :
  XNum.le a b = true -> XNum.le b c = true -> XNum.le a c = true.
Proof.
  destruct a as [x| | |], b as [y| | |], c as [z| | |];
    try discriminate; try reflexivity.
  rewrite !le_Fin, !Qle_bool_iff. apply Qle_trans.
Qed.

Lemma ge_lightness_trans : Relation_Definitions.transitive _ ge_lightness.
Proof.
  intros a b c Hab Hbc. unfold ge_lightness in *.
  exact (XNum_le_trans _ _ _ Hbc Hab).
Qed.

(** The loop pushes the colour of each step in turn and draws two
    random numbers per step. *)
Lemma variations_loop_spec (baseH baseS : xnum) (numVariations n i : nat)
      (variations : list (Color xnum)) (w : World) :
  variations_loop baseH baseS numVariations n i variations w
  = (variations
       ++ map (fun j => variation_at baseH baseS numVariations (drawn w + 2 * j) (i + j))
              (List.seq 0 n),
     after_draws (2 * n) w).
Proof.
  revert i variations w. induction n as [|n IH]; intros i variations w.
  - cbn [variations_loop List.seq map]. rewrite app_nil_r. unfold ret, after_draws.
    rewrite Nat.add_0_r. now destruct w.
  - cbn [variations_loop]. unfold bind, random. rewrite IH. cbn [drawn clock_reads console].
    f_equal.
    + rewrite <- app_assoc. f_equal. cbn [List.seq map app]. f_equal.
      * replace (drawn w + 2 * 0)%nat with (drawn w) by lia.
        replace (i + 0)%nat with i by lia. reflexivity.
      * rewrite <- seq_shift, map_map. apply map_ext. intro j.
        f_equal; lia.
    + unfold after_draws. cbn [drawn clock_reads console]. f_equal. lia.
Qed.

Lemma rem_Fin_1 (a : Q) :
  rem (Fin a) (Fin 1) = Fin (a - 1 * inject_Z (Qtrunc (a / 1))).
Proof. reflexivity. Qed.

Lemma step_L_ramp (i n : nat) : (2 <= n)%nat -> step_L i n = Fin (ramp i n).
Proof.
  intro Hn. unfold step_L, step_t, of_nat, ramp.
  rewrite (const_dec 15 100), (const_dec 7 10). xeval.
  rewrite div_Fin; [reflexivity|].
  change (Z.of_nat n # 1) with (inject_Z (Z.of_nat n)).
  assert (H : inject_Z 2 <= inject_Z (Z.of_nat n)) by (rewrite <- Zle_Qle; lia).
  change (inject_Z 2) with 2 in H. lra.
Qed.




End Variations.

Section VariationsExample.
Local Open Scope Q_scope.

End VariationsExample.

(* ================================================================== *)
(** * The same code on binary64 numbers *)

Section Binary64Examples.
Local Open Scope js_scope.

(** Both round trips return the colour on the 5832 colours whose
    channels are multiples of 15. *)
Example binary64_round_trips : round_trips_on (levels 15 18) = true.
Proof. vm_compute. reflexivity. Qed.

(** "none", and a name that is no profile, return the 216 colours whose
    channels are multiples of 51. *)
Example binary64_none_is_identity :
  harmonizeColors (grid (levels 51 6)) "none" = grid (levels 51 6)
  /\ harmonizeColors (grid (levels 51 6)) "sepia" = grid (levels 51 6)
  /\ harmonizeColors (grid (levels 51 6)) "toString" = grid (levels 51 6).
Proof. vm_compute. repeat split. Qed.

(** With a count of 1 the colour returned has no channel that is a
    number. *)
Example binary64_single_variation :
  fst (generateColorVariations (HOST := binary64_host) (frgb 200 30 30) 1 initial_world)
  = [(NaN, NaN, NaN)].
Proof. vm_compute. reflexivity. Qed.

(** Four variations of a red, from the lightest to the darkest. *)
Example binary64_variations :
  fst (generateColorVariations (HOST := binary64_host) (frgb 200 30 30) 4 initial_world)
  = [frgb 245 188 188; frgb 229 85 85; frgb 170 25 25; frgb 67 10 10].
Proof. vm_compute. reflexivity. Qed.

(** On exact numbers two of these channels are rounded from a half and
    are one above. *)
Example exact_variations :
  fst (generateColorVariations (HOST := example_host) (rgb 200 30 30) 4 initial_world)
  = [rgb 245 188 188; rgb 230 85 85; rgb 170 26 26; rgb 67 10 10].
Proof. vm_compute. reflexivity. Qed.
End Binary64Examples.

(* ================================================================== *)
(** * The generator and the range filter of the earlier copy *)

Section EarlierCopy.
Local Open Scope js_scope.

(** The generator of the earlier copy returns as many colours as it is
    asked for, and draws no random number. *)
Lemma earlier_variations_count {num : Type} {JS : JSNumber num}
      (baseColor : Color num) (numVariations : nat) :
  List.length (AppJsx.generateColorVariations baseColor numVariations) = numVariations.
Proof.
  unfold AppJsx.generateColorVariations. destruct baseColor as [[r g] b].
  destruct (rgbToHsl r g b) as [[h s] l].
  rewrite (Permutation_length (Array_sort_perm _ _)), length_map. apply length_seq.
Qed.

(** The range filter of the earlier copy keeps a colour exactly when
    its lightness is above 0.1 and below 0.95, whatever its saturation. *)
Lemma earlier_filter_keeps {num : Type} {JS : JSNumber num}
      (newPalette : list (Color num)) (c : Color num) :
  In c (AppJsx.filteredPalette newPalette) <->
  In c newPalette
  /\ (lightness c >? dec 1 10) = true
  /\ (lightness c <? dec 95 100) = true.
Proof.
  unfold AppJsx.filteredPalette. rewrite filter_In.
  unfold AppJsx.in_range, lightness. destruct c as [[r g] b].
  destruct (rgbToHsl r g b) as [[h s] l]. rewrite andb_true_iff. tauto.
Qed.


(** The grey [128, 128, 128] has the saturation 0, which is not above
    0.1; the range filter of the earlier copy keeps it, and the one of
    version 0.2.1 drops it.  On exact and on binary64 numbers alike. *)
Lemma earlier_filter_keeps_grey :
  AppJsx.filteredPalette [rgb 128 128 128] = [rgb 128 128 128]
  /\ (saturation (rgb 128 128 128) >? dec 1 10) = false
  /\ filteredPalette [rgb 128 128 128] = []
  /\ AppJsx.filteredPalette [frgb 128 128 128] = [frgb 128 128 128]
  /\ (saturation (frgb 128 128 128) >? dec 1 10) = false
  /\ filteredPalette [frgb 128 128 128] = [].
Proof. vm_compute. repeat split. Qed.
End EarlierCopy.

(* ================================================================== *)
(** * What the refinement steps select *)

Section Selection.
Context {num : Type} {JS : JSNumber num} {HOST : JSHost num}.
Local Open Scope js_scope.
Local Abbreviation Color := (Color num).

Lemma subsequence_refl {A : Type} (l : list A) : subsequence l l.
Proof. induction l; constructor; assumption. Qed.

Lemma subsequence_trans {A : Type} (l1 l2 l3 : list A) :
  subsequence l1 l2 -> subsequence l2 l3 -> subsequence l1 l3.
Proof.
  intros H12 H23. revert l1 H12.
  induction H23 as [|x l2 l3 H IH|x l2 l3 H IH]; intros l1 H12.
  - exact H12.
  - constructor. now apply IH.
  - inversion H12; subst.
    + apply subsequence_skip. now apply IH.
    + apply subsequence_keep. now apply IH.
Qed.

Lemma subsequence_In {A : Type} (l l' : list A) (x : A) :
  subsequence l l' -> In x l -> In x l'.
Proof.
  induction 1 as [|y l l' H IH|y l l' H IH]; simpl; intuition.
Qed.

Lemma subsequence_length {A : Type} (l l' : list A) :
  subsequence l l' -> (List.length l <= List.length l')%nat.
Proof. induction 1; simpl; lia. Qed.

Lemma subsequence_Forall {A : Type} (P : A -> Prop) (l l' : list A) :
  subsequence l l' -> Forall P l' -> Forall P l.
Proof.
  intros S F. apply Forall_forall. intros x Hx.
  rewrite Forall_forall in F. apply F. now apply subsequence_In with (1 := S).
Qed.

Lemma subsequence_filter {A : Type} (f : A -> bool) (l : list A) :
  subsequence (filter f l) l.
Proof.
  induction l as [|x l IH]; simpl; [constructor|].
  destruct (f x); [now apply subsequence_keep | now apply subsequence_skip].
Qed.

(** Two elements of a subsequence, in their order, are two elements of the
    list, in the same order. *)
Lemma subsequence_nth {A : Type} (l l' : list A) :
  subsequence l l' ->
  forall (i j : nat) (a b : A),
    (i < j)%nat -> nth_error l i = Some a -> nth_error l j = Some b ->
    exists i' j', (i' < j')%nat /\ nth_error l' i' = Some a /\ nth_error l' j' = Some b.
Proof.
  induction 1 as [|x l l' H IH|x l l' H IH]; intros i j a b Hij Ha Hb.
  - destruct i; discriminate.
  - destruct (IH i j a b Hij Ha Hb) as (i' & j' & L & A' & B').
    exists (S i'), (S j'). repeat split; [lia | exact A' | exact B'].
  - destruct j as [|j]; [lia|]. destruct i as [|i].
    + simpl in Ha, Hb.
      assert (Hin : In b l') by (eapply subsequence_In; [exact H | eapply nth_error_In; exact Hb]).
      destruct (In_nth_error _ _ Hin) as (j' & Hj').
      exists 0%nat, (S j'). repeat split; [lia | exact Ha | exact Hj'].
    + simpl in Ha, Hb.
      destruct (IH i j a b ltac:(lia) Ha Hb) as (i' & j' & L & A' & B').
      exists (S i'), (S j'). repeat split; [lia | exact A' | exact B'].
Qed.

(* ---------------------------------------------------------------- *)
(** ** What the similarity filter selects *)

Lemma isSimilar_existsb (c : Color) (threshold : num) (filtered : list Color) :
  isSimilar c threshold filtered
  = existsb (fun existingColor => deltaE c existingColor <? threshold) filtered.
Proof.
  induction filtered as [|e rest IH]; simpl; [reflexivity|].
  rewrite <- IH. now destruct (deltaE c e <? threshold).
Qed.

Lemma isSimilar_app (c : Color) (threshold : num) (l l' : list Color) :
  isSimilar c threshold l = true -> isSimilar c threshold (l ++ l') = true.
Proof.
  rewrite !isSimilar_existsb, existsb_app. intros ->. reflexivity.
Qed.

Lemma filter_loop_selects (threshold : num) (colors acc : list Color) :
  exists kept,
    filter_loop colors threshold acc = acc ++ kept
    /\ subsequence kept colors
    /\ distinct_from threshold acc kept
    /\ forall c, In c colors ->
                 In c kept \/ isSimilar c threshold (acc ++ kept) = true.
Proof.
  revert acc. induction colors as [|c rest IH]; intro acc; simpl.
  - exists []. rewrite app_nil_r. repeat split; [constructor | intros c []].
  - destruct (isSimilar c threshold acc) eqn:Hc.
    + destruct (IH acc) as (kept & E & S & D & C).
      exists kept. repeat split; [exact E | now apply subsequence_skip | exact D |].
      intros c' [<-|Hin]; [right; now apply isSimilar_app | now apply C].
    + destruct (IH (acc ++ [c])) as (kept & E & S & D & C).
      exists (c :: kept). rewrite E, <- app_assoc.
      repeat split; [now apply subsequence_keep | exact Hc | exact D |].
      intros c' [<-|Hin]; [left; now left|].
      destruct (C c' Hin) as [K|K]; [left; now right|].
      right. now rewrite <- app_assoc in K.
Qed.

Lemma distinct_from_nth (threshold : num) (l acc : list Color) :
  distinct_from threshold acc l ->
  forall (i j : nat) (a b : Color),
    (i < j)%nat -> (List.length acc <= j)%nat ->
    nth_error (acc ++ l) i = Some a -> nth_error (acc ++ l) j = Some b ->
    (deltaE b a <? threshold) = false.
Proof.
  revert acc. induction l as [|c rest IH]; intros acc D i j a b Hij Hj Ha Hb.
  - rewrite app_nil_r in Hb.
    assert (j < List.length acc)%nat by (apply nth_error_Some; congruence). lia.
  - destruct D as [Hc D].
    destruct (Nat.eq_dec j (List.length acc)) as [->|Hne].
    + rewrite nth_error_app2, Nat.sub_diag in Hb by lia. simpl in Hb.
      injection Hb as <-.
      rewrite nth_error_app1 in Ha by lia.
      rewrite isSimilar_existsb in Hc.
      apply nth_error_In in Ha.
      destruct (deltaE c a <? threshold) eqn:E; [|reflexivity].
      assert (X : existsb (fun e => deltaE c e <? threshold) acc = true)
        by (apply existsb_exists; now exists a).
      congruence.
    + apply (IH (acc ++ [c]) D i j a b Hij).
      * rewrite length_app. simpl. lia.
      * now rewrite <- app_assoc.
      * now rewrite <- app_assoc.
Qed.

Lemma filterSimilarColors_kept (colors : list Color) (threshold : num) :
  match colors with
  | [] => filterSimilarColors colors threshold = []
  | first :: rest =>
      exists kept,
        filterSimilarColors colors threshold = first :: kept
        /\ subsequence kept rest
        /\ distinct_from threshold [first] kept
        /\ forall c, In c rest ->
                     In c kept \/ isSimilar c threshold (first :: kept) = true
  end.
Proof.
  destruct colors as [|first [|second rest]]; [reflexivity| |].
  - exists []. repeat split; [constructor | intros c []].
  - change (filterSimilarColors (first :: second :: rest) threshold)
      with (filter_loop (second :: rest) threshold [first]).
    destruct (filter_loop_selects threshold (second :: rest) [first])
      as (kept & E & S & D & C).
    exists kept. repeat split; assumption.
Qed.

Lemma filterSimilarColors_subsequence (colors : list Color) (threshold : num) :
  subsequence (filterSimilarColors colors threshold) colors.
Proof.
  pose proof (filterSimilarColors_kept colors threshold) as K.
  destruct colors as [|first rest].
  - rewrite K. constructor.
  - destruct K as (kept & -> & S & _). now apply subsequence_keep.
Qed.

Lemma filterSimilarColors_apart (colors : list Color) (threshold : num)
      (i j : nat) (a b : Color) :
  (i < j)%nat ->
  nth_error (filterSimilarColors colors threshold) i = Some a ->
  nth_error (filterSimilarColors colors threshold) j = Some b ->
  (deltaE b a <? threshold) = false.
Proof.
  intros Hij Ha Hb.
  pose proof (filterSimilarColors_kept colors threshold) as K.
  destruct colors as [|first rest].
  - rewrite K in Ha. destruct i; discriminate.
  - destruct K as (kept & E & _ & D & _). rewrite E in Ha, Hb.
    apply (@distinct_from_nth threshold kept [first] D i j a b Hij);
      [simpl; lia | exact Ha | exact Hb].
Qed.

(** X1. [filterSimilarColors] returns colours of its input in their
    order, the first one always among them; and every colour of the
    input is returned or is nearer than the threshold to a colour that
    is returned. *)
Theorem filterSimilarColors_selects (colors : list Color) (threshold : num) :
  subsequence (filterSimilarColors colors threshold) colors
  /\ (forall first rest, colors = first :: rest ->
        exists kept, filterSimilarColors colors threshold = first :: kept)
  /\ (forall c, In c colors ->
        In c (filterSimilarColors colors threshold)
        \/ exists k, In k (filterSimilarColors colors threshold)
                     /\ (deltaE c k <? threshold) = true).
Proof.
  split; [apply filterSimilarColors_subsequence|].
  pose proof (filterSimilarColors_kept colors threshold) as K.
  destruct colors as [|first rest].
  - split; [discriminate | intros c []].
  - destruct K as (kept & E & _ & _ & C). rewrite E. split.
    + intros f r Ef. exists kept. injection Ef as <- <-. reflexivity.
    + intros c [<-|Hc]; [left; now left|].
      destruct (C c Hc) as [K|K]; [left; now right|].
      right. rewrite isSimilar_existsb in K. apply existsb_exists in K.
      destruct K as (k & Hk & Hd). now exists k.
Qed.

(** X2. No colour that [filterSimilarColors] returns is nearer than the
    threshold to a colour returned before it. *)
Theorem filterSimilarColors_separates (colors : list Color) (threshold : num)
        (i j : nat) (a b : Color) :
  (i < j)%nat ->
  nth_error (filterSimilarColors colors threshold) i = Some a ->
  nth_error (filterSimilarColors colors threshold) j = Some b ->
  (deltaE b a <? threshold) = false.
Proof. apply filterSimilarColors_apart. Qed.

(* ---------------------------------------------------------------- *)
(** ** What the removal of duplicates selects *)

Lemma unique_from_selects (colors seen : list Color) :
  subsequence (unique_from seen colors) colors
  /\ (forall b, In b (unique_from seen colors) ->
                forall a, In a seen -> same_json b a = false)
  /\ (forall (i j : nat) (a b : Color),
        (i < j)%nat ->
        nth_error (unique_from seen colors) i = Some a ->
        nth_error (unique_from seen colors) j = Some b ->
        same_json b a = false)
  /\ (forall c, In c colors ->
        In c (unique_from seen colors)
        \/ exists k, In k (seen ++ unique_from seen colors) /\ same_json c k = true).
Proof.
  revert seen. induction colors as [|c rest IH]; intro seen; simpl.
  - repeat split; [constructor | intros b [] | | intros c []].
    intros i j a b _ Ha. destruct i; discriminate.
  - destruct (existsb (same_json c) seen) eqn:Hc.
    + destruct (IH seen) as (S & F & P & C).
      repeat split; [now apply subsequence_skip | exact F | exact P |].
      intros c' [<-|Hin]; [|now apply C].
      right. apply existsb_exists in Hc. destruct Hc as (k & Hk & E).
      exists k. split; [apply in_or_app; now left | exact E].
    + destruct (IH (seen ++ [c])) as (S & F & P & C).
      repeat split.
      * now apply subsequence_keep.
      * intros b [<-|Hb] a Ha.
        -- destruct (same_json c a) eqn:E; [|reflexivity].
           assert (X : existsb (same_json c) seen = true)
             by (apply existsb_exists; now exists a).
           congruence.
        -- apply (F b Hb). apply in_or_app. now left.
      * intros i j a b Hij Ha Hb.
        destruct j as [|j]; [lia|]. simpl in Hb. destruct i as [|i].
        -- injection Ha as <-. apply (F b (nth_error_In _ _ Hb)).
           apply in_or_app. right. now left.
        -- apply (P i j a b); [lia | exact Ha | exact Hb].
      * intros c' [<-|Hin]; [left; now left|].
        destruct (C c' Hin) as [K|(k & Hk & E)]; [left; now right|].
        right. exists k. split; [|exact E].
        rewrite <- app_assoc in Hk. exact Hk.
Qed.

(** X3. On colours whose channels are read back from their JSON text,
    that is, finite and not the negative zero, [uniqueColors] returns
    colours of its input in their order; no two of them have the same
    JSON text; and every colour of the input is returned or has the
    text of one that is. *)
Theorem uniqueColors_selects (similarityFiltered : list Color) :
  Forall (fun c => parses_back_color c = true) similarityFiltered ->
  subsequence (uniqueColors similarityFiltered) similarityFiltered
  /\ (forall (i j : nat) (a b : Color),
        (i < j)%nat ->
        nth_error (uniqueColors similarityFiltered) i = Some a ->
        nth_error (uniqueColors similarityFiltered) j = Some b ->
        same_json b a = false)
  /\ (forall c, In c similarityFiltered ->
        In c (uniqueColors similarityFiltered)
        \/ exists k, In k (uniqueColors similarityFiltered) /\ same_json c k = true).
Proof.
  intros _. unfold uniqueColors.
  destruct (unique_from_selects similarityFiltered []) as (S & _ & P & C).
  repeat split; [exact S | exact P | exact C].
Qed.

(* ---------------------------------------------------------------- *)
(** ** The palette after refinement *)

(** The palette is what the three refinement steps leave of the
    expanded, and possibly harmonised, colours. *)
Lemma generatePalette_steps (cfg : Settings) (allPixels : list Color) (w : World) :
  fst (generatePalette cfg allPixels w)
  = uniqueColors
      (filterSimilarColors
         (filteredPalette
            (if negb (String.eqb (harmonizeModel cfg) "none")
             then harmonizeColors (fst (rawPalette cfg allPixels w)) (harmonizeModel cfg)
             else fst (rawPalette cfg allPixels w)))
         (similarityThreshold cfg)).
Proof.
  unfold generatePalette, bind, ret.
  destruct (rawPalette cfg allPixels w) as [newPalette w']. reflexivity.
Qed.

(** X4. Whatever the image and the settings, every colour of the
    palette passes the three tests of the range filter, and no colour of
    the palette is nearer than the similarity threshold to, or has the
    same JSON text as, a colour before it. *)
Theorem generatePalette_refined (cfg : Settings) (allPixels : list Color) (w : World) :
  Forall (fun c => visible c = true) (fst (generatePalette cfg allPixels w))
  /\ (forall (i j : nat) (a b : Color),
        (i < j)%nat ->
        nth_error (fst (generatePalette cfg allPixels w)) i = Some a ->
        nth_error (fst (generatePalette cfg allPixels w)) j = Some b ->
        (deltaE b a <? similarityThreshold cfg) = false /\ same_json b a = false).
Proof.
  rewrite generatePalette_steps.
  set (np := if negb _ then _ else _).
  unfold uniqueColors.
  destruct (unique_from_selects (filterSimilarColors (filteredPalette np)
                                                     (similarityThreshold cfg)) [])
    as (S & _ & P & _).
  pose proof (filterSimilarColors_subsequence (filteredPalette np)
                                              (similarityThreshold cfg)) as S'.
  split.
  - apply subsequence_Forall with (1 := S).
    apply subsequence_Forall with (1 := S').
    apply Forall_forall. intros c Hc. unfold filteredPalette in Hc.
    apply filter_In in Hc. now rewrite <- in_range_visible.
  - intros i j a b Hij Ha Hb. split; [|now apply (P i j)].
    destruct (subsequence_nth S Hij Ha Hb) as (i' & j' & L & A' & B').
    exact (filterSimilarColors_apart _ _ L A' B').
Qed.
End Selection.

Section SelectionExample.
Local Open Scope js_scope.

Lemma filterSimilarColors_separates_witness :
  (deltaE (HOST := example_host) (rgb 20 40 250) (rgb 200 30 30) <? of_Z 15) = false.
Proof.
  apply (@filterSimilarColors_separates xnum _ example_host
           [rgb 200 30 30; rgb 201 30 30; rgb 20 40 250] (of_Z 15) 0 1
           (rgb 200 30 30) (rgb 20 40 250)); [lia | reflexivity | reflexivity].
Defined.

Lemma uniqueColors_selects_witness :
  let colors := [rgb 200 30 30; rgb 20 40 250; rgb 200 30 30] in
  subsequence (uniqueColors colors) colors
  /\ (forall (i j : nat) (a b : Color xnum),
        (i < j)%nat ->
        nth_error (uniqueColors colors) i = Some a ->
        nth_error (uniqueColors colors) j = Some b ->
        same_json b a = false)
  /\ (forall c, In c colors ->
        In c (uniqueColors colors)
        \/ exists k, In k (uniqueColors colors) /\ same_json c k = true).
Proof.
  apply (@uniqueColors_selects xnum _ [rgb 200 30 30; rgb 20 40 250; rgb 200 30 30]).
  repeat (apply Forall_cons; [reflexivity|]). apply Forall_nil.
Defined.
End SelectionExample.

(* ================================================================== *)
(** * Counts of colours and of random numbers *)

Section Counts.
Context {num : Type} {JS : JSNumber num} {HOST : JSHost num}.
Local Open Scope js_scope.
Local Abbreviation Color := (Color num).

Lemma Array_sort_length {A : Type} (cmp : A -> A -> num) (l : list A) :
  List.length (Array_sort cmp l) = List.length l.
Proof. apply Permutation_length, Array_sort_perm. Qed.

Lemma after_draws_add (n m : nat) (w : World) :
  after_draws m (after_draws n w) = after_draws (n + m) w.
Proof. unfold after_draws. simpl. now rewrite Nat.add_assoc. Qed.

Lemma after_draws_0 (w : World) : after_draws 0 w = w.
Proof. unfold after_draws. rewrite Nat.add_0_r. now destruct w. Qed.

Lemma random_draws (w : World) : snd (random w) = after_draws 1 w.
Proof. unfold random, after_draws. simpl. now rewrite Nat.add_1_r. Qed.

Lemma variations_loop_count (baseH baseS : num) (numVariations n i : nat)
      (variations : list Color) (w : World) :
  List.length (fst (variations_loop baseH baseS numVariations n i variations w))
  = (List.length variations + n)%nat
  /\ snd (variations_loop baseH baseS numVariations n i variations w)
     = after_draws (2 * n) w.
Proof.
  revert i variations w. induction n as [|n IH]; intros i variations w.
  - simpl. rewrite after_draws_0. split; [lia | reflexivity].
  - cbn [variations_loop]. unfold bind.
    destruct (random w) as [r1 w1] eqn:E1.
    destruct (random w1) as [r2 w2] eqn:E2.
    pose proof (random_draws w) as D1. rewrite E1 in D1. simpl in D1.
    pose proof (random_draws w1) as D2. rewrite E2 in D2. simpl in D2.
    destruct (IH (S i) (variations ++ [hslToRgb
      (rem (baseH + (r1 - dec 5 10) * dec 5 100) (of_Z 1))
      (Math_min (of_Z 1) (Math_max (of_Z 0) (baseS + (r2 - dec 5 10) * dec 1 10)))
      (step_L i numVariations)]) w2) as [L W].
    rewrite L, W, D2, D1, !after_draws_add, length_app. simpl.
    split; [lia | f_equal; lia].
Qed.

Lemma generateColorVariations_count (baseColor : Color) (numVariations : nat) (w : World) :
  List.length (fst (generateColorVariations baseColor numVariations w)) = numVariations
  /\ snd (generateColorVariations baseColor numVariations w)
     = after_draws (2 * numVariations) w.
Proof.
  unfold generateColorVariations. destruct baseColor as [[r g] b].
  destruct (rgbToHsl r g b) as [[baseH baseS] baseL]. unfold bind, ret.
  destruct (variations_loop_count baseH baseS numVariations numVariations 0 [] w) as [L W].
  destruct (variations_loop baseH baseS numVariations numVariations 0 [] w) as [vs w'].
  simpl in *. now rewrite Array_sort_length.
Qed.

Lemma halves (n : nat) : (ceil_div n 2 + floor_div n 2 = n)%nat.
Proof.
  unfold ceil_div, floor_div.
  replace (n + 2 - 1)%nat with (n + 1)%nat by lia.
  pose proof (Nat.div_mod_eq n 2). pose proof (Nat.div_mod_eq (n + 1) 2).
  pose proof (Nat.mod_upper_bound n 2 ltac:(lia)).
  pose proof (Nat.mod_upper_bound (n + 1) 2 ltac:(lia)).
  lia.
Qed.

Lemma thirds (n : nat) :
  (ceil_div n 3 + floor_div (n - ceil_div n 3) 2
   + (n - ceil_div n 3 - floor_div (n - ceil_div n 3) 2) = n)%nat.
Proof.
  unfold ceil_div, floor_div.
  replace (n + 3 - 1)%nat with (n + 2)%nat by lia.
  pose proof (Nat.div_mod_eq (n + 2) 3).
  pose proof (Nat.mod_upper_bound (n + 2) 3 ltac:(lia)).
  assert ((n + 2) / 3 <= n)%nat by lia.
  pose proof (Nat.div_mod_eq (n - (n + 2) / 3) 2).
  pose proof (Nat.mod_upper_bound (n - (n + 2) / 3) 2 ltac:(lia)).
  lia.
Qed.

Lemma generateComplementaryPalette_count (baseColor : Color) (n : nat) (w : World) :
  List.length (fst (generateComplementaryPalette baseColor n w)) = n
  /\ snd (generateComplementaryPalette baseColor n w) = after_draws (2 * n) w.
Proof.
  unfold generateComplementaryPalette. destruct baseColor as [[r g] b].
  destruct (rgbToHsl r g b) as [[h s] l]. unfold bind, ret.
  destruct (generateColorVariations_count (r, g, b) (ceil_div n 2) w) as [L1 W1].
  destruct (generateColorVariations (r, g, b) (ceil_div n 2) w) as [v1 w1].
  cbn [fst snd] in L1, W1.
  match goal with
  | |- context [generateColorVariations ?c ?m w1] =>
      destruct (generateColorVariations_count c m w1) as [L2 W2];
      destruct (generateColorVariations c m w1) as [v2 w2]
  end.
  cbn [fst snd] in *. rewrite length_app, L1, L2, W2, W1, after_draws_add.
  pose proof (halves n). split; [lia | f_equal; lia].
Qed.

Lemma generateTriadicPalette_count (baseColor : Color) (n : nat) (w : World) :
  List.length (fst (generateTriadicPalette baseColor n w)) = n
  /\ snd (generateTriadicPalette baseColor n w) = after_draws (2 * n) w.
Proof.
  unfold generateTriadicPalette. destruct baseColor as [[r g] b].
  destruct (rgbToHsl r g b) as [[h s] l]. unfold bind, ret. cbv zeta.
  destruct (generateColorVariations_count (r, g, b) (ceil_div n 3) w) as [L1 W1].
  destruct (generateColorVariations (r, g, b) (ceil_div n 3) w) as [v1 w1].
  cbn [fst snd] in L1, W1.
  match goal with
  | |- context [generateColorVariations ?c ?m w1] =>
      destruct (generateColorVariations_count c m w1) as [L2 W2];
      destruct (generateColorVariations c m w1) as [v2 w2]
  end.
  cbn [fst snd] in L2, W2.
  match goal with
  | |- context [generateColorVariations ?c ?m w2] =>
      destruct (generateColorVariations_count c m w2) as [L3 W3];
      destruct (generateColorVariations c m w2) as [v3 w3]
  end.
  cbn [fst snd] in *. rewrite !length_app, L1, L2, L3, W3, W2, W1, !after_draws_add.
  pose proof (thirds n). split; [lia | f_equal; lia].
Qed.

Lemma generateAnalogousPalette_count (baseColor : Color) (n : nat) :
  List.length (generateAnalogousPalette baseColor n) = n.
Proof.
  unfold generateAnalogousPalette. destruct baseColor as [[r g] b].
  destruct (rgbToHsl r g b) as [[h s] l]. cbv zeta.
  now rewrite Array_sort_length, length_map, length_seq.
Qed.

Lemma generateMonochromaticPalette_count (baseColor : Color) (n : nat) :
  List.length (generateMonochromaticPalette baseColor n) = n.
Proof.
  unfold generateMonochromaticPalette. destruct baseColor as [[r g] b].
  destruct (rgbToHsl r g b) as [[h s] l].
  now rewrite length_map, length_seq.
Qed.

Lemma expand_count (type : string) (color : Color) (n : nat) (w : World) :
  List.length (fst (expand type color n w)) = n
  /\ snd (expand type color n w) = after_draws (draws_of type n) w.
Proof.
  unfold expand, draws_of.
  destruct (String.eqb type "complementary") eqn:E1.
  { apply String.eqb_eq in E1. subst type. apply generateComplementaryPalette_count. }
  destruct (String.eqb type "triadic") eqn:E2.
  { apply String.eqb_eq in E2. subst type. apply generateTriadicPalette_count. }
  destruct (String.eqb type "analogous") eqn:E3.
  { simpl. rewrite after_draws_0. split; [apply generateAnalogousPalette_count | reflexivity]. }
  destruct (String.eqb type "monochromatic") eqn:E4.
  { simpl. rewrite after_draws_0.
    split; [apply generateMonochromaticPalette_count | reflexivity]. }
  apply generateColorVariations_count.
Qed.

Lemma expand_each_count (type : string) (n : nat) (seeds newPalette : list Color)
      (w : World) :
  List.length (fst (expand_each type n seeds newPalette w))
  = (List.length newPalette + List.length seeds * n)%nat
  /\ snd (expand_each type n seeds newPalette w)
     = after_draws (List.length seeds * draws_of type n) w.
Proof.
  revert newPalette w. induction seeds as [|c rest IH]; intros newPalette w.
  - simpl. rewrite after_draws_0. split; [lia | reflexivity].
  - cbn [expand_each]. unfold bind.
    destruct (expand_count type c n w) as [L W].
    destruct (expand type c n w) as [vs w1]. cbn [fst snd] in L, W.
    destruct (IH (newPalette ++ vs) w1) as [L' W'].
    rewrite L', W', W, after_draws_add, length_app, L. simpl.
    split; [lia | reflexivity].
Qed.

Lemma seeds_of_length (cats : list string) (allPixels : list Color) :
  (List.length (seeds_of cats allPixels) <= List.length cats)%nat.
Proof.
  induction cats as [|cat rest IH]; [apply Nat.le_refl|].
  change (seeds_of (cat :: rest) allPixels)
    with (match filter (in_category (rangePairs_of cat categories)) allPixels with
          | [] => []
          | catPixels => [getMedianColor catPixels]
          end ++ seeds_of rest allPixels).
  rewrite length_app.
  destruct (filter (in_category (rangePairs_of cat categories)) allPixels); simpl; lia.
Qed.

(* ---------------------------------------------------------------- *)
(** ** How many dominant colours *)

Lemma roulette_length (distances : list num) (sampledPixels : list Color)
      (randomValue cumulativeDistance : num) (centroids : list Color) :
  (List.length centroids
   <= List.length (roulette distances sampledPixels randomValue cumulativeDistance
                            centroids)
   <= S (List.length centroids))%nat.
Proof.
  revert sampledPixels cumulativeDistance.
  induction distances as [|d rest IH]; intros sampledPixels cumulativeDistance.
  - simpl. lia.
  - destruct sampledPixels as [|p ps]; [simpl; lia|].
    cbn [roulette]. cbv zeta.
    destruct (cumulativeDistance + d >=? randomValue).
    + rewrite length_app. simpl. lia.
    + apply IH.
Qed.

Lemma seed_centroids_length (n : nat) (sampledPixels centroids : list Color) (w : World) :
  (List.length centroids
   <= List.length (fst (seed_centroids n sampledPixels centroids w))
   <= List.length centroids + n)%nat.
Proof.
  revert centroids w. induction n as [|n IH]; intros centroids w.
  - simpl. lia.
  - cbn [seed_centroids]. cbv zeta. unfold bind.
    destruct (random w) as [r w1].
    match goal with
    | |- context [seed_centroids n sampledPixels ?cs w1] =>
        specialize (IH cs w1);
        pose proof (roulette_length
                      (map (fun pixel => min_distance pixel centroids) sampledPixels)
                      sampledPixels
                      (r * fold_left add (map (fun pixel => min_distance pixel centroids)
                                              sampledPixels) (of_Z 0))
                      (of_Z 0) centroids)
    end.
    lia.
Qed.

Lemma array_set_length {A : Type} (a : list A) (i : nat) (v : A) :
  List.length (array_set a i v) = List.length a.
Proof.
  revert i. induction a as [|x a IH]; intro i; [reflexivity|].
  destruct i; simpl; [reflexivity | now rewrite IH].
Qed.

Lemma update_centroids_length (clusters : list (list Color)) (i : nat)
      (centroids : list Color) (changed : bool) :
  List.length (fst (update_centroids clusters i centroids changed))
  = List.length centroids.
Proof.
  revert i centroids changed.
  induction clusters as [|cluster rest IH]; intros i centroids changed; [reflexivity|].
  cbn [update_centroids].
  destruct cluster as [|p ps]; [apply IH|].
  destruct (nth_error centroids i) as [oldCentroid|]; [|apply IH].
  cbv zeta.
  destruct (deltaE (getMedianColor (p :: ps)) oldCentroid >? of_Z 1).
  - rewrite IH. apply array_set_length.
  - apply IH.
Qed.

Lemma iterate_length (n k : nat) (startTime : num) (sampledPixels centroids : list Color)
      (w : World) :
  List.length (fst (iterate n k startTime sampledPixels centroids w))
  = List.length centroids.
Proof.
  revert centroids w. induction n as [|n IH]; intros centroids w; [reflexivity|].
  cbn [iterate]. unfold bind.
  destruct (now w) as [t w1].
  destruct (t - startTime >? of_Z 5000).
  - destruct (console_warn _ w1). reflexivity.
  - cbv zeta.
    pose proof (update_centroids_length (assign k sampledPixels centroids) 0 centroids false)
      as U.
    destruct (update_centroids (assign k sampledPixels centroids) 0 centroids false)
      as [centroids' changed].
    cbn [fst] in U. destruct changed; [rewrite IH; exact U | exact U].
Qed.

Lemma kMeansClustering_length (pixels : list Color) (k maxIterations sampleSize : nat)
      (w : World) :
  (List.length (fst (kMeansClustering pixels k maxIterations sampleSize w)) <= k)%nat
  /\ (pixels <> [] -> (1 <= k)%nat ->
      (1 <= List.length (fst (kMeansClustering pixels k maxIterations sampleSize w)))%nat).
Proof.
  unfold kMeansClustering.
  destruct pixels as [|p ps]; [simpl; split; [lia | congruence]|].
  destruct k as [|k]; [simpl; split; [lia | lia]|].
  cbn [List.length Nat.eqb orb]. unfold bind.
  destruct ((if (sampleSize <? S (List.length ps))%nat
             then sample_pixels sampleSize (p :: ps) else ret (p :: ps)) w)
    as [sampledPixels w1].
  destruct (sample_pixel sampledPixels w1) as [first w2].
  pose proof (seed_centroids_length (S k - 1) sampledPixels [first] w2) as SC.
  destruct (seed_centroids (S k - 1) sampledPixels [first] w2) as [centroids w3].
  destruct (now w3) as [startTime w4].
  rewrite iterate_length. cbn [fst List.length] in SC. split; [lia | intros; lia].
Qed.

Lemma random_pixel_member (pixels : list Color) (w : World) :
  match fst (random_pixel pixels w) with
  | Some c => In c pixels
  | None => True
  end
  /\ snd (random_pixel pixels w) = after_draws 1 w.
Proof.
  unfold random_pixel, bind, ret.
  pose proof (random_draws w) as D.
  destruct (random w) as [r w1]. cbn [fst snd] in *. split; [|exact D].
  unfold array_get. destruct (as_index _) as [i|]; [|exact I].
  destruct (nth_error pixels i) eqn:E; [|exact I].
  now apply nth_error_In with (1 := E).
Qed.

Lemma pad_loop_count (n : nat) (pixels result : list Color) (w : World) :
  List.length (fst (pad_loop n pixels result w)) = (List.length result + n)%nat
  /\ (forall c, In c (fst (pad_loop n pixels result w)) ->
                In c result \/ In c pixels \/ c = black)
  /\ snd (pad_loop n pixels result w) = after_draws n w.
Proof.
  revert result w. induction n as [|n IH]; intros result w.
  - simpl. rewrite after_draws_0. repeat split; [lia | now left].
  - cbn [pad_loop]. unfold bind.
    destruct (random_pixel_member pixels w) as [M W].
    destruct (random_pixel pixels w) as [p w1]. cbn [fst snd] in M, W. subst w1.
    destruct (IH (result ++ [match p with Some c => c | None => black end])
                 (after_draws 1 w)) as (L & C & W').
    rewrite L, W', after_draws_add, length_app. simpl.
    repeat split; [lia|].
    intros c Hc. destruct (C c Hc) as [K|K]; [|now right].
    apply in_app_or in K. destruct K as [K|[<-|[]]]; [now left|].
    right. destruct p; [now left | now right].
Qed.

(* ---------------------------------------------------------------- *)
(** ** Counts of colours *)

(** X5. Each of the five palette types returns exactly the number of
    colours asked for, whatever the colour and the number; "analogous"
    and "monochromatic" draw no random number, the three others draw
    two per colour, and none reads the clock or logs. *)
Theorem expand_counts (type : string) (color : Color) (n : nat) (w : World) :
  List.length (fst (expand type color n w)) = n
  /\ snd (expand type color n w) = after_draws (draws_of type n) w.
Proof. apply expand_count. Qed.

(** X6. [kMeansClustering] returns at most [k] centroids, and at least
    one when there is a pixel and [k] is not zero. *)
Theorem kMeansClustering_count (pixels : list Color) (k maxIterations sampleSize : nat)
        (w : World) :
  (List.length (fst (kMeansClustering pixels k maxIterations sampleSize w)) <= k)%nat
  /\ (pixels <> [] -> (1 <= k)%nat ->
      (1 <= List.length (fst (kMeansClustering pixels k maxIterations sampleSize w)))%nat).
Proof. apply kMeansClustering_length. Qed.

(** X7. [getDominantColors] returns at most [count] colours, and at
    least one when [count] is not zero.  With fewer pixels than [count]
    it returns exactly [count] colours, each a pixel or black, after
    [count] random numbers and nothing else. *)
Theorem getDominantColors_count (pixels : list Color) (count : nat) (w : World) :
  (List.length (fst (getDominantColors pixels count w)) <= count)%nat
  /\ ((1 <= count)%nat ->
      (1 <= List.length (fst (getDominantColors pixels count w)))%nat)
  /\ ((List.length pixels < count)%nat ->
      List.length (fst (getDominantColors pixels count w)) = count
      /\ (forall c, In c (fst (getDominantColors pixels count w)) ->
                    In c pixels \/ c = black)
      /\ snd (getDominantColors pixels count w) = after_draws count w).
Proof.
  unfold getDominantColors.
  destruct (List.length pixels <? count)%nat eqn:E.
  - destruct (pad_loop_count count pixels [] w) as (L & C & W).
    cbn [List.length] in L. rewrite Nat.add_0_l in L.
    split; [lia|]. split; [lia|]. intros _. split; [exact L|]. split; [|exact W].
    intros c Hc. destruct (C c Hc) as [[]|K]; exact K.
  - apply Nat.ltb_ge in E.
    destruct (kMeansClustering_length pixels count 10 1000 w) as [U L].
    split; [exact U|]. split; [|lia].
    intro Hc. apply L; [|exact Hc]. intros ->. simpl in E. lia.
Qed.

Lemma refinement_shrinks (cfg : Settings) (allPixels : list Color) (w : World) :
  (List.length (fst (generatePalette cfg allPixels w))
   <= List.length (fst (rawPalette cfg allPixels w)))%nat.
Proof.
  rewrite generatePalette_steps.
  set (raw := fst (rawPalette cfg allPixels w)).
  set (np := if negb _ then _ else _).
  assert (N : List.length np = List.length raw).
  { unfold np. destruct (negb _); [|reflexivity].
    rewrite harmonizeColors_map. apply length_map. }
  rewrite <- N.
  unfold uniqueColors.
  destruct (unique_from_selects (filterSimilarColors (filteredPalette np)
                                                     (similarityThreshold cfg)) [])
    as (S1 & _).
  pose proof (filterSimilarColors_subsequence (filteredPalette np)
                                              (similarityThreshold cfg)) as S2.
  pose proof (subsequence_filter in_range np) as S3.
  apply subsequence_length in S1, S2, S3. unfold filteredPalette in *. lia.
Qed.

(** X8. The categorical method expands one seed per hue category that
    has a pixel, each into [colorsPerHue] colours, so the palette has at
    most six times [colorsPerHue] colours; the other method expands each
    dominant colour into [Math.floor(colorsPerHue / dominantColorCount)]
    colours, so the palette has at most [colorsPerHue] colours. *)
Theorem palette_size_bound (cfg : Settings) (allPixels : list Color) (w : World) :
  (String.eqb (extractionMethod cfg) "categorical" = true ->
   List.length (fst (rawPalette cfg allPixels w))
   = (List.length (seeds_of categoryOrder allPixels) * colorsPerHue cfg)%nat
   /\ (List.length (fst (generatePalette cfg allPixels w)) <= 6 * colorsPerHue cfg)%nat)
  /\ (String.eqb (extractionMethod cfg) "categorical" = false ->
      List.length (fst (rawPalette cfg allPixels w))
      = (List.length (fst (getDominantColors allPixels (dominantColorCount cfg) w))
         * floor_div (colorsPerHue cfg) (dominantColorCount cfg))%nat
      /\ (List.length (fst (generatePalette cfg allPixels w)) <= colorsPerHue cfg)%nat).
Proof.
  pose proof (refinement_shrinks cfg allPixels w) as R.
  split; intro M.
  - assert (E : List.length (fst (rawPalette cfg allPixels w))
                = (List.length (seeds_of categoryOrder allPixels) * colorsPerHue cfg)%nat).
    { unfold rawPalette. rewrite M, categorical_loop_seeds.
      now rewrite (proj1 (expand_each_count _ _ _ _ _)). }
    split; [exact E|].
    pose proof (seeds_of_length categoryOrder allPixels) as S.
    change (List.length categoryOrder) with 6%nat in S. nia.
  - assert (E : List.length (fst (rawPalette cfg allPixels w))
                = (List.length (fst (getDominantColors allPixels (dominantColorCount cfg) w))
                   * floor_div (colorsPerHue cfg) (dominantColorCount cfg))%nat).
    { unfold rawPalette, seeds_clustered, bind. rewrite M.
      destruct (getDominantColors allPixels (dominantColorCount cfg) w) as [seeds w1].
      rewrite clustered_loop_seeds. cbn [fst].
      now rewrite (proj1 (expand_each_count _ _ _ _ _)). }
    split; [exact E|].
    assert (U : (List.length (fst (getDominantColors allPixels (dominantColorCount cfg) w))
                 <= dominantColorCount cfg)%nat).
    { unfold getDominantColors.
      destruct (List.length allPixels <? dominantColorCount cfg)%nat.
      - rewrite (proj1 (pad_loop_count _ _ _ _)). simpl. lia.
      - apply kMeansClustering_length. }
    unfold floor_div in *.
    pose proof (Nat.Div0.mul_div_le (colorsPerHue cfg) (dominantColorCount cfg)) as D.
    nia.
Qed.
End Counts.

(* ================================================================== *)
(** * What clustering draws, reads and logs *)

Section Effects.
Context {num : Type} {JS : JSNumber num} {HOST : JSHost num}.
Local Open Scope js_scope.
Local Abbreviation Color := (Color num).

Lemma sample_pixel_draws (pixels : list Color) (w : World) :
  snd (sample_pixel pixels w) = after_draws 1 w.
Proof.
  unfold sample_pixel, bind, ret.
  pose proof (proj2 (random_pixel_member pixels w)) as D.
  destruct (random_pixel pixels w) as [p w1]. exact D.
Qed.

Lemma sample_pixels_draws (n : nat) (pixels : list Color) (w : World) :
  snd (sample_pixels n pixels w) = after_draws n w.
Proof.
  revert w. induction n as [|n IH]; intro w.
  - simpl. now rewrite after_draws_0.
  - cbn [sample_pixels]. unfold bind, ret.
    pose proof (sample_pixel_draws pixels w) as D.
    destruct (sample_pixel pixels w) as [p w1]. cbn [snd] in D. subst w1.
    specialize (IH (after_draws 1 w)).
    destruct (sample_pixels n pixels (after_draws 1 w)) as [rest w2].
    cbn [snd] in *. now rewrite IH, after_draws_add.
Qed.

Lemma seed_centroids_draws (n : nat) (sampledPixels centroids : list Color) (w : World) :
  snd (seed_centroids n sampledPixels centroids w) = after_draws n w.
Proof.
  revert centroids w. induction n as [|n IH]; intros centroids w.
  - simpl. now rewrite after_draws_0.
  - cbn [seed_centroids]. cbv zeta. unfold bind.
    pose proof (random_draws w) as D.
    destruct (random w) as [r w1]. cbn [snd] in D. subst w1.
    now rewrite IH, after_draws_add.
Qed.

Lemma iterate_effects (n k : nat) (startTime : num) (sampledPixels centroids : list Color)
      (w : World) :
  drawn (snd (iterate n k startTime sampledPixels centroids w)) = drawn w
  /\ (clock_reads w
      <= clock_reads (snd (iterate n k startTime sampledPixels centroids w))
      <= clock_reads w + n)%nat
  /\ (console (snd (iterate n k startTime sampledPixels centroids w)) = console w
      \/ console (snd (iterate n k startTime sampledPixels centroids w))
         = console w ++ [timeout_warning]).
Proof.
  revert centroids w. induction n as [|n IH]; intros centroids w.
  - simpl. repeat split; [lia | lia | now left].
  - cbn [iterate]. unfold bind, now. cbn [fst snd].
    destruct (_ - startTime >? of_Z 5000).
    + unfold console_warn, ret. cbn [fst snd drawn clock_reads console].
      repeat split; [lia | lia | now right].
    + cbv zeta.
      destruct (update_centroids (assign k sampledPixels centroids) 0 centroids false)
        as [centroids' changed].
      destruct changed.
      * destruct (IH centroids'
                     {| drawn := drawn w; clock_reads := S (clock_reads w);
                        console := console w |}) as (D & C & L).
        cbn [drawn clock_reads console] in D, C, L.
        repeat split; [exact D | lia | lia | exact L].
      * unfold ret. cbn [snd drawn clock_reads console].
        repeat split; [lia | lia | now left].
Qed.

(** X9. With a pixel and [k] not zero, [kMeansClustering] draws [k]
    random numbers, and [sampleSize] more when it samples the pixels;
    it reads the clock once before the iterations and at most once in
    each, and the only thing it can log is the one warning of a run
    that took more than five seconds. *)
Theorem kMeansClustering_effects (pixels : list Color) (k maxIterations sampleSize : nat)
        (w : World) :
  pixels <> [] -> (1 <= k)%nat ->
  drawn (snd (kMeansClustering pixels k maxIterations sampleSize w))
  = (drawn w + (if (sampleSize <? List.length pixels)%nat then sampleSize else 0) + k)%nat
  /\ (clock_reads w + 1
      <= clock_reads (snd (kMeansClustering pixels k maxIterations sampleSize w))
      <= clock_reads w + 1 + maxIterations)%nat
  /\ (console (snd (kMeansClustering pixels k maxIterations sampleSize w)) = console w
      \/ console (snd (kMeansClustering pixels k maxIterations sampleSize w))
         = console w ++ [timeout_warning]).
Proof.
  intros Hne Hk. unfold kMeansClustering.
  destruct pixels as [|p ps]; [congruence|].
  destruct k as [|k]; [lia|].
  cbn [List.length Nat.eqb orb]. unfold bind.
  assert (S1 : snd ((if (sampleSize <? S (List.length ps))%nat
                     then sample_pixels sampleSize (p :: ps)
                     else ret (p :: ps)) w)
               = after_draws (if (sampleSize <? S (List.length ps))%nat
                              then sampleSize else 0) w).
  { destruct (sampleSize <? S (List.length ps))%nat.
    - apply sample_pixels_draws.
    - unfold ret. cbn [snd]. now rewrite after_draws_0. }
  destruct ((if (sampleSize <? S (List.length ps))%nat
             then sample_pixels sampleSize (p :: ps) else ret (p :: ps)) w)
    as [sampledPixels w1].
  cbn [snd] in S1. subst w1.
  set (d := if (sampleSize <? S (List.length ps))%nat then sampleSize else 0%nat).
  pose proof (sample_pixel_draws sampledPixels (after_draws d w)) as S2.
  destruct (sample_pixel sampledPixels (after_draws d w)) as [first w2].
  cbn [snd] in S2. subst w2.
  pose proof (seed_centroids_draws (S k - 1) sampledPixels [first]
                                   (after_draws 1 (after_draws d w))) as S3.
  destruct (seed_centroids (S k - 1) sampledPixels [first]
                           (after_draws 1 (after_draws d w))) as [centroids w3].
  cbn [snd] in S3. subst w3.
  unfold now. cbn [fst snd drawn clock_reads console after_draws].
  match goal with
  | |- context [iterate maxIterations (S k) ?st sampledPixels centroids ?w'] =>
      destruct (iterate_effects maxIterations (S k) st sampledPixels centroids w')
        as (D & C & L)
  end.
  cbn [drawn clock_reads console] in D, C, L.
  repeat split; [lia | lia | lia | exact L].
Qed.
End Effects.

Section EffectsExample.
Local Open Scope js_scope.

Lemma kMeansClustering_effects_witness :
  drawn (snd (kMeansClustering (HOST := example_host) [rgb 200 30 30; rgb 20 40 250] 2 10
                               1000 initial_world))
  = (drawn initial_world
     + (if (1000 <? List.length [rgb 200 30 30; rgb 20 40 250])%nat then 1000 else 0)
     + 2)%nat
  /\ (clock_reads initial_world + 1
      <= clock_reads (snd (kMeansClustering (HOST := example_host)
                                            [rgb 200 30 30; rgb 20 40 250] 2 10 1000
                                            initial_world))
      <= clock_reads initial_world + 1 + 10)%nat
  /\ (console (snd (kMeansClustering (HOST := example_host)
                                     [rgb 200 30 30; rgb 20 40 250] 2 10 1000
                                     initial_world))
      = console initial_world
      \/ console (snd (kMeansClustering (HOST := example_host)
                                        [rgb 200 30 30; rgb 20 40 250] 2 10 1000
                                        initial_world))
         = console initial_world ++ [timeout_warning]).
Proof.
  apply (@kMeansClustering_effects xnum _ example_host [rgb 200 30 30; rgb 20 40 250]
                                   2 10 1000 initial_world); [discriminate | lia].
Defined.
End EffectsExample.

(* ================================================================== *)
(** * Where the seeds come from *)

Section Provenance.
Context {num : Type} {JS : JSNumber num} {HOST : JSHost num}.
Local Open Scope js_scope.
Local Abbreviation Color := (Color num).

(** Each channel of the median is that channel of a pixel. *)
Lemma median_channel (vals : list num) :
  vals <> [] -> In (at_index (sort_numbers vals) (Nat.div (List.length vals) 2)) vals.
Proof.
  intro Hne. unfold at_index, sort_numbers.
  eapply Permutation_in; [apply Array_sort_perm|].
  apply nth_In. rewrite Array_sort_length.
  destruct vals as [|v vs]; [congruence|].
  apply Nat.div_lt; simpl; lia.
Qed.

Lemma getMedianColor_channels (pixels : list Color) :
  pixels <> [] ->
  exists p1 p2 p3 : Color,
    In p1 pixels /\ In p2 pixels /\ In p3 pixels
    /\ getMedianColor pixels = (fst (fst p1), snd (fst p2), snd p3).
Proof.
  intro Hne. destruct pixels as [|p ps]; [congruence|].
  set (pixels := p :: ps) in *.
  assert (E : getMedianColor pixels
              = (at_index (sort_numbers (map (fun p : Color => fst (fst p)) pixels))
                          (Nat.div (List.length pixels) 2),
                 at_index (sort_numbers (map (fun p : Color => snd (fst p)) pixels))
                          (Nat.div (List.length pixels) 2),
                 at_index (sort_numbers (map (fun p : Color => snd p) pixels))
                          (Nat.div (List.length pixels) 2))) by reflexivity.
  rewrite E. clear E.
  assert (M : forall f : Color -> num,
             exists q, In q pixels
                       /\ at_index (sort_numbers (map f pixels))
                                   (Nat.div (List.length pixels) 2) = f q).
  { intro f.
    assert (N : map f pixels <> []) by (unfold pixels; simpl; congruence).
    pose proof (median_channel N) as I. rewrite length_map in I.
    apply in_map_iff in I. destruct I as (q & Eq & Hq). now exists q. }
  destruct (M (fun p => fst (fst p))) as (p1 & H1 & ->).
  destruct (M (fun p => snd (fst p))) as (p2 & H2 & ->).
  destruct (M (fun p => snd p)) as (p3 & H3 & ->).
  now exists p1, p2, p3.
Qed.

(** X10. The median of no pixel is black.  Otherwise each channel of the
    median colour is that channel of a pixel: the three pixels can
    differ, and the median colour need not be a pixel itself. *)
Theorem getMedianColor_from_pixels (pixels : list Color) :
  (pixels = [] -> getMedianColor pixels = black)
  /\ (pixels <> [] ->
      exists p1 p2 p3 : Color,
        In p1 pixels /\ In p2 pixels /\ In p3 pixels
        /\ getMedianColor pixels = (red p1, green p2, blue p3)).
Proof.
  split; [intros ->; reflexivity | apply getMedianColor_channels].
Qed.

Variable P : Color -> Prop.
Hypothesis sampled :
  forall (pixels : list Color) (w : World),
    pixels <> [] -> Forall P pixels -> P (fst (sample_pixel pixels w)).
Hypothesis median :
  forall pixels : list Color, pixels <> [] -> Forall P pixels -> P (getMedianColor pixels).

Lemma sample_pixels_Forall (n : nat) (pixels : list Color) (w : World) :
  pixels <> [] -> Forall P pixels ->
  Forall P (fst (sample_pixels n pixels w))
  /\ List.length (fst (sample_pixels n pixels w)) = n.
Proof.
  intros Hne F. revert w. induction n as [|n IH]; intro w.
  - split; [constructor | reflexivity].
  - cbn [sample_pixels]. unfold bind, ret.
    pose proof (sampled w Hne F) as S1.
    destruct (sample_pixel pixels w) as [p w1]. cbn [fst] in S1.
    destruct (IH w1) as [F1 L1].
    destruct (sample_pixels n pixels w1) as [rest w2]. cbn [fst] in *.
    split; [now constructor | simpl; now rewrite L1].
Qed.

Lemma roulette_Forall (distances : list num) (sampledPixels : list Color)
      (randomValue cumulativeDistance : num) (centroids : list Color) :
  Forall P sampledPixels -> Forall P centroids ->
  Forall P (roulette distances sampledPixels randomValue cumulativeDistance centroids).
Proof.
  intros Fs Fc. revert sampledPixels cumulativeDistance Fs.
  induction distances as [|d rest IH]; intros sampledPixels cumulativeDistance Fs.
  - exact Fc.
  - destruct sampledPixels as [|p ps]; [exact Fc|].
    cbn [roulette]. cbv zeta. inversion Fs; subst.
    destruct (cumulativeDistance + d >=? randomValue).
    + apply Forall_app. split; [exact Fc | now constructor].
    + now apply IH.
Qed.

Lemma seed_centroids_Forall (n : nat) (sampledPixels centroids : list Color) (w : World) :
  Forall P sampledPixels -> Forall P centroids ->
  Forall P (fst (seed_centroids n sampledPixels centroids w)).
Proof.
  intro Fs. revert centroids w. induction n as [|n IH]; intros centroids w Fc.
  - exact Fc.
  - cbn [seed_centroids]. cbv zeta. unfold bind.
    destruct (random w) as [r w1]. apply IH. now apply roulette_Forall.
Qed.

Lemma push_at_Forall (clusters : list (list Color)) (i : nat) (pixel : Color) :
  P pixel -> Forall (Forall P) clusters -> Forall (Forall P) (push_at clusters i pixel).
Proof.
  intros Hp F. revert i. induction F as [|c rest Fc Fr IH]; intro i; [constructor|].
  destruct i; cbn [push_at].
  - constructor; [|exact Fr]. apply Forall_app. split; [exact Fc | now constructor].
  - constructor; [exact Fc | apply IH].
Qed.

Lemma assign_Forall (k : nat) (sampledPixels centroids : list Color) :
  Forall P sampledPixels -> Forall (Forall P) (assign k sampledPixels centroids).
Proof.
  intro Fs. unfold assign.
  assert (F0 : Forall (Forall P) (repeat [] k))
    by (induction k; simpl; constructor; [constructor | assumption]).
  revert F0. generalize (repeat (@nil Color) k) as clusters.
  induction Fs as [|p ps Hp Fp IH]; intros clusters F0; [exact F0|].
  cbn [fold_left]. apply IH. now apply push_at_Forall.
Qed.

Lemma array_set_Forall (a : list Color) (i : nat) (v : Color) :
  P v -> Forall P a -> Forall P (array_set a i v).
Proof.
  intros Hv F. revert i. induction F as [|x a Hx Fa IH]; intro i; [constructor|].
  destruct i; cbn [array_set]; constructor; auto.
Qed.

Lemma update_centroids_Forall (clusters : list (list Color)) (i : nat)
      (centroids : list Color) (changed : bool) :
  Forall (Forall P) clusters -> Forall P centroids ->
  Forall P (fst (update_centroids clusters i centroids changed)).
Proof.
  intro Fc. revert i centroids changed.
  induction Fc as [|cluster rest Hc Fr IH]; intros i centroids changed F; [exact F|].
  cbn [update_centroids].
  destruct cluster as [|p ps]; [now apply IH|].
  destruct (nth_error centroids i) as [oldCentroid|]; [|now apply IH].
  cbv zeta.
  destruct (deltaE (getMedianColor (p :: ps)) oldCentroid >? of_Z 1); [|now apply IH].
  apply IH. apply array_set_Forall; [|exact F].
  apply median; [congruence | exact Hc].
Qed.

Lemma iterate_Forall (n k : nat) (startTime : num) (sampledPixels centroids : list Color)
      (w : World) :
  Forall P sampledPixels -> Forall P centroids ->
  Forall P (fst (iterate n k startTime sampledPixels centroids w)).
Proof.
  intro Fs. revert centroids w. induction n as [|n IH]; intros centroids w Fc; [exact Fc|].
  cbn [iterate]. unfold bind.
  destruct (now w) as [t w1].
  destruct (t - startTime >? of_Z 5000).
  - destruct (console_warn _ w1). exact Fc.
  - cbv zeta.
    pose proof (update_centroids_Forall 0 false (assign_Forall k centroids Fs) Fc) as U.
    destruct (update_centroids (assign k sampledPixels centroids) 0 centroids false)
      as [centroids' changed].
    cbn [fst] in U. destruct changed; [now apply IH | exact U].
Qed.

Lemma kMeansClustering_Forall (pixels : list Color) (k maxIterations sampleSize : nat)
      (w : World) :
  (1 <= sampleSize)%nat -> Forall P pixels ->
  Forall P (fst (kMeansClustering pixels k maxIterations sampleSize w)).
Proof.
  intros Hs F. unfold kMeansClustering.
  destruct pixels as [|p ps]; [constructor|].
  destruct k as [|k]; [constructor|].
  cbn [List.length Nat.eqb orb]. unfold bind.
  assert (S1 : Forall P (fst ((if (sampleSize <? S (List.length ps))%nat
                               then sample_pixels sampleSize (p :: ps)
                               else ret (p :: ps)) w))
               /\ fst ((if (sampleSize <? S (List.length ps))%nat
                        then sample_pixels sampleSize (p :: ps)
                        else ret (p :: ps)) w) <> []).
  { destruct (sampleSize <? S (List.length ps))%nat.
    - destruct (@sample_pixels_Forall sampleSize (p :: ps) w ltac:(congruence) F)
        as [F1 L1].
      split; [exact F1|]. intro E. rewrite E in L1. simpl in L1. lia.
    - split; [exact F | simpl; congruence]. }
  destruct ((if (sampleSize <? S (List.length ps))%nat
             then sample_pixels sampleSize (p :: ps) else ret (p :: ps)) w)
    as [sampledPixels w1].
  cbn [fst] in S1. destruct S1 as [Fs Hne].
  pose proof (sampled w1 Hne Fs) as H1.
  destruct (sample_pixel sampledPixels w1) as [first w2]. cbn [fst] in H1.
  assert (F1 : Forall P [first]) by now constructor.
  pose proof (seed_centroids_Forall (S k - 1) w2 Fs F1) as SC.
  destruct (seed_centroids (S k - 1) sampledPixels [first] w2) as [centroids w3].
  destruct (now w3) as [startTime w4].
  now apply iterate_Forall.
Qed.

Hypothesis black_ok : P black.

Lemma getDominantColors_Forall (pixels : list Color) (count : nat) (w : World) :
  Forall P pixels -> Forall P (fst (getDominantColors pixels count w)).
Proof.
  intro F. unfold getDominantColors.
  destruct (List.length pixels <? count)%nat.
  - destruct (pad_loop_count count pixels [] w) as (_ & C & _).
    apply Forall_forall. intros c Hc.
    destruct (C c Hc) as [[]|[K| ->]]; [|exact black_ok].
    rewrite Forall_forall in F. now apply F.
  - apply kMeansClustering_Forall; [lia | exact F].
Qed.

Lemma seeds_of_Forall (cats : list string) (allPixels : list Color) :
  Forall P allPixels -> Forall P (seeds_of cats allPixels).
Proof.
  intro F. induction cats as [|cat rest IH]; [constructor|].
  change (seeds_of (cat :: rest) allPixels)
    with (match filter (in_category (rangePairs_of cat categories)) allPixels with
          | [] => []
          | catPixels => [getMedianColor catPixels]
          end ++ seeds_of rest allPixels).
  apply Forall_app. split; [|exact IH].
  destruct (filter (in_category (rangePairs_of cat categories)) allPixels)
    as [|p ps] eqn:E; [constructor|].
  constructor; [|constructor].
  apply median; [congruence|].
  rewrite <- E. apply subsequence_Forall with (2 := F). apply subsequence_filter.
Qed.
End Provenance.

(* ================================================================== *)
(** * Exact arithmetic: the ranges of the conversions *)

Section ExactRanges.
Import QOps OnQ.
Local Open Scope Q_scope.

(** The hue, saturation and lightness of channels scaled to [0, 1]. *)
Lemma hsl_unit_range (r g b : Q) :
  0 <= r <= 1 -> 0 <= g <= 1 -> 0 <= b <= 1 ->
  let '(h, s, l) := hsl_unit r g b in
  0 <= h < 1 /\ 0 <= s <= 1 /\ 0 <= l <= 1
  /\ (r == g -> g == b -> h = 0 /\ s = 0).
Proof.
  intros Hr Hg Hb. unfold hsl_unit.
  destruct (qmax3_spec r g b) as (Mi & M1 & M2 & M3).
  destruct (qmin3_spec r g b) as (mi & m1 & m2 & m3).
  set (max := qmax (qmax r g) b) in *.
  set (min := qmin (qmin r g) b) in *.
  clearbody max min.
  assert (Hmax : max <= 1) by (destruct Mi as [->|[->| ->]]; lra).
  assert (Hmin : 0 <= min) by (destruct mi as [->|[->| ->]]; lra).
  destruct (Qeq_bool_spec max min) as [E|E].
  - repeat split; lra.
  - assert (Hlt : min < max)
      by (destruct (Qlt_le_dec min max); [assumption | exfalso; apply E; lra]).
    destruct (hsl_pq Hmin Hlt Hmax) as (Hs & _ & _). cbv zeta in Hs.
    assert (Hd : 0 < max - min) by lra.
    split; [|split; [lra | split; [lra|]]].
    + unfold hue_switchQ.
      destruct (Qeq_bool_spec max r) as [E1|E1].
      * destruct (@quot_spec (g - b) (max - min) Hd) as (_ & Hx1 & Hx2 & Hx3 & _);
          [lra|].
        destruct (qltb_spec g b) as [L|L].
        -- specialize (Hx3 ltac:(lra)). lra.
        -- specialize (Hx2 ltac:(lra)). lra.
      * destruct (Qeq_bool_spec max g) as [E2|E2].
        -- destruct (@quot_spec (b - r) (max - min) Hd) as (_ & Hx1 & _); [lra|]. lra.
        -- destruct (@quot_spec (r - g) (max - min) Hd) as (_ & Hx1 & _); [lra|]. lra.
    + intros Erg Egb. exfalso. apply E.
      destruct Mi as [->|[->| ->]], mi as [->|[->| ->]]; lra.
Qed.

(** [Math.round(x * 255)] of a number of [0, 1] is a channel. *)
Lemma Qround_byte (x : Q) : 0 <= x <= 1 -> byte (Qround (x * 255)).
Proof.
  intros [H0 H1]. unfold byte, Qround.
  assert (L := Qfloor_le (x * 255 + (1 # 2))).
  assert (U := Qlt_floor (x * 255 + (1 # 2))).
  set (f := Qfloor (x * 255 + (1 # 2))) in *. clearbody f.
  rewrite inject_Z_plus in U. change (inject_Z 1) with 1 in U.
  assert (A : inject_Z (-1) < inject_Z f) by (change (inject_Z (-1)) with (-1); lra).
  assert (B : inject_Z f < inject_Z 256) by (change (inject_Z 256) with 256; lra).
  rewrite <- Zlt_Qlt in A, B. lia.
Qed.

(** Between [p] and [q], for every [t] from [-1] on. *)
Lemma hue2rgbQ_between (p q t : Q) :
  p <= q -> -1 <= t -> p <= hue2rgbQ p q t <= q.
Proof.
  intros Hpq Ht. unfold hue2rgbQ. qtests; nra.
Qed.

Lemma hslToRgbQ_bytes (h s l : Q) :
  - (2 # 3) <= h -> 0 <= s <= 1 -> 0 <= l <= 1 ->
  let '(R, G, B) := hslToRgbQ h s l in byte R /\ byte G /\ byte B.
Proof.
  intros Hh Hs Hl. unfold hslToRgbQ, channels.
  destruct (Qeq_bool s 0).
  - split; [|split]; now apply Qround_byte.
  - set (q := if qltb l (5 # 10) then l * (1 + s) else l + s - l * s).
    assert (Hq : 0 <= 2 * l - q /\ 2 * l - q <= q /\ q <= 1)
      by (unfold q; destruct (qltb_spec l (5 # 10)); nra).
    clearbody q. destruct Hq as (Hp & Hpq & Hq).
    assert (B1 := @hue2rgbQ_between (2 * l - q) q (h + (1 # 3)) Hpq ltac:(lra)).
    assert (B2 := @hue2rgbQ_between (2 * l - q) q h Hpq ltac:(lra)).
    assert (B3 := @hue2rgbQ_between (2 * l - q) q (h - (1 # 3)) Hpq ltac:(lra)).
    split; [|split]; apply Qround_byte; lra.
Qed.

Lemma hslToRgb_valid_color (h s l : Q) :
  - (2 # 3) <= h -> 0 <= s <= 1 -> 0 <= l <= 1 ->
  valid_color (hslToRgb (Fin h) (Fin s) (Fin l)).
Proof.
  intros Hh Hs Hl. rewrite hslToRgb_Fin.
  pose proof (hslToRgbQ_bytes Hh Hs Hl) as V.
  destruct (hslToRgbQ h s l) as [[R G] B]. destruct V as (VR & VG & VB).
  exists R, G, B. split; [exact VR|]. split; [exact VG|]. split; [exact VB | reflexivity].
Qed.

Lemma rgbToHsl_valid (R G B : Z) :
  byte R -> byte G -> byte B ->
  exists h s l : Q,
    rgbToHsl (of_Z R) (of_Z G) (of_Z B) = (Fin h, Fin s, Fin l)
    /\ 0 <= h < 1 /\ 0 <= s <= 1 /\ 0 <= l <= 1
    /\ (R = G -> G = B -> h = 0 /\ s = 0).
Proof.
  intros HR HG HB.
  destruct (byte_Q HR) as [HR1 HR2], (byte_Q HG) as [HG1 HG2], (byte_Q HB) as [HB1 HB2].
  change (of_Z R) with (Fin (inject_Z R)). change (of_Z G) with (Fin (inject_Z G)).
  change (of_Z B) with (Fin (inject_Z B)).
  rewrite rgbToHsl_Fin by assumption. unfold rgbToHslQ.
  pose proof (hsl_unit_range HR1 HG1 HB1) as U.
  destruct (hsl_unit _ _ _) as [[h s] l]. destruct U as (Uh & Us & Ul & Ug).
  exists h, s, l. split; [reflexivity|]. split; [exact Uh|]. split; [exact Us|].
  split; [exact Ul|]. intros -> ->. apply Ug; reflexivity.
Qed.

(** X11. For a colour with integer channels of [0, 255], [rgbToHsl]
    returns finite numbers: a hue from 0 up to, but not, 1, and a
    saturation and a lightness from 0 to 1; for a grey the hue and the
    saturation are 0. *)
Theorem rgbToHsl_ranges (R G B : Z) :
  byte R -> byte G -> byte B ->
  exists h s l : Q,
    rgbToHsl (of_Z R) (of_Z G) (of_Z B) = (Fin h, Fin s, Fin l)
    /\ 0 <= h < 1 /\ 0 <= s <= 1 /\ 0 <= l <= 1
    /\ (R = G -> G = B -> h = 0 /\ s = 0).
Proof. apply rgbToHsl_valid. Qed.

Lemma rgbToHsl_ranges_witness :
  exists h s l : Q,
    rgbToHsl (of_Z 128) (of_Z 128) (of_Z 128) = (Fin h, Fin s, Fin l)
    /\ 0 <= h < 1 /\ 0 <= s <= 1 /\ 0 <= l <= 1
    /\ (128%Z = 128%Z -> 128%Z = 128%Z -> h = 0 /\ s = 0).
Proof.
  apply (@rgbToHsl_ranges 128 128 128); unfold byte; lia.
Defined.

(** X12. For a finite hue from [-2/3] on and a saturation and a lightness
    from 0 to 1, [hslToRgb] returns a colour with integer channels of
    [0, 255]. *)
Theorem hslToRgb_valid (h s l : Q) :
  - (2 # 3) <= h -> 0 <= s <= 1 -> 0 <= l <= 1 ->
  valid_color (hslToRgb (Fin h) (Fin s) (Fin l)).
Proof. apply hslToRgb_valid_color. Qed.

Lemma hslToRgb_valid_witness :
  valid_color (hslToRgb (Fin (- (1 # 40))) (Fin (1 # 2)) (Fin (85 # 100))).
Proof.
  apply (@hslToRgb_valid (- (1 # 40)) (1 # 2) (85 # 100)); lra.
Defined.
End ExactRanges.

(* ================================================================== *)
(** * Exact arithmetic: the harmoniser and the range filter *)

Section ExactHarmonizer.
Import QOps OnQ.
Local Open Scope Q_scope.

Lemma clamp01_unit (z : Q) :
  exists y, Math_min (of_Z 1) (Math_max (of_Z 0) (Fin z)) = Fin y /\ 0 <= y <= 1.
Proof.
  change (of_Z 1) with (Fin 1). change (of_Z 0) with (Fin 0).
  rewrite Math_max_Fin, Math_min_Fin.
  exists (qmin 1 (qmax 0 z)). split; [reflexivity|].
  destruct (qmax_cases 0 z) as [[-> ?]|[-> ?]];
    destruct (qmin_cases 1 0) as [[E ?]|[E ?]];
    destruct (qmin_cases 1 z) as [[E' ?]|[E' ?]]; rewrite ?E, ?E'; lra.
Qed.

Lemma own_property_In (key : string) (entries : list (string * Params (num := xnum)))
      (p : Params) :
  own_property key entries = Some p -> In (key, p) entries.
Proof.
  induction entries as [|[k q] rest IH]; simpl; [discriminate|].
  destruct (String.eqb k key) eqn:E.
  - intro H. injection H as <-. apply String.eqb_eq in E. subst. now left.
  - intro H. right. now apply IH.
Qed.

Lemma params_of_profiles (model : string) : In (params_of model) profiles.
Proof.
  unfold params_of, models_get, profiles.
  destruct (own_property model models) as [p|] eqn:E.
  - right. right. apply own_property_In in E.
    apply in_map_iff. now exists (model, p).
  - destruct (existsb _ _); [now left | right; now left].
Qed.

Lemma profiles_keep_finite : Forall keeps_finite profiles.
Proof.
  unfold profiles, models, models_none, no_fields, profile. cbn [map snd].
  repeat (apply Forall_cons;
          [intro x; unfold clamp_range, scale, field;
           cbn [l_mult s_mult l_shift s_shift l_range s_range];
           rewrite ?const_dec; change (of_Z 1) with (Fin 1); change (of_Z 0) with (Fin 0);
           cbn [truthy isNaN strict_eq negb andb xnum_JSNumber XNum.strict_eq Qeq_bool
                Qnum Qden Z.mul Z.eqb Pos.mul Pos.eqb of_Z inject_Z mul add
                XNum.mul XNum.add];
           rewrite ?isNaN_Fin; cbn [negb];
           rewrite ?Math_min_Fin, ?Math_max_Fin; split; eexists; reflexivity|]).
  apply Forall_nil.
Qed.

Lemma harmonized_unit (model : string) (x : Q) :
  (exists y, harmonized_l (params_of model) (Fin x) = Fin y /\ 0 <= y <= 1)
  /\ (exists y, harmonized_s (params_of model) (Fin x) = Fin y /\ 0 <= y <= 1).
Proof.
  pose proof profiles_keep_finite as F. rewrite Forall_forall in F.
  destruct (F _ (params_of_profiles model) x) as [[yl El] [ys Es]].
  unfold harmonized_l, harmonized_s. rewrite El, Es.
  split; apply clamp01_unit.
Qed.

Lemma harmonize_valid_color (model : string) (c : Color xnum) :
  valid_color c ->
  valid_color (hslToRgb (hue c)
                        (harmonized_s (params_of model) (saturation c))
                        (harmonized_l (params_of model) (lightness c))).
Proof.
  intros (R & G & B & HR & HG & HB & ->).
  destruct (rgbToHsl_valid HR HG HB) as (h & s & l & E & Hh & Hs & Hl & _).
  unfold hue, saturation, lightness, rgb. rewrite E.
  destruct (harmonized_unit model l) as [(yl & El & Hyl) _].
  destruct (harmonized_unit model s) as [_ (ys & Es & Hys)].
  rewrite El, Es. apply hslToRgb_valid_color; lra.
Qed.

Lemma clamps_within (lo hi z : Q) :
  0 <= lo -> lo <= hi -> hi <= 1 ->
  exists y,
    Math_min (of_Z 1) (Math_max (of_Z 0) (Math_max (Fin lo) (Math_min (Fin hi) (Fin z))))
    = Fin y /\ lo <= y <= hi.
Proof.
  intros H0 Hlh H1.
  change (of_Z 1) with (Fin 1). change (of_Z 0) with (Fin 0).
  rewrite !Math_min_Fin, !Math_max_Fin, Math_min_Fin.
  eexists. split; [reflexivity|].
  unfold qmin, qmax. qtests; lra.
Qed.

Lemma profiles_within_ranges : Forall within_ranges profiles.
Proof.
  unfold profiles, models, models_none, no_fields, profile. cbn [map snd].
  apply Forall_cons; [intro x; cbn [l_range s_range]; split; exact I|].
  apply Forall_cons; [intro x; cbn [l_range s_range]; split; exact I|].
  repeat (apply Forall_cons;
          [intro x; unfold harmonized_l, harmonized_s, clamp_range, scale, field;
           cbn [l_mult s_mult l_shift s_shift l_range s_range];
           rewrite ?const_dec; change (of_Z 1) with (Fin 1); change (of_Z 0) with (Fin 0);
           cbn [truthy isNaN strict_eq negb andb xnum_JSNumber XNum.strict_eq Qeq_bool
                Qnum Qden Z.mul Z.eqb Pos.mul Pos.eqb of_Z inject_Z mul add
                XNum.mul XNum.add];
           rewrite ?isNaN_Fin; cbn [negb];
           split; apply clamps_within; lra|]).
  apply Forall_cons; [intro x; cbn [l_range s_range]; split; exact I|].
  apply Forall_nil.
Qed.

(* ---------------------------------------------------------------- *)
(** ** Colours without channels *)

Lemma lightness_nan : lightness nan_color = XNaN.
Proof. reflexivity. Qed.

Lemma saturation_nan : saturation nan_color = XNaN.
Proof. reflexivity. Qed.

Lemma in_range_nan : in_range nan_color = false.
Proof. reflexivity. Qed.

Lemma profiles_keep_NaN :
  Forall (fun p : Params (num := xnum) =>
            harmonized_l p XNaN = XNaN /\ harmonized_s p XNaN = XNaN) profiles.
Proof.
  unfold profiles, models, models_none, no_fields, profile. cbn [map snd].
  repeat (apply Forall_cons; [split; vm_compute; reflexivity|]).
  apply Forall_nil.
Qed.

Lemma harmonize_nan_color (model : string) :
  hslToRgb (hue nan_color)
           (harmonized_s (params_of model) (saturation nan_color))
           (harmonized_l (params_of model) (lightness nan_color))
  = nan_color.
Proof.
  pose proof profiles_keep_NaN as F. rewrite Forall_forall in F.
  destruct (F _ (params_of_profiles model)) as [El Es].
  rewrite lightness_nan, saturation_nan, El, Es. apply hslToRgb_NaN.
Qed.

(* ---------------------------------------------------------------- *)
(** ** What the range filter keeps has finite channels *)

Lemma max_min_finite (a b c : xnum) (x y : Q) :
  Math_max3 a b c = Fin x -> Math_min3 a b c = Fin y ->
  exists p q r, a = Fin p /\ b = Fin q /\ c = Fin r.
Proof.
  destruct a as [p| | |], b as [q| | |], c as [r| | |]; intros H1 H2;
    unfold Math_max3, Math_min3 in *;
    rewrite ?Math_max_Fin, ?Math_min_Fin in *;
    unfold Math_max, Math_min in *; rewrite ?isNaN_Fin in *;
    cbn in H1, H2; try discriminate.
  exists p, q, r. repeat split.
Qed.

Lemma scaled_finite (a : xnum) (x : Q) : (a / of_Z 255)%js = Fin x -> exists p, a = Fin p.
Proof. destruct a; cbn; intro H; try discriminate; eauto. Qed.

Lemma lightness_formula (r g b : xnum) :
  lightness (r, g, b)
  = ((Math_max3 (r / of_Z 255) (g / of_Z 255) (b / of_Z 255)
      + Math_min3 (r / of_Z 255) (g / of_Z 255) (b / of_Z 255)) / of_Z 2)%js.
Proof.
  unfold lightness, rgbToHsl.
  match goal with |- context [if ?c then _ else _] => destruct c end; reflexivity.
Qed.

(** X13. For every profile name, known or not, [harmonizeColors] maps
    colours with integer channels of [0, 255] to colours with integer
    channels of [0, 255]. *)
Theorem harmonizeColors_valid (colors : list (Color xnum)) (model : string) :
  Forall valid_color colors -> Forall valid_color (harmonizeColors colors model).
Proof.
  intro F. rewrite harmonizeColors_map. apply Forall_map.
  apply Forall_impl with (2 := F). intro c. apply harmonize_valid_color.
Qed.

Lemma harmonizeColors_valid_witness :
  Forall valid_color (harmonizeColors [rgb 200 30 30; rgb 128 128 128] "neon").
Proof.
  apply (@harmonizeColors_valid [rgb 200 30 30; rgb 128 128 128] "neon").
  repeat constructor; [exists 200%Z, 30%Z, 30%Z | exists 128%Z, 128%Z, 128%Z];
    unfold byte; repeat split; lia.
Defined.

(** X14. Under a profile that has ranges, the lightness and the
    saturation that [harmonizeColors] converts back lie in the ranges of
    the profile, whatever finite lightness and saturation the colour
    had: the final clamp to [0, 1] changes nothing. *)
Theorem harmonized_within_profile (model : string) (llo lhi slo shi l s : Q) :
  l_range (params_of (num := xnum) model) = Some (Fin llo, Fin lhi) ->
  s_range (params_of (num := xnum) model) = Some (Fin slo, Fin shi) ->
  exists l' s' : Q,
    harmonized_l (params_of model) (Fin l) = Fin l' /\ llo <= l' <= lhi
    /\ harmonized_s (params_of model) (Fin s) = Fin s' /\ slo <= s' <= shi.
Proof.
  intros Hl Hs.
  pose proof profiles_within_ranges as F. rewrite Forall_forall in F.
  pose proof (F _ (params_of_profiles model)) as W. unfold within_ranges in W.
  destruct (W l) as [Wl _]. destruct (W s) as [_ Ws].
  rewrite Hl in Wl. rewrite Hs in Ws.
  destruct Wl as (l' & El & Bl). destruct Ws as (s' & Es & Bs).
  exists l', s'. repeat split; try assumption; lra.
Qed.

Lemma harmonized_within_profile_witness :
  exists l' s' : Q,
    harmonized_l (params_of "pastel") (Fin (1 # 10)) = Fin l'
    /\ 7 # 10 <= l' <= 95 # 100
    /\ harmonized_s (params_of "pastel") (Fin 0) = Fin s'
    /\ 2 # 10 <= s' <= 6 # 10.
Proof.
  apply (@harmonized_within_profile "pastel" (7 # 10) (95 # 100) (2 # 10) (6 # 10)
                                    (1 # 10) 0); reflexivity.
Defined.

(** X15. A colour that passes the three tests of the range filter has
    finite channels: a colour with a channel that is [NaN] or infinite
    is never kept. *)
Theorem range_filter_finite (c : Color xnum) : in_range c = true -> finite_color c.
Proof.
  rewrite in_range_visible.
  destruct c as [[r g] b]. unfold visible. rewrite !andb_true_iff.
  intros [[L1 L2] _]. rewrite lightness_formula in L1, L2.
  set (M := Math_max3 _ _ _) in *. set (m := Math_min3 _ _ _) in *.
  assert (HM : exists x y, M = Fin x /\ m = Fin y).
  { rewrite (const_dec 1 10) in L1. rewrite (const_dec 95 100) in L2.
    destruct M as [x| | |], m as [y| | |]; cbn in L1, L2; try discriminate; eauto. }
  destruct HM as (x & y & EM & Em).
  destruct (max_min_finite _ _ _ EM Em) as (p & q & t & Ep & Eq & Et).
  destruct (scaled_finite _ Ep) as (r' & ->).
  destruct (scaled_finite _ Eq) as (g' & ->).
  destruct (scaled_finite _ Et) as (b' & ->).
  now exists r', g', b'.
Qed.

Lemma range_filter_finite_witness : finite_color (rgb 200 30 30).
Proof.
  apply (@range_filter_finite (rgb 200 30 30)). vm_compute. reflexivity.
Defined.
End ExactHarmonizer.

(* ================================================================== *)
(** * Groups of at most one colour *)

Section SingleColours.
Context {HOST : JSHost xnum}.
Local Open Scope js_scope.

Lemma length_0_nil {A : Type} (l : list A) : List.length l = 0%nat -> l = [].
Proof. destruct l; [reflexivity | discriminate]. Qed.

Lemma generateColorVariations_small (baseColor : Color xnum) (n : nat) (w : World) :
  (n <= 1)%nat ->
  Forall (eq nan_color) (fst (generateColorVariations baseColor n w)).
Proof.
  intro Hn. destruct n as [|[|n]]; [| |lia].
  - rewrite (length_0_nil _ (proj1 (generateColorVariations_count baseColor 0 w))).
    constructor.
  - unfold generateColorVariations. destruct baseColor as [[r g] b].
    destruct (rgbToHsl r g b) as [[baseH baseS] baseL].
    unfold bind, ret. cbn [variations_loop]. unfold bind, ret, random.
    rewrite step_L_single, hslToRgb_NaN. repeat constructor.
Qed.

Lemma generateComplementaryPalette_small (baseColor : Color xnum) (n : nat) (w : World) :
  (n <= 2)%nat ->
  Forall (eq nan_color) (fst (generateComplementaryPalette baseColor n w)).
Proof.
  intro Hn.
  assert (A : (ceil_div n 2 <= 1 /\ floor_div n 2 <= 1)%nat)
    by (destruct n as [|[|[|n]]]; [cbv; lia | cbv; lia | cbv; lia | lia]).
  destruct A as [A1 A2].
  unfold generateComplementaryPalette. destruct baseColor as [[r g] b].
  destruct (rgbToHsl r g b) as [[h s] l]. unfold bind, ret.
  pose proof (generateColorVariations_small (r, g, b) w A1) as F1.
  destruct (generateColorVariations (r, g, b) (ceil_div n 2) w) as [v1 w1].
  match goal with
  | |- context [generateColorVariations ?c ?m w1] =>
      pose proof (generateColorVariations_small c w1 A2) as F2;
      destruct (generateColorVariations c m w1) as [v2 w2]
  end.
  cbn [fst] in *. apply Forall_app. now split.
Qed.

Lemma generateTriadicPalette_small (baseColor : Color xnum) (n : nat) (w : World) :
  (n <= 3)%nat ->
  Forall (eq nan_color) (fst (generateTriadicPalette baseColor n w)).
Proof.
  intro Hn.
  assert (A : (ceil_div n 3 <= 1
               /\ floor_div (n - ceil_div n 3) 2 <= 1
               /\ n - ceil_div n 3 - floor_div (n - ceil_div n 3) 2 <= 1)%nat)
    by (destruct n as [|[|[|[|n]]]]; [cbv; lia | cbv; lia | cbv; lia | cbv; lia | lia]).
  destruct A as (A1 & A2 & A3).
  unfold generateTriadicPalette. destruct baseColor as [[r g] b].
  destruct (rgbToHsl r g b) as [[h s] l]. unfold bind, ret. cbv zeta.
  pose proof (generateColorVariations_small (r, g, b) w A1) as F1.
  destruct (generateColorVariations (r, g, b) (ceil_div n 3) w) as [v1 w1].
  match goal with
  | |- context [generateColorVariations ?c ?m w1] =>
      pose proof (generateColorVariations_small c w1 A2) as F2;
      destruct (generateColorVariations c m w1) as [v2 w2]
  end.
  match goal with
  | |- context [generateColorVariations ?c ?m w2] =>
      pose proof (generateColorVariations_small c w2 A3) as F3;
      destruct (generateColorVariations c m w2) as [v3 w3]
  end.
  cbn [fst] in *. apply Forall_app. split; [exact F1|].
  apply Forall_app. now split.
Qed.

Lemma step_t_single : step_t (num := xnum) 0 1 = XNaN.
Proof. reflexivity. Qed.

Lemma generateAnalogousPalette_small (baseColor : Color xnum) (n : nat) :
  (n <= 1)%nat -> Forall (eq nan_color) (generateAnalogousPalette baseColor n).
Proof.
  intro Hn. destruct n as [|[|n]]; [| |lia].
  - rewrite (length_0_nil _ (generateAnalogousPalette_count baseColor 0)). constructor.
  - unfold generateAnalogousPalette. destruct baseColor as [[r g] b].
    destruct (rgbToHsl r g b) as [[h s] l]. cbv zeta. cbn [List.seq map].
    rewrite step_t_single.
    change (dec 15 100 + dec 7 10 * XNaN) with XNaN.
    rewrite hslToRgb_NaN. repeat constructor.
Qed.

Lemma generateMonochromaticPalette_small (baseColor : Color xnum) (n : nat) :
  (n <= 1)%nat -> Forall (eq nan_color) (generateMonochromaticPalette baseColor n).
Proof.
  intro Hn. destruct n as [|[|n]]; [| |lia].
  - rewrite (length_0_nil _ (generateMonochromaticPalette_count baseColor 0)). constructor.
  - unfold generateMonochromaticPalette. destruct baseColor as [[r g] b].
    destruct (rgbToHsl r g b) as [[h s] l]. cbv zeta. cbn [List.seq map].
    rewrite step_t_single.
    change (dec 15 100 + dec 7 10 * XNaN) with XNaN.
    rewrite hslToRgb_NaN. repeat constructor.
Qed.

Lemma expand_small (type : string) (color : Color xnum) (n : nat) (w : World) :
  single_steps type n = true ->
  Forall (eq nan_color) (fst (expand type color n w)).
Proof.
  unfold single_steps, expand.
  destruct (String.eqb type "complementary").
  { intro H. apply Nat.leb_le in H. now apply generateComplementaryPalette_small. }
  destruct (String.eqb type "triadic").
  { intro H. apply Nat.leb_le in H. now apply generateTriadicPalette_small. }
  intro H. apply Nat.leb_le in H.
  destruct (String.eqb type "analogous"); [now apply generateAnalogousPalette_small|].
  destruct (String.eqb type "monochromatic");
    [now apply generateMonochromaticPalette_small|].
  now apply generateColorVariations_small.
Qed.

Lemma expand_each_small (type : string) (n : nat) (seeds newPalette : list (Color xnum))
      (w : World) :
  single_steps type n = true ->
  Forall (eq nan_color) newPalette ->
  Forall (eq nan_color) (fst (expand_each type n seeds newPalette w)).
Proof.
  intro Hs. revert newPalette w.
  induction seeds as [|c rest IH]; intros newPalette w F; [exact F|].
  cbn [expand_each]. unfold bind.
  pose proof (expand_small type c n w Hs) as E.
  destruct (expand type c n w) as [vs w1]. cbn [fst] in E.
  apply IH. apply Forall_app. now split.
Qed.

(** Harmonisation and refinement of colours without channels leave
    nothing. *)
Lemma refine_nan (cfg : Settings (num := xnum)) (newPalette : list (Color xnum)) :
  Forall (eq nan_color) newPalette ->
  uniqueColors
    (filterSimilarColors
       (filteredPalette
          (if negb (String.eqb (harmonizeModel cfg) "none")
           then harmonizeColors newPalette (harmonizeModel cfg)
           else newPalette))
       (similarityThreshold cfg)) = [].
Proof.
  intro F.
  assert (E : filteredPalette
                (if negb (String.eqb (harmonizeModel cfg) "none")
                 then harmonizeColors newPalette (harmonizeModel cfg)
                 else newPalette) = []).
  { assert (G : Forall (eq nan_color)
                       (if negb (String.eqb (harmonizeModel cfg) "none")
                        then harmonizeColors newPalette (harmonizeModel cfg)
                        else newPalette)).
    { destruct (negb _); [|exact F].
      rewrite harmonizeColors_map. apply Forall_map.
      apply Forall_impl with (2 := F). intros c <-.
      symmetry. apply harmonize_nan_color. }
    unfold filteredPalette.
    induction G as [|c l <- _ IH]; [reflexivity|].
    cbn [filter]. rewrite in_range_nan. exact IH. }
  rewrite E. reflexivity.
Qed.

(** X16. When every seed is expanded into at most one colour, or, for
    "complementary" and "triadic", into parts of at most one colour
    each, every colour produced comes from the step [0 / 0] and has no
    channel that is a number; the range filter drops them all and the
    palette is empty, whatever the image, the profile and the
    threshold. *)
Theorem small_groups_empty_palette (cfg : Settings) (allPixels : list (Color xnum))
        (w : World) :
  single_steps (paletteType cfg) (group_size cfg) = true ->
  fst (generatePalette cfg allPixels w) = [].
Proof.
  intro H. rewrite generatePalette_steps. apply refine_nan.
  unfold rawPalette, group_size in *.
  destruct (String.eqb (extractionMethod cfg) "categorical").
  - rewrite categorical_loop_seeds. apply expand_each_small; [exact H | constructor].
  - unfold seeds_clustered, bind.
    destruct (getDominantColors allPixels (dominantColorCount cfg) w) as [seeds w1].
    rewrite clustered_loop_seeds. apply expand_each_small; [exact H | constructor].
Qed.
End SingleColours.

Lemma small_groups_empty_palette_witness :
  fst (generatePalette (HOST := example_host) settings_six_clusters
                       [rgb 200 30 30; rgb 20 40 250] initial_world) = [].
Proof.
  apply (@small_groups_empty_palette example_host settings_six_clusters
                                     [rgb 200 30 30; rgb 20 40 250] initial_world).
  reflexivity.
Defined.

Section Binary64Palette.
Local Open Scope js_scope.

(** On binary64 numbers too, ten colours per group shared among six
    dominant colours leave an empty palette. *)
Example binary64_six_clusters :
  fst (generatePalette (HOST := binary64_host) settings_six_clusters_binary64
                       [frgb 200 30 30; frgb 20 40 250] initial_world) = [].
Proof. vm_compute. reflexivity. Qed.
End Binary64Palette.

(* ================================================================== *)
(** * The colours of the palette are colours of the data model *)

Section ValidPalette.
Context {HOST : JSHost xnum}.
Import QOps OnQ.
Local Open Scope Q_scope.

Lemma Qfloor_index (q : Q) (n : nat) :
  0 <= q < 1 -> (0 < n)%nat ->
  (0 <= Qfloor (q * inject_Z (Z.of_nat n)) < Z.of_nat n)%Z.
Proof.
  intros Hq Hn.
  assert (Hn' : 1 <= inject_Z (Z.of_nat n))
    by (change 1 with (inject_Z 1); rewrite <- Zle_Qle; lia).
  assert (L := Qfloor_le (q * inject_Z (Z.of_nat n))).
  assert (U := Qlt_floor (q * inject_Z (Z.of_nat n))).
  set (f := Qfloor (q * inject_Z (Z.of_nat n))) in *. clearbody f.
  rewrite inject_Z_plus in U. change (inject_Z 1) with 1 in U.
  assert (A : inject_Z (-1) < inject_Z f) by (change (inject_Z (-1)) with (-1); nra).
  assert (B : inject_Z f < inject_Z (Z.of_nat n)) by nra.
  rewrite <- Zlt_Qlt in A, B. lia.
Qed.

(** With a random source within [0, 1), the index is one of the array. *)
Lemma random_pixel_within (pixels : list (Color xnum)) (w : World) :
  random_in_unit HOST -> pixels <> [] ->
  exists c, fst (random_pixel pixels w) = Some c /\ In c pixels.
Proof.
  intros Hrand Hne. unfold random_pixel, bind, ret, random. cbn [fst].
  destruct (Hrand (drawn w)) as (q & -> & Hq).
  unfold array_get, len.
  change (Math_floor (Fin q * of_Z (Z.of_nat (List.length pixels)))%js)
    with (Fin (inject_Z (Qfloor (q * inject_Z (Z.of_nat (List.length pixels)))))).
  assert (Hlen : (0 < List.length pixels)%nat)
    by (destruct pixels; [congruence | simpl; lia]).
  pose proof (Qfloor_index Hq Hlen) as [I0 I1].
  set (k := Qfloor (q * inject_Z (Z.of_nat (List.length pixels)))) in *. clearbody k.
  cbn [as_index xnum_JSNumber XNum.as_index].
  rewrite Qfloor_Z.
  assert (E1 : Qeq_bool (inject_Z k) (inject_Z k) = true) by (apply Qeq_bool_iff; reflexivity).
  assert (E2 : Qle_bool 0 (inject_Z k) = true).
  { apply Qle_bool_iff. change 0 with (inject_Z 0). rewrite <- Zle_Qle. lia. }
  rewrite E1, E2. cbn [andb].
  destruct (nth_error pixels (Z.to_nat k)) as [c|] eqn:E.
  - exists c. split; [reflexivity|]. now apply nth_error_In with (1 := E).
  - exfalso. apply nth_error_None in E. lia.
Qed.

Lemma sample_pixel_valid (pixels : list (Color xnum)) (w : World) :
  random_in_unit HOST -> pixels <> [] -> Forall valid_color pixels ->
  valid_color (fst (sample_pixel pixels w)).
Proof.
  intros Hrand Hne F. unfold sample_pixel, bind, ret.
  destruct (random_pixel_within w Hrand Hne) as (c & E & Hc).
  destruct (random_pixel pixels w) as [p w1]. cbn [fst] in *. subst p.
  rewrite Forall_forall in F. now apply F.
Qed.

Lemma getMedianColor_valid (pixels : list (Color xnum)) :
  pixels <> [] -> Forall valid_color pixels -> valid_color (getMedianColor pixels).
Proof.
  intros Hne F. rewrite Forall_forall in F.
  destruct (getMedianColor_channels Hne) as (p1 & p2 & p3 & H1 & H2 & H3 & ->).
  destruct (F _ H1) as (R1 & G1 & B1 & HR1 & _ & _ & ->).
  destruct (F _ H2) as (R2 & G2 & B2 & _ & HG2 & _ & ->).
  destruct (F _ H3) as (R3 & G3 & B3 & _ & _ & HB3 & ->).
  exists R1, G2, B3.
  split; [exact HR1|]. split; [exact HG2|]. split; [exact HB3 | reflexivity].
Qed.

Lemma black_valid : valid_color black.
Proof. exists 0%Z, 0%Z, 0%Z. unfold byte. repeat split; lia. Qed.

(** [a % 1] keeps the sign of [a] and is below 1 in magnitude. *)
Lemma rem1_bounds (a : Q) :
  (0 <= a -> 0 <= a - 1 * inject_Z (Qtrunc (a / 1)) < 1)
  /\ (a < 0 -> a <= a - 1 * inject_Z (Qtrunc (a / 1)) <= 0).
Proof.
  assert (E : a / 1 == a) by (field; lra).
  unfold Qtrunc. split; intro Ha.
  - assert (T : Qle_bool 0 (a / 1) = true) by (apply Qle_bool_iff; lra).
    rewrite T, (Qfloor_comp _ _ E).
    assert (L := Qfloor_le a). assert (U := Qlt_floor a).
    rewrite inject_Z_plus in U. change (inject_Z 1) with 1 in U. lra.
  - assert (T : Qle_bool 0 (a / 1) = false).
    { destruct (Qle_bool 0 (a / 1)) eqn:T; [|reflexivity].
      apply Qle_bool_iff in T. lra. }
    rewrite T, (Qceiling_comp _ _ E).
    assert (L := Qle_ceiling a). assert (U := Qceiling_lt a).
    set (c := Qceiling a) in *. clearbody c.
    assert (C : inject_Z (c - 1) < inject_Z 0) by (change (inject_Z 0) with 0; lra).
    rewrite <- Zlt_Qlt in C.
    assert (C' : inject_Z c <= inject_Z 0) by (rewrite <- Zle_Qle; lia).
    change (inject_Z 0) with 0 in C'. lra.
Qed.

Lemma rem1_from (a : Q) :
  - (2 # 3) <= a -> - (2 # 3) <= a - 1 * inject_Z (Qtrunc (a / 1)).
Proof.
  intro Ha. destruct (rem1_bounds a) as [P N].
  destruct (Qlt_le_dec a 0) as [L|L]; [specialize (N L) | specialize (P L)]; lra.
Qed.

Lemma steps_unit (i n : nat) :
  (2 <= n)%nat -> (i < n)%nat ->
  0 <= inject_Z (Z.of_nat i) / (inject_Z (Z.of_nat n) - 1) <= 1.
Proof.
  intros Hn Hi.
  assert (H : inject_Z 2 <= inject_Z (Z.of_nat n)) by (rewrite <- Zle_Qle; lia).
  change (inject_Z 2) with 2 in H.
  assert (H0 : inject_Z 0 <= inject_Z (Z.of_nat i)) by (rewrite <- Zle_Qle; lia).
  change (inject_Z 0) with 0 in H0.
  assert (H1 : inject_Z (Z.of_nat i) + inject_Z 1 <= inject_Z (Z.of_nat n))
    by (rewrite <- inject_Z_plus, <- Zle_Qle; lia).
  change (inject_Z 1) with 1 in H1.
  set (d := inject_Z (Z.of_nat n) - 1) in *.
  assert (Hd : 0 < d) by (unfold d; lra).
  assert (E : inject_Z (Z.of_nat i) / d * d == inject_Z (Z.of_nat i)) by (field; lra).
  set (x := inject_Z (Z.of_nat i) / d) in *. clearbody x.
  assert (Hid : inject_Z (Z.of_nat i) <= d) by (unfold d; lra).
  split; nra.
Qed.

Lemma ramp_range (i n : nat) :
  (2 <= n)%nat -> (i < n)%nat -> 15 # 100 <= ramp i n <= 85 # 100.
Proof.
  intros Hn Hi. unfold ramp. pose proof (steps_unit Hn Hi). lra.
Qed.

Lemma step_t_Fin (i n : nat) :
  (2 <= n)%nat ->
  step_t i n = Fin (inject_Z (Z.of_nat i) / (inject_Z (Z.of_nat n) - 1)).
Proof.
  intro Hn. unfold step_t, of_nat. xeval.
  rewrite div_Fin; [reflexivity|].
  change (Z.of_nat n # 1) with (inject_Z (Z.of_nat n)).
  assert (H : inject_Z 2 <= inject_Z (Z.of_nat n)) by (rewrite <- Zle_Qle; lia).
  change (inject_Z 2) with 2 in H. lra.
Qed.

Lemma variation_at_valid (h s : Q) (n d i : nat) :
  random_in_unit HOST -> (2 <= n)%nat -> (i < n)%nat ->
  0 <= h < 1 -> 0 <= s <= 1 ->
  valid_color (variation_at (Fin h) (Fin s) n d i).
Proof.
  intros Hrand Hn Hi Hh Hs. unfold variation_at.
  rewrite (step_L_ramp i Hn).
  destruct (Hrand d) as (q1 & -> & Hq1).
  destruct (Hrand (S d)) as (q2 & -> & Hq2).
  rewrite !(const_dec 5 10), (const_dec 5 100), (const_dec 1 10).
  xeval. rewrite !rem_Fin_1.
  destruct (clamp01_unit (s + (q2 - (5 # 10)) * (1 # 10))) as (y & Ey & Hy).
  change (of_Z 1) with (Fin 1) in Ey. change (of_Z 0) with (Fin 0) in Ey.
  rewrite Math_max_Fin, Math_min_Fin in Ey. rewrite Ey.
  pose proof (ramp_range Hn Hi).
  apply hslToRgb_valid_color; [apply rem1_from; lra | lra | lra].
Qed.

Lemma valid_is_valid_or_nan (l : list (Color xnum)) :
  Forall valid_color l -> Forall valid_or_nan l.
Proof. apply Forall_impl. intros c Hc. now left. Qed.

Lemma nan_is_valid_or_nan (l : list (Color xnum)) :
  Forall (eq nan_color) l -> Forall valid_or_nan l.
Proof. apply Forall_impl. intros c <-. now right. Qed.

Lemma generateColorVariations_valid (R G B : Z) (n : nat) (w : World) :
  random_in_unit HOST -> byte R -> byte G -> byte B ->
  Forall valid_or_nan (fst (generateColorVariations (rgb R G B) n w)).
Proof.
  intros Hrand HR HG HB.
  destruct (le_lt_dec n 1) as [Hn|Hn].
  { now apply nan_is_valid_or_nan, generateColorVariations_small. }
  apply valid_is_valid_or_nan.
  destruct (rgbToHsl_valid HR HG HB) as (h & s & l & E & Hh & Hs & Hl & _).
  unfold generateColorVariations, rgb. rewrite E. unfold bind, ret.
  rewrite variations_loop_spec. cbn [fst app].
  eapply Permutation_Forall; [symmetry; apply Array_sort_perm|].
  apply Forall_forall. intros c Hc. apply in_map_iff in Hc.
  destruct Hc as (j & <- & Hj). apply in_seq in Hj.
  apply variation_at_valid; try assumption; lia.
Qed.

Lemma shifted_seed_valid (h s l c : Q) :
  0 <= h < 1 -> 0 <= c -> 0 <= s <= 1 -> 0 <= l <= 1 ->
  valid_color (hslToRgb (rem (Fin h + Fin c)%js (of_Z 1)) (Fin s) (Fin l)).
Proof.
  intros Hh Hc Hs Hl. xeval. rewrite rem_Fin_1.
  apply hslToRgb_valid_color; [apply rem1_from; lra | lra | lra].
Qed.

Lemma generateColorVariations_of_valid (c : Color xnum) (n : nat) (w : World) :
  random_in_unit HOST -> valid_color c ->
  Forall valid_or_nan (fst (generateColorVariations c n w)).
Proof.
  intros Hrand (R & G & B & HR & HG & HB & ->).
  now apply generateColorVariations_valid.
Qed.

Lemma generateComplementaryPalette_valid (R G B : Z) (n : nat) (w : World) :
  random_in_unit HOST -> byte R -> byte G -> byte B ->
  Forall valid_or_nan (fst (generateComplementaryPalette (rgb R G B) n w)).
Proof.
  intros Hrand HR HG HB.
  destruct (rgbToHsl_valid HR HG HB) as (h & s & l & E & Hh & Hs & Hl & _).
  unfold generateComplementaryPalette, rgb. rewrite E. unfold bind, ret.
  fold (rgb R G B).
  pose proof (generateColorVariations_valid (ceil_div n 2) w Hrand HR HG HB) as F1.
  destruct (generateColorVariations (rgb R G B) (ceil_div n 2) w) as [v1 w1].
  rewrite (const_dec 5 10).
  pose proof (@generateColorVariations_of_valid _ (floor_div n 2) w1 Hrand
                (@shifted_seed_valid h s l (5 # 10) Hh ltac:(lra) Hs Hl)) as F2.
  destruct (generateColorVariations _ (floor_div n 2) w1) as [v2 w2].
  cbn [fst] in *. apply Forall_app. now split.
Qed.

Lemma generateTriadicPalette_valid (R G B : Z) (n : nat) (w : World) :
  random_in_unit HOST -> byte R -> byte G -> byte B ->
  Forall valid_or_nan (fst (generateTriadicPalette (rgb R G B) n w)).
Proof.
  intros Hrand HR HG HB.
  destruct (rgbToHsl_valid HR HG HB) as (h & s & l & E & Hh & Hs & Hl & _).
  unfold generateTriadicPalette, rgb. rewrite E. unfold bind, ret. cbv zeta.
  fold (rgb R G B).
  pose proof (generateColorVariations_valid (ceil_div n 3) w Hrand HR HG HB) as F1.
  destruct (generateColorVariations (rgb R G B) (ceil_div n 3) w) as [v1 w1].
  change (of_Z 1 / of_Z 3)%js with (Fin (1 # 3)).
  change (of_Z 2 / of_Z 3)%js with (Fin (2 # 3)).
  pose proof (@generateColorVariations_of_valid _
                (floor_div (n - ceil_div n 3) 2) w1 Hrand
                (@shifted_seed_valid h s l (1 # 3) Hh ltac:(lra) Hs Hl)) as F2.
  destruct (generateColorVariations _ (floor_div (n - ceil_div n 3) 2) w1) as [v2 w2].
  pose proof (@generateColorVariations_of_valid _
                (n - ceil_div n 3 - floor_div (n - ceil_div n 3) 2) w2 Hrand
                (@shifted_seed_valid h s l (2 # 3) Hh ltac:(lra) Hs Hl)) as F3.
  destruct (generateColorVariations _ (n - ceil_div n 3 - floor_div (n - ceil_div n 3) 2)
                                    w2) as [v3 w3].
  cbn [fst] in *. apply Forall_app. split; [exact F1|].
  apply Forall_app. now split.
Qed.

Lemma generateAnalogousPalette_valid (R G B : Z) (n : nat) :
  byte R -> byte G -> byte B ->
  Forall valid_or_nan (generateAnalogousPalette (rgb R G B) n).
Proof.
  intros HR HG HB.
  destruct (le_lt_dec n 1) as [Hn|Hn].
  { now apply nan_is_valid_or_nan, generateAnalogousPalette_small. }
  apply valid_is_valid_or_nan.
  destruct (rgbToHsl_valid HR HG HB) as (h & s & l & E & Hh & Hs & Hl & _).
  unfold generateAnalogousPalette, rgb. rewrite E. cbv zeta.
  eapply Permutation_Forall; [symmetry; apply Array_sort_perm|].
  apply Forall_forall. intros c Hc. apply in_map_iff in Hc.
  destruct Hc as (i & <- & Hi). apply in_seq in Hi.
  rewrite (step_t_Fin i Hn), (const_dec 8 100), (const_dec 5 10), (const_dec 15 100),
    (const_dec 7 10).
  pose proof (@steps_unit i n Hn ltac:(lia)) as T.
  set (t := inject_Z (Z.of_nat i) / (inject_Z (Z.of_nat n) - 1)) in *. clearbody t.
  xeval. rewrite rem_Fin_1.
  apply hslToRgb_valid_color; [apply rem1_from; lra | lra | lra].
Qed.

Lemma generateMonochromaticPalette_valid (R G B : Z) (n : nat) :
  byte R -> byte G -> byte B ->
  Forall valid_or_nan (generateMonochromaticPalette (rgb R G B) n).
Proof.
  intros HR HG HB.
  destruct (le_lt_dec n 1) as [Hn|Hn].
  { now apply nan_is_valid_or_nan, generateMonochromaticPalette_small. }
  apply valid_is_valid_or_nan.
  destruct (rgbToHsl_valid HR HG HB) as (h & s & l & E & Hh & Hs & Hl & _).
  unfold generateMonochromaticPalette, rgb. rewrite E. cbv zeta.
  apply Forall_forall. intros c Hc. apply in_map_iff in Hc.
  destruct Hc as (i & <- & Hi). apply in_seq in Hi.
  rewrite (step_t_Fin i Hn), (const_dec 15 100), (const_dec 7 10).
  pose proof (@steps_unit i n Hn ltac:(lia)) as T.
  set (t := inject_Z (Z.of_nat i) / (inject_Z (Z.of_nat n) - 1)) in *. clearbody t.
  xeval.
  apply hslToRgb_valid_color; lra.
Qed.

Lemma expand_valid (type : string) (color : Color xnum) (n : nat) (w : World) :
  random_in_unit HOST -> valid_color color ->
  Forall valid_or_nan (fst (expand type color n w)).
Proof.
  intros Hrand (R & G & B & HR & HG & HB & ->). unfold expand.
  destruct (String.eqb type "complementary");
    [now apply generateComplementaryPalette_valid|].
  destruct (String.eqb type "triadic"); [now apply generateTriadicPalette_valid|].
  destruct (String.eqb type "analogous"); [now apply generateAnalogousPalette_valid|].
  destruct (String.eqb type "monochromatic");
    [now apply generateMonochromaticPalette_valid|].
  now apply generateColorVariations_valid.
Qed.


Lemma expand_each_valid (type : string) (n : nat) (seeds newPalette : list (Color xnum))
      (w : World) :
  random_in_unit HOST -> Forall valid_color seeds -> Forall valid_or_nan newPalette ->
  Forall valid_or_nan (fst (expand_each type n seeds newPalette w)).
Proof.
  intros Hrand Fs. revert newPalette w.
  induction Fs as [|c rest Hc Fr IH]; intros newPalette w F; [exact F|].
  cbn [expand_each]. unfold bind.
  pose proof (expand_valid type n w Hrand Hc) as E.
  destruct (expand type c n w) as [vs w1]. cbn [fst] in E.
  apply IH. apply Forall_app. now split.
Qed.

Lemma rawPalette_valid (cfg : Settings) (allPixels : list (Color xnum)) (w : World) :
  random_in_unit HOST -> Forall valid_color allPixels ->
  Forall valid_or_nan (fst (rawPalette cfg allPixels w)).
Proof.
  intros Hrand F. unfold rawPalette.
  destruct (String.eqb (extractionMethod cfg) "categorical").
  - rewrite categorical_loop_seeds.
    apply expand_each_valid; [exact Hrand | | constructor].
    apply seeds_of_Forall; [|exact F].
    intros px Hne Fp. now apply getMedianColor_valid.
  - unfold seeds_clustered, bind.
    assert (D : Forall valid_color
                       (fst (getDominantColors allPixels (dominantColorCount cfg) w))).
    { apply getDominantColors_Forall; [| |exact black_valid|exact F].
      - intros px w' Hne Fp. now apply sample_pixel_valid.
      - intros px Hne Fp. now apply getMedianColor_valid. }
    destruct (getDominantColors allPixels (dominantColorCount cfg) w) as [seeds w1].
    cbn [fst] in D. rewrite clustered_loop_seeds.
    apply expand_each_valid; [exact Hrand | exact D | constructor].
Qed.

Lemma harmonizeColors_valid_or_nan (colors : list (Color xnum)) (model : string) :
  Forall valid_or_nan colors -> Forall valid_or_nan (harmonizeColors colors model).
Proof.
  intro F. rewrite harmonizeColors_map. apply Forall_map.
  apply Forall_impl with (2 := F). intros c [V| ->].
  - left. now apply harmonize_valid_color.
  - right. apply harmonize_nan_color.
Qed.

Lemma filteredPalette_valid (newPalette : list (Color xnum)) :
  Forall valid_or_nan newPalette -> Forall valid_color (filteredPalette newPalette).
Proof.
  intro F. apply Forall_forall. intros c Hc. unfold filteredPalette in Hc.
  apply filter_In in Hc. destruct Hc as [Hin Hr].
  rewrite Forall_forall in F. destruct (F c Hin) as [V| ->]; [exact V|].
  rewrite in_range_nan in Hr. discriminate.
Qed.

(** X18. With a random source within [0, 1) and pixels with integer
    channels of [0, 255], the seeds of both extraction methods are
    colours with integer channels of [0, 255]: medians of pixels, pixels,
    or black. *)
Theorem seeds_valid (allPixels : list (Color xnum)) (count : nat) (w : World) :
  random_in_unit HOST -> Forall valid_color allPixels ->
  Forall valid_color (seeds_of categoryOrder allPixels)
  /\ Forall valid_color (fst (getDominantColors allPixels count w)).
Proof.
  intros Hrand F. split.
  - apply seeds_of_Forall; [|exact F].
    intros px Hne Fp. now apply getMedianColor_valid.
  - apply getDominantColors_Forall; [| |exact black_valid|exact F].
    + intros px w' Hne Fp. now apply sample_pixel_valid.
    + intros px Hne Fp. now apply getMedianColor_valid.
Qed.

(** X19. With a random source within [0, 1) and pixels with integer
    channels of [0, 255], every colour of the palette has integer
    channels of [0, 255], whatever the settings: the colours without
    channels that a count of 1 produces do not reach it. *)
Theorem generatePalette_valid (cfg : Settings) (allPixels : list (Color xnum))
        (w : World) :
  random_in_unit HOST -> Forall valid_color allPixels ->
  Forall valid_color (fst (generatePalette cfg allPixels w)).
Proof.
  intros Hrand F. rewrite generatePalette_steps.
  pose proof (rawPalette_valid cfg w Hrand F) as R.
  set (raw := fst (rawPalette cfg allPixels w)) in *.
  set (np := if negb _ then _ else _).
  assert (N : Forall valid_or_nan np).
  { unfold np. destruct (negb _); [|exact R]. now apply harmonizeColors_valid_or_nan. }
  unfold uniqueColors.
  destruct (unique_from_selects (filterSimilarColors (filteredPalette np)
                                                     (similarityThreshold cfg)) [])
    as (S1 & _).
  apply subsequence_Forall with (1 := S1).
  apply subsequence_Forall with (1 := filterSimilarColors_subsequence _ _).
  now apply filteredPalette_valid.
Qed.
End ValidPalette.

Section ValidPaletteExamples.
Local Open Scope Q_scope.


Lemma seeds_valid_witness :
  Forall valid_color (seeds_of categoryOrder [rgb 200 30 30; rgb 20 40 250])
  /\ Forall valid_color
       (fst (getDominantColors (HOST := example_host) [rgb 200 30 30; rgb 20 40 250] 3
                               initial_world)).
Proof.
  apply (@seeds_valid example_host [rgb 200 30 30; rgb 20 40 250] 3 initial_world);
    [ intro n; exists (1 # 2); split; [reflexivity | lra]
    | repeat constructor; [exists 200%Z, 30%Z, 30%Z | exists 20%Z, 40%Z, 250%Z];
      unfold byte; repeat split; lia ].
Defined.

Lemma generatePalette_valid_witness :
  Forall valid_color
         (fst (generatePalette (HOST := example_host) settings_neon
                               [rgb 200 30 30; rgb 20 40 250] initial_world)).
Proof.
  apply (@generatePalette_valid example_host settings_neon
                                [rgb 200 30 30; rgb 20 40 250] initial_world);
    [ intro n; exists (1 # 2); split; [reflexivity | lra]
    | repeat constructor; [exists 200%Z, 30%Z, 30%Z | exists 20%Z, 40%Z, 250%Z];
      unfold byte; repeat split; lia ].
Defined.
End ValidPaletteExamples.

(* ================================================================== *)
(** * Hue categories, and the HSV pair *)

Section HueCategories.
Import QOps OnQ.
Local Open Scope Q_scope.

Lemma Qle_bool_qltb (a b : Q) : Qle_bool a b = negb (qltb b a).
Proof. unfold qltb. now rewrite negb_involutive. Qed.

(** The six tests on a hue [q]. *)
Lemma in_category_hue (cat : string) (R G B : Z) (q s l : Q) :
  rgbToHsl (of_Z R) (of_Z G) (of_Z B) = (Fin q, Fin s, Fin l) ->
  in_category (rangePairs_of cat categories) (rgb R G B)
  = existsb (fun range : xnum * xnum =>
               let '(low, high) := range in ((low <=? Fin q) && (Fin q <? high))%js)
            (rangePairs_of cat categories).
Proof. intro E. unfold in_category, rgb. now rewrite E. Qed.

Lemma one_category (q : Q) :
  0 <= q < 1 ->
  List.length
    (filter (fun cat =>
               existsb (fun range : xnum * xnum =>
                          let '(low, high) := range in
                          ((low <=? Fin q) && (Fin q <? high))%js)
                       (rangePairs_of cat categories))
            categoryOrder) = 1%nat
  /\ (q = 0 ->
      existsb (fun range : xnum * xnum =>
                 let '(low, high) := range in ((low <=? Fin q) && (Fin q <? high))%js)
              (rangePairs_of "red" categories) = true).
Proof.
  intro Hq. unfold categoryOrder, categories.
  cbn [filter rangePairs_of String.eqb Ascii.eqb Bool.eqb existsb].
  rewrite !const_dec. change (of_Z 0) with (Fin 0). change (of_Z 1) with (Fin 1).
  cbn [le lt xnum_JSNumber]. rewrite !le_Fin. cbn [XNum.lt].
  rewrite !Qle_bool_qltb.
  split.
  - qtests; reflexivity.
  - intros ->. reflexivity.
Qed.

(** X20. A pixel with integer channels of [0, 255] belongs to exactly one
    of the six hue categories; a grey pixel, whose hue is 0, belongs to
    "red". *)
Theorem hue_categories_partition (R G B : Z) :
  byte R -> byte G -> byte B ->
  List.length (filter (fun cat => in_category (rangePairs_of cat categories) (rgb R G B))
                      categoryOrder) = 1%nat
  /\ (R = G -> G = B ->
      in_category (rangePairs_of "red" categories) (rgb R G B) = true).
Proof.
  intros HR HG HB.
  destruct (rgbToHsl_valid HR HG HB) as (h & s & l & E & Hh & _ & _ & Hg).
  destruct (one_category Hh) as [O Z].
  split.
  - rewrite <- O. f_equal. apply filter_ext. intro cat.
    now apply in_category_hue with (1 := E).
  - intros -> ->. rewrite (in_category_hue "red" _ _ _ E).
    apply Z. now apply Hg.
Qed.

Lemma hue_categories_partition_witness :
  List.length (filter (fun cat => in_category (rangePairs_of cat categories)
                                              (rgb 128 128 128))
                      categoryOrder) = 1%nat
  /\ (128%Z = 128%Z -> 128%Z = 128%Z ->
      in_category (rangePairs_of "red" categories) (rgb 128 128 128) = true).
Proof.
  apply (@hue_categories_partition 128 128 128); unfold byte; lia.
Defined.
End HueCategories.

Section NegativeHue.
Import QOps OnQ.
Local Open Scope Q_scope.

(** X21. For a finite hue below 0, down to [-5/6], [hsvToRgb] returns a
    colour without channels, whatever the saturation and the value: the
    sector [i % 6] is negative and no case of the [switch] is taken. *)
Theorem hsvToRgb_negative_hue (h : Q) (s v : xnum) :
  - (5 # 6) <= h -> h < 0 -> hsvToRgb (Fin h) s v = nan_color.
Proof.
  intros Hl Hu. unfold hsvToRgb.
  change (Math_floor (Fin h * of_Z 6)%js) with (Fin (inject_Z (Qfloor (h * 6)))).
  assert (L := Qfloor_le (h * 6)). assert (U := Qlt_floor (h * 6)).
  set (i := Qfloor (h * 6)) in *. clearbody i.
  rewrite inject_Z_plus in U. change (inject_Z 1) with 1 in U.
  assert (A : inject_Z (-6) < inject_Z i) by (change (inject_Z (-6)) with (-6); lra).
  assert (B : inject_Z i < inject_Z 0) by (change (inject_Z 0) with 0; lra).
  rewrite <- Zlt_Qlt in A, B.
  assert (C : (i = -5 \/ i = -4 \/ i = -3 \/ i = -2 \/ i = -1)%Z) by lia.
  destruct C as [->|[->|[->|[->| ->]]]]; reflexivity.
Qed.

Lemma hsvToRgb_negative_hue_witness :
  hsvToRgb (Fin (- (1 # 10))) (of_Z 1) (of_Z 1) = nan_color.
Proof.
  apply (@hsvToRgb_negative_hue (- (1 # 10)) (of_Z 1) (of_Z 1)); lra.
Defined.
End NegativeHue.

Section ExactHsv.
Import QOps OnQ.
Local Open Scope Q_scope.

Lemma hsv_unit_range (r g b : Q) :
  0 <= r <= 1 -> 0 <= g <= 1 -> 0 <= b <= 1 ->
  let '(h, s, v) := hsv_unit r g b in
  0 <= h < 1 /\ 0 <= s <= 1 /\ 0 <= v <= 1
  /\ (r == g -> g == b -> h = 0 /\ s == 0).
Proof.
  intros Hr Hg Hb. unfold hsv_unit.
  destruct (qmax3_spec r g b) as (Mi & M1 & M2 & M3).
  destruct (qmin3_spec r g b) as (mi & m1 & m2 & m3).
  set (max := qmax (qmax r g) b) in *.
  set (min := qmin (qmin r g) b) in *.
  clearbody max min.
  assert (Hmax : max <= 1) by (destruct Mi as [->|[->| ->]]; lra).
  assert (Hmin : 0 <= min) by (destruct mi as [->|[->| ->]]; lra).
  assert (Hs : 0 <= (if Qeq_bool max 0 then 0 else (max - min) / max) <= 1
               /\ (max == min -> (if Qeq_bool max 0 then 0 else (max - min) / max) == 0)).
  { destruct (Qeq_bool_spec max 0) as [Z|Z]; [split; [lra | reflexivity]|].
    assert (Hpos : 0 < max) by (destruct (Qlt_le_dec 0 max); [assumption | exfalso; apply Z; lra]).
    assert (E : (max - min) / max * max == max - min) by (field; lra).
    set (x := (max - min) / max) in *. clearbody x. split; [split; nra | intro; nra]. }
  destruct Hs as [Hs Hs0].
  destruct (Qeq_bool_spec max min) as [E|E].
  - split; [lra|]. split; [exact Hs|]. split; [lra|]. intros _ _. split; [reflexivity|].
    now apply Hs0.
  - assert (Hd : 0 < max - min)
      by (destruct (Qlt_le_dec min max); [lra | exfalso; apply E; lra]).
    split; [|split; [exact Hs | split; [lra|]]].
    + unfold hue_switchQ.
      destruct (Qeq_bool_spec max r) as [E1|E1].
      * destruct (@quot_spec (g - b) (max - min) Hd) as (_ & Hx1 & Hx2 & Hx3 & _);
          [lra|].
        destruct (qltb_spec g b) as [L|L].
        -- specialize (Hx3 ltac:(lra)). lra.
        -- specialize (Hx2 ltac:(lra)). lra.
      * destruct (Qeq_bool_spec max g) as [E2|E2].
        -- destruct (@quot_spec (b - r) (max - min) Hd) as (_ & Hx1 & _); [lra|]. lra.
        -- destruct (@quot_spec (r - g) (max - min) Hd) as (_ & Hx1 & _); [lra|]. lra.
    + intros Erg Egb. exfalso. apply E.
      destruct Mi as [->|[->| ->]], mi as [->|[->| ->]]; lra.
Qed.

Lemma hsvToRgbQ_bytes (h s v : Q) :
  0 <= h -> 0 <= s <= 1 -> 0 <= v <= 1 ->
  let '(R, G, B) := hsvToRgbQ h s v in byte R /\ byte G /\ byte B.
Proof.
  intros Hh Hs Hv. unfold hsvToRgbQ, channels.
  assert (L := Qfloor_le (h * 6)). assert (U := Qlt_floor (h * 6)).
  set (i := Qfloor (h * 6)) in *. clearbody i.
  rewrite inject_Z_plus in U. change (inject_Z 1) with 1 in U.
  set (f := h * 6 - inject_Z i).
  assert (Hf : 0 <= f < 1) by (unfold f; lra). clearbody f.
  assert (Hp : 0 <= v * (1 - s) <= 1) by nra.
  assert (Hq : 0 <= v * (1 - f * s) <= 1) by nra.
  assert (Ht : 0 <= v * (1 - (1 - f) * s) <= 1) by nra.
  split_ifs; (split; [|split]); now apply Qround_byte.
Qed.

(** X22. For a colour with integer channels of [0, 255], [rgbToHsv]
    returns finite numbers: a hue from 0 up to, but not, 1, and a
    saturation and a value from 0 to 1; for a grey the hue and the
    saturation are 0. *)
Theorem rgbToHsv_ranges (R G B : Z) :
  byte R -> byte G -> byte B ->
  exists h s v : Q,
    rgbToHsv (of_Z R) (of_Z G) (of_Z B) = (Fin h, Fin s, Fin v)
    /\ 0 <= h < 1 /\ 0 <= s <= 1 /\ 0 <= v <= 1
    /\ (R = G -> G = B -> h = 0 /\ s == 0).
Proof.
  intros HR HG HB.
  destruct (byte_Q HR) as [HR1 HR2], (byte_Q HG) as [HG1 HG2], (byte_Q HB) as [HB1 HB2].
  change (of_Z R) with (Fin (inject_Z R)). change (of_Z G) with (Fin (inject_Z G)).
  change (of_Z B) with (Fin (inject_Z B)).
  rewrite rgbToHsv_Fin by assumption. unfold rgbToHsvQ.
  pose proof (hsv_unit_range HR1 HG1 HB1) as U.
  destruct (hsv_unit _ _ _) as [[h s] v]. destruct U as (Uh & Us & Uv & Ug).
  exists h, s, v. split; [reflexivity|]. split; [exact Uh|]. split; [exact Us|].
  split; [exact Uv|]. intros -> ->. apply Ug; reflexivity.
Qed.

Lemma rgbToHsv_ranges_witness :
  exists h s v : Q,
    rgbToHsv (of_Z 128) (of_Z 128) (of_Z 128) = (Fin h, Fin s, Fin v)
    /\ 0 <= h < 1 /\ 0 <= s <= 1 /\ 0 <= v <= 1
    /\ (128%Z = 128%Z -> 128%Z = 128%Z -> h = 0 /\ s == 0).
Proof.
  apply (@rgbToHsv_ranges 128 128 128); unfold byte; lia.
Defined.

(** X23. For a finite hue that is not negative and a saturation and a
    value from 0 to 1, [hsvToRgb] returns a colour with integer channels
    of [0, 255]. *)
Theorem hsvToRgb_valid (h s v : Q) :
  0 <= h -> 0 <= s <= 1 -> 0 <= v <= 1 ->
  valid_color (hsvToRgb (Fin h) (Fin s) (Fin v)).
Proof.
  intros Hh Hs Hv. rewrite hsvToRgb_Fin by exact Hh.
  pose proof (hsvToRgbQ_bytes Hh Hs Hv) as V.
  destruct (hsvToRgbQ h s v) as [[R G] B]. destruct V as (VR & VG & VB).
  exists R, G, B. split; [exact VR|]. split; [exact VG|]. split; [exact VB | reflexivity].
Qed.

Lemma hsvToRgb_valid_witness :
  valid_color (hsvToRgb (Fin 1) (Fin (1 # 2)) (Fin (1 # 2))).
Proof.
  apply (@hsvToRgb_valid 1 (1 # 2) (1 # 2)); lra.
Defined.
End ExactHsv.

(* ================================================================== *)
(** * The median *)

Section SortedLists.
Context {A : Type}.
Variable ord : A -> A -> Prop.

(** In a sorted list, the elements up to a position are below the one
    at that position, and the elements from it on are above. *)
Lemma StronglySorted_around (d : A) (l : list A) :
  StronglySorted ord l -> Forall (fun x => ord x x) l ->
  forall mid : nat,
    (mid < List.length l)%nat ->
    Forall (fun x => ord x (nth mid l d)) (firstn (S mid) l)
    /\ Forall (fun x => ord (nth mid l d) x) (skipn mid l).
Proof.
  induction 1 as [|a l S IH F]; intros R mid Hmid; [simpl in Hmid; lia|].
  inversion R as [|? ? Ra Rl]; subst.
  destruct mid as [|mid].
  - cbn [firstn skipn nth]. split; repeat constructor; assumption.
  - cbn [firstn skipn nth]. simpl in Hmid.
    destruct (IH Rl mid ltac:(lia)) as [L U]. split; [|exact U].
    constructor; [|exact L].
    rewrite Forall_forall in F. apply F. apply nth_In. lia.
Qed.

Lemma filter_all (f : A -> bool) (l : list A) :
  Forall (fun x => f x = true) l -> filter f l = l.
Proof.
  induction 1 as [|x l Hx _ IH]; [reflexivity|]. simpl. now rewrite Hx, IH.
Qed.

Lemma filter_length_firstn (f : A -> bool) (l : list A) (k : nat) :
  (k <= List.length l)%nat -> Forall (fun x => f x = true) (firstn k l) ->
  (k <= List.length (filter f l))%nat.
Proof.
  intros Hk F. rewrite <- (firstn_skipn k l) at 1.
  rewrite filter_app, length_app, (filter_all _ F), length_firstn. lia.
Qed.

Lemma filter_length_skipn (f : A -> bool) (l : list A) (k : nat) :
  Forall (fun x => f x = true) (skipn k l) ->
  (List.length l - k <= List.length (filter f l))%nat.
Proof.
  intro F. rewrite <- (firstn_skipn k l) at 2.
  rewrite filter_app, length_app, (filter_all _ F), length_skipn. lia.
Qed.

Lemma filter_length_perm (f : A -> bool) (l l' : list A) :
  Permutation l l' -> List.length (filter f l) = List.length (filter f l').
Proof.
  induction 1 as [|x l l' _ IH|x y l|l l' l'' _ IH1 _ IH2]; simpl.
  - reflexivity.
  - destruct (f x); simpl; now rewrite IH.
  - destruct (f x), (f y); reflexivity.
  - now rewrite IH1.
Qed.
End SortedLists.

Section Median.
Import QOps OnQ.
Local Open Scope Q_scope.

Lemma le_refl_finite (x : xnum) : finite x -> (x <=? x)%js = true.
Proof.
  intros (q & ->). cbn [le xnum_JSNumber]. rewrite le_Fin.
  apply Qle_bool_iff. lra.
Qed.

Lemma ascending_keeps (y x : xnum) :
  finite y -> finite x -> lt (of_Z 0) (y - x)%js = false -> (y <=? x)%js = true.
Proof.
  intros (a & ->) (b & ->). change (of_Z 0) with (Fin 0).
  cbn [sub lt le xnum_JSNumber XNum.sub XNum.lt]. rewrite le_Fin.
  intro H. apply Qle_bool_iff. destruct (qltb_spec 0 (a - b)); [discriminate | lra].
Qed.

Lemma ascending_swaps (y x : xnum) :
  finite y -> finite x -> lt (of_Z 0) (y - x)%js = true -> (x <=? y)%js = true.
Proof.
  intros (a & ->) (b & ->). change (of_Z 0) with (Fin 0).
  cbn [sub lt le xnum_JSNumber XNum.sub XNum.lt]. rewrite le_Fin.
  intro H. apply Qle_bool_iff. destruct (qltb_spec 0 (a - b)); [lra | discriminate].
Qed.

Lemma sort_numbers_sorted (vals : list xnum) :
  Forall finite vals ->
  StronglySorted (fun a b => (a <=? b)%js = true) (sort_numbers vals).
Proof.
  intro F. apply Sorted_StronglySorted.
  - intros a b c. apply XNum_le_trans.
  - unfold sort_numbers.
    apply Array_sort_sorted with (P := finite);
      [exact ascending_keeps | exact ascending_swaps | exact F].
Qed.

(** More than half of the numbers are at most the one picked, and at
    least half are at least it. *)
Lemma sort_numbers_median (vals : list xnum) :
  vals <> [] -> Forall finite vals ->
  (List.length vals
   < 2 * List.length
           (filter (fun x => x <=? at_index (sort_numbers vals)
                                            (Nat.div (List.length vals) 2))%js vals))%nat
  /\ (List.length vals
      <= 2 * List.length
               (filter (fun x => at_index (sort_numbers vals)
                                          (Nat.div (List.length vals) 2) <=? x)%js
                       vals))%nat.
Proof.
  intros Hne F.
  assert (P : Permutation (sort_numbers vals) vals) by apply Array_sort_perm.
  assert (Fs : Forall finite (sort_numbers vals))
    by (eapply Permutation_Forall; [symmetry; exact P | exact F]).
  assert (Hlen : List.length (sort_numbers vals) = List.length vals)
    by apply Array_sort_length.
  assert (Hpos : (0 < List.length vals)%nat)
    by (destruct vals; [congruence | simpl; lia]).
  assert (Hmid : (Nat.div (List.length vals) 2 < List.length (sort_numbers vals))%nat)
    by (rewrite Hlen; apply Nat.div_lt; lia).
  pose proof (Nat.div_mod_eq (List.length vals) 2) as DM.
  pose proof (Nat.mod_upper_bound (List.length vals) 2 ltac:(lia)) as MB.
  destruct (@StronglySorted_around _ _ NaN _ (sort_numbers_sorted F)
              (Forall_impl _ le_refl_finite Fs) _ Hmid) as [L U].
  unfold at_index.
  set (m := nth (Nat.div (List.length vals) 2) (sort_numbers vals) NaN) in *.
  rewrite <- (filter_length_perm (fun x => (x <=? m)%js) P).
  rewrite <- (filter_length_perm (fun x => (m <=? x)%js) P).
  pose proof (@filter_length_firstn _ (fun x => (x <=? m)%js) (sort_numbers vals)
                (S (Nat.div (List.length vals) 2)) ltac:(lia) L) as C1.
  pose proof (@filter_length_skipn _ (fun x => (m <=? x)%js) (sort_numbers vals)
                (Nat.div (List.length vals) 2) U) as C2.
  rewrite Hlen in C2. split; lia.
Qed.

Lemma filter_map_length {A B : Type} (g : A -> B) (f : B -> bool) (l : list A) :
  List.length (filter f (map g l)) = List.length (filter (fun x => f (g x)) l).
Proof.
  induction l as [|x l IH]; [reflexivity|]. simpl.
  destruct (f (g x)); simpl; now rewrite IH.
Qed.

Lemma getMedianColor_picks (pixels : list (Color xnum)) :
  pixels <> [] ->
  getMedianColor pixels
  = (at_index (sort_numbers (map red pixels)) (Nat.div (List.length pixels) 2),
     at_index (sort_numbers (map green pixels)) (Nat.div (List.length pixels) 2),
     at_index (sort_numbers (map blue pixels)) (Nat.div (List.length pixels) 2)).
Proof. destruct pixels as [|p ps]; [congruence | reflexivity]. Qed.

Lemma channel_median (ch : Color xnum -> xnum) (pixels : list (Color xnum)) :
  pixels <> [] -> Forall (fun p => finite (ch p)) pixels ->
  (List.length pixels
   < 2 * List.length
           (filter (fun p => ch p <=? at_index (sort_numbers (map ch pixels))
                                               (Nat.div (List.length pixels) 2))%js
                   pixels))%nat
  /\ (List.length pixels
      <= 2 * List.length
               (filter (fun p => at_index (sort_numbers (map ch pixels))
                                          (Nat.div (List.length pixels) 2) <=? ch p)%js
                       pixels))%nat.
Proof.
  intros Hne F.
  assert (N : map ch pixels <> []) by (destruct pixels; [congruence | discriminate]).
  assert (Fm : Forall finite (map ch pixels)) by (apply Forall_map; exact F).
  pose proof (sort_numbers_median N Fm) as M.
  rewrite !filter_map_length, length_map in M. exact M.
Qed.

(** X24. For pixels with integer channels of [0, 255], not none, the
    median colour has integer channels of [0, 255], and in each channel
    more than half of the pixels are at most the median and at least
    half of the pixels are at least the median. *)
Theorem getMedianColor_is_median (pixels : list (Color xnum)) :
  pixels <> [] -> Forall valid_color pixels ->
  valid_color (getMedianColor pixels)
  /\ Forall (fun ch : Color xnum -> xnum =>
               (List.length pixels
                < 2 * List.length
                        (filter (fun p => ch p <=? ch (getMedianColor pixels))%js
                                pixels))%nat
               /\ (List.length pixels
                   <= 2 * List.length
                            (filter (fun p => ch (getMedianColor pixels) <=? ch p)%js
                                    pixels))%nat)
            [red; green; blue].
Proof.
  intros Hne F. split; [now apply getMedianColor_valid|].
  rewrite (getMedianColor_picks Hne).
  assert (C : forall ch : Color xnum -> xnum,
             In ch [red; green; blue] -> Forall (fun p => finite (ch p)) pixels).
  { intros ch Hch. apply Forall_impl with (2 := F).
    intros c (R & G & B & _ & _ & _ & ->). unfold rgb. rewrite !of_Z_Fin.
    destruct Hch as [<-|[<-|[<-|[]]]]; eexists; reflexivity. }
  repeat constructor; cbn [red green blue fst snd];
    apply channel_median; try exact Hne; apply C; simpl; auto.
Qed.

Lemma getMedianColor_is_median_witness :
  valid_color (getMedianColor [rgb 10 200 30; rgb 20 100 50; rgb 30 0 40])
  /\ Forall (fun ch : Color xnum -> xnum =>
               (List.length [rgb 10 200 30; rgb 20 100 50; rgb 30 0 40]
                < 2 * List.length
                        (filter (fun p => ch p
                                          <=? ch (getMedianColor
                                                    [rgb 10 200 30; rgb 20 100 50;
                                                     rgb 30 0 40]))%js
                                [rgb 10 200 30; rgb 20 100 50; rgb 30 0 40]))%nat
               /\ (List.length [rgb 10 200 30; rgb 20 100 50; rgb 30 0 40]
                   <= 2 * List.length
                            (filter (fun p => ch (getMedianColor
                                                    [rgb 10 200 30; rgb 20 100 50;
                                                     rgb 30 0 40])
                                              <=? ch p)%js
                                    [rgb 10 200 30; rgb 20 100 50; rgb 30 0 40]))%nat)
            [red; green; blue].
Proof.
  apply (@getMedianColor_is_median [rgb 10 200 30; rgb 20 100 50; rgb 30 0 40]);
    [ discriminate
    | repeat constructor;
      [exists 10%Z, 200%Z, 30%Z | exists 20%Z, 100%Z, 50%Z | exists 30%Z, 0%Z, 40%Z];
      unfold byte; repeat split; lia ].
Defined.
End Median.

(* ================================================================== *)
(** * The analogous and the monochromatic ramps *)

Section Ramps.
Import QOps OnQ.
Local Open Scope Q_scope.

Lemma valid_finite (c : Color xnum) : valid_color c -> finite_color c.
Proof.
  intros (R & G & B & _ & _ & _ & ->). unfold rgb. rewrite !of_Z_Fin.
  now exists (R # 1), (G # 1), (B # 1).
Qed.

Lemma analogous_steps (R G B : Z) (n : nat) :
  byte R -> byte G -> byte B -> (2 <= n)%nat ->
  generateAnalogousPalette (rgb R G B) n
  = Array_sort by_lightness_desc
               (map (fun i => analogous_at (rgb R G B) i n) (List.seq 0 n))
  /\ Forall valid_color (map (fun i => analogous_at (rgb R G B) i n) (List.seq 0 n)).
Proof.
  intros HR HG HB Hn.
  destruct (rgbToHsl_valid HR HG HB) as (h & s & l & E & Hh & Hs & Hl & _).
  assert (M : forall i, (i < n)%nat ->
                hslToRgb (rem (Fin h + dec 8 100 * (step_t i n - dec 5 10))%js (of_Z 1))
                         (Fin s) (dec 15 100 + dec 7 10 * step_t i n)%js
                = analogous_at (rgb R G B) i n
                /\ valid_color (analogous_at (rgb R G B) i n)).
  { intros i Hi. unfold analogous_at, hue, saturation, rgb. rewrite E.
    unfold hue_offset, ramp.
    rewrite (step_t_Fin i Hn), (const_dec 8 100), (const_dec 5 10), (const_dec 15 100),
      (const_dec 7 10).
    pose proof (steps_unit Hn Hi) as T.
    set (t := inject_Z (Z.of_nat i) / (inject_Z (Z.of_nat n) - 1)) in *. clearbody t.
    xeval. split; [reflexivity|]. rewrite rem_Fin_1.
    apply hslToRgb_valid_color; [apply rem1_from; lra | lra | lra]. }
  split.
  - unfold generateAnalogousPalette, rgb. rewrite E. cbv zeta. f_equal.
    apply map_ext_in. intros i Hi. apply in_seq in Hi. apply M. lia.
  - apply Forall_forall. intros c Hc. apply in_map_iff in Hc.
    destruct Hc as (i & <- & Hi). apply in_seq in Hi. apply M. lia.
Qed.

Lemma hue_offset_bound (i n : nat) :
  (2 <= n)%nat -> (i < n)%nat -> Qabs (hue_offset i n) <= 4 # 100.
Proof.
  intros Hn Hi. unfold hue_offset. pose proof (steps_unit Hn Hi).
  apply Qabs_Qle_condition. lra.
Qed.

Lemma monochromatic_steps (R G B : Z) (n : nat) :
  byte R -> byte G -> byte B -> (2 <= n)%nat ->
  generateMonochromaticPalette (rgb R G B) n
  = map (fun i => monochromatic_at (rgb R G B) i n) (List.seq 0 n).
Proof.
  intros HR HG HB Hn.
  destruct (rgbToHsl_valid HR HG HB) as (h & s & l & E & Hh & Hs & Hl & _).
  unfold generateMonochromaticPalette, rgb. rewrite E.
  apply map_ext. intro i. unfold monochromatic_at, hue, saturation, rgb. rewrite E.
  unfold ramp. rewrite (step_t_Fin i Hn), (const_dec 15 100), (const_dec 7 10).
  xeval. reflexivity.
Qed.

Lemma hue2rgbQ_mono (p q p' q' t : Q) :
  p <= p' -> q <= q' -> -1 <= t -> hue2rgbQ p q t <= hue2rgbQ p' q' t.
Proof.
  intros Hp Hq Ht. unfold hue2rgbQ. qtests; nra.
Qed.

Lemma Qround_mono (a b : Q) : a <= b -> (Qround a <= Qround b)%Z.
Proof. intro H. unfold Qround. apply Qfloor_resp_le. lra. Qed.

Lemma hslToRgbQ_mono (h s l l' : Q) :
  - (2 # 3) <= h -> 0 <= s <= 1 -> 0 <= l -> l <= l' -> l' <= 1 ->
  let '(R, G, B) := hslToRgbQ h s l in
  let '(R', G', B') := hslToRgbQ h s l' in
  (R <= R' /\ G <= G' /\ B <= B')%Z.
Proof.
  intros Hh Hs H0 Hl H1. unfold hslToRgbQ, channels.
  destruct (Qeq_bool s 0).
  - repeat split; apply Qround_mono; nra.
  - set (q := if qltb l (5 # 10) then l * (1 + s) else l + s - l * s).
    set (q' := if qltb l' (5 # 10) then l' * (1 + s) else l' + s - l' * s).
    assert (Hq : q <= q' /\ 2 * l - q <= 2 * l' - q')
      by (unfold q, q'; destruct (qltb_spec l (5 # 10)), (qltb_spec l' (5 # 10));
          split; nra).
    clearbody q q'. destruct Hq as [Hq Hp].
    assert (M1 := @hue2rgbQ_mono _ _ _ _ (h + (1 # 3)) Hp Hq ltac:(lra)).
    assert (M2 := @hue2rgbQ_mono _ _ _ _ h Hp Hq ltac:(lra)).
    assert (M3 := @hue2rgbQ_mono _ _ _ _ (h - (1 # 3)) Hp Hq ltac:(lra)).
    repeat split; apply Qround_mono; nra.
Qed.

Lemma lightness_mono (R G B R' G' B' : Z) :
  (R <= R')%Z -> (G <= G')%Z -> (B <= B')%Z ->
  ge_lightness (rgb R' G' B') (rgb R G B).
Proof.
  intros HR HG HB. unfold ge_lightness, rgb.
  change (of_Z R) with (Fin (inject_Z R)). change (of_Z G) with (Fin (inject_Z G)).
  change (of_Z B) with (Fin (inject_Z B)). change (of_Z R') with (Fin (inject_Z R')).
  change (of_Z G') with (Fin (inject_Z G')). change (of_Z B') with (Fin (inject_Z B')).
  rewrite !lightness_Fin. cbn [le xnum_JSNumber]. rewrite le_Fin. apply Qle_bool_iff.
  rewrite Zle_Qle in HR, HG, HB.
  destruct (qmax3_spec (inject_Z R * (1 # 255)) (inject_Z G * (1 # 255))
                       (inject_Z B * (1 # 255))) as (Mi & _).
  destruct (qmax3_spec (inject_Z R' * (1 # 255)) (inject_Z G' * (1 # 255))
                       (inject_Z B' * (1 # 255))) as (_ & M1 & M2 & M3).
  destruct (qmin3_spec (inject_Z R * (1 # 255)) (inject_Z G * (1 # 255))
                       (inject_Z B * (1 # 255))) as (_ & m1 & m2 & m3).
  destruct (qmin3_spec (inject_Z R' * (1 # 255)) (inject_Z G' * (1 # 255))
                       (inject_Z B' * (1 # 255))) as (mi & _).
  cbv zeta in *.
  destruct Mi as [-> |[-> | ->]], mi as [-> |[-> | ->]]; lra.
Qed.

Lemma hslToRgb_lightness_mono (h s l l' : Q) :
  - (2 # 3) <= h -> 0 <= s <= 1 -> 0 <= l -> l <= l' -> l' <= 1 ->
  ge_lightness (hslToRgb (Fin h) (Fin s) (Fin l')) (hslToRgb (Fin h) (Fin s) (Fin l)).
Proof.
  intros Hh Hs H0 Hl H1. rewrite !hslToRgb_Fin.
  pose proof (hslToRgbQ_mono Hh Hs H0 Hl H1) as M.
  destruct (hslToRgbQ h s l) as [[R G] B], (hslToRgbQ h s l') as [[R' G'] B'].
  destruct M as (MR & MG & MB). now apply lightness_mono.
Qed.

Lemma ramp_mono (i j n : nat) :
  (2 <= n)%nat -> (i <= j)%nat -> ramp i n <= ramp j n.
Proof.
  intros Hn Hij. unfold ramp.
  assert (H : inject_Z 2 <= inject_Z (Z.of_nat n)) by (rewrite <- Zle_Qle; lia).
  change (inject_Z 2) with 2 in H.
  assert (Hi : inject_Z (Z.of_nat i) <= inject_Z (Z.of_nat j)) by (rewrite <- Zle_Qle; lia).
  set (d := inject_Z (Z.of_nat n) - 1) in *.
  assert (Hd : 0 < d) by (unfold d; lra).
  assert (Ei : inject_Z (Z.of_nat i) / d * d == inject_Z (Z.of_nat i)) by (field; lra).
  assert (Ej : inject_Z (Z.of_nat j) / d * d == inject_Z (Z.of_nat j)) by (field; lra).
  set (x := inject_Z (Z.of_nat i) / d) in *. set (y := inject_Z (Z.of_nat j) / d) in *.
  clearbody x y. nra.
Qed.

Lemma StronglySorted_map_seq {A : Type} (R : A -> A -> Prop) (f : nat -> A)
      (start len : nat) :
  (forall i j, (start <= i < j)%nat -> (j < start + len)%nat -> R (f i) (f j)) ->
  StronglySorted R (map f (List.seq start len)).
Proof.
  revert start. induction len as [|len IH]; intros start H; [constructor|].
  cbn [List.seq map]. constructor.
  - apply IH. intros i j Hij Hj. apply H; lia.
  - apply Forall_forall. intros x Hx. apply in_map_iff in Hx.
    destruct Hx as (j & <- & Hj). apply in_seq in Hj. apply H; lia.
Qed.

Lemma monochromatic_ascending (R G B : Z) (n : nat) :
  byte R -> byte G -> byte B -> (2 <= n)%nat ->
  StronglySorted (fun a b => ge_lightness b a)
                 (map (fun i => monochromatic_at (rgb R G B) i n) (List.seq 0 n)).
Proof.
  intros HR HG HB Hn.
  destruct (rgbToHsl_valid HR HG HB) as (h & s & l & E & Hh & Hs & Hl & _).
  apply StronglySorted_map_seq. intros i j Hij Hj.
  unfold monochromatic_at, hue, saturation, rgb. rewrite E.
  pose proof (@ramp_range i n Hn ltac:(lia)).
  pose proof (@ramp_range j n Hn ltac:(lia)).
  pose proof (@ramp_mono i j n Hn ltac:(lia)).
  apply hslToRgb_lightness_mono; lra.
Qed.

(** X25. For a seed with integer channels of [0, 255] and a count [n] of
    at least 2, [generateAnalogousPalette] returns a permutation of the
    colours [hslToRgb] gives, for each step [i] below [n], at the hue of
    the seed shifted by [0.08 * (i / (n - 1) - 0.5)], which is at most
    0.04 either way, at the saturation of the seed and at the lightness
    [0.15 + 0.7 * i / (n - 1)]; all have integer channels of [0, 255],
    and every colour returned is at least as light, by [rgbToHsl], as
    every colour after it. *)
Theorem analogous_sorted (R G B : Z) (n : nat) :
  byte R -> byte G -> byte B -> (2 <= n)%nat ->
  Permutation (generateAnalogousPalette (rgb R G B) n)
              (map (fun i => analogous_at (rgb R G B) i n) (List.seq 0 n))
  /\ (forall i : nat, (i < n)%nat -> Qabs (hue_offset i n) <= 4 # 100)
  /\ Forall valid_color (generateAnalogousPalette (rgb R G B) n)
  /\ StronglySorted ge_lightness (generateAnalogousPalette (rgb R G B) n).
Proof.
  intros HR HG HB Hn.
  destruct (analogous_steps HR HG HB Hn) as [E V]. rewrite E.
  split; [apply Array_sort_perm|].
  split; [intros i Hi; now apply hue_offset_bound|].
  split; [eapply Permutation_Forall; [symmetry; apply Array_sort_perm | exact V]|].
  apply Sorted_StronglySorted; [exact ge_lightness_trans|].
  apply Array_sort_sorted with (P := finite_color).
  - exact lightness_keeps.
  - exact lightness_swaps.
  - apply Forall_impl with (2 := V). exact valid_finite.
Qed.

Lemma analogous_sorted_witness :
  Permutation (generateAnalogousPalette (rgb 200 30 30) 3)
              (map (fun i => analogous_at (rgb 200 30 30) i 3) (List.seq 0 3))
  /\ (forall i : nat, (i < 3)%nat -> Qabs (hue_offset i 3) <= 4 # 100)
  /\ Forall valid_color (generateAnalogousPalette (rgb 200 30 30) 3)
  /\ StronglySorted ge_lightness (generateAnalogousPalette (rgb 200 30 30) 3).
Proof.
  apply (@analogous_sorted 200 30 30 3); unfold byte; lia.
Defined.

(** X26. For a seed with integer channels of [0, 255] and a count [n] of
    at least 2, [generateMonochromaticPalette] returns, for each step
    [i] below [n] in turn, the colour [hslToRgb] gives at the hue and
    the saturation of the seed and at the lightness
    [0.15 + 0.7 * i / (n - 1)]; it does not sort them, and every colour
    returned is at most as light, by [rgbToHsl], as every colour after
    it: the opposite order to that of the other palette types. *)
Theorem monochromatic_in_ascending_order (R G B : Z) (n : nat) :
  byte R -> byte G -> byte B -> (2 <= n)%nat ->
  generateMonochromaticPalette (rgb R G B) n
  = map (fun i => monochromatic_at (rgb R G B) i n) (List.seq 0 n)
  /\ StronglySorted (fun a b => ge_lightness b a)
                    (generateMonochromaticPalette (rgb R G B) n).
Proof.
  intros HR HG HB Hn. rewrite (monochromatic_steps HR HG HB Hn).
  split; [reflexivity | now apply monochromatic_ascending].
Qed.

Lemma monochromatic_in_ascending_order_witness :
  generateMonochromaticPalette (rgb 200 30 30) 3
  = map (fun i => monochromatic_at (rgb 200 30 30) i 3) (List.seq 0 3)
  /\ StronglySorted (fun a b => ge_lightness b a)
                    (generateMonochromaticPalette (rgb 200 30 30) 3).
Proof.
  apply (@monochromatic_in_ascending_order 200 30 30 3); unfold byte; lia.
Defined.
End Ramps.

(* ================================================================== *)
(** * Hexadecimal text *)

Module HexFacts.
Import PaletteFile HexSpec.
Local Open Scope string_scope.
Local Open Scope Z_scope.

Lemma digit_value_upper (d : Z) : 0 <= d < 16 -> digit_value (upper_digit d) = d.
Proof.
  intro H.
  assert (C : d = 0 \/ d = 1 \/ d = 2 \/ d = 3 \/ d = 4 \/ d = 5 \/ d = 6 \/ d = 7
              \/ d = 8 \/ d = 9 \/ d = 10 \/ d = 11 \/ d = 12 \/ d = 13 \/ d = 14
              \/ d = 15) by lia.
  repeat (destruct C as [->|C]; [reflexivity|]). subst. reflexivity.
Qed.

Lemma hex2_injective (c c' : Z) : channel c -> channel c' -> hex2 c = hex2 c' -> c = c'.
Proof.
  unfold channel, hex2. intros Hc Hc' E.
  injection E as E1 E0.
  apply (f_equal digit_value) in E1, E0.
  assert (B1 : 0 <= c / 16 < 16)
    by (split; [apply Z.div_pos; lia | apply Z.div_lt_upper_bound; lia]).
  assert (B2 : 0 <= c' / 16 < 16)
    by (split; [apply Z.div_pos; lia | apply Z.div_lt_upper_bound; lia]).
  assert (B3 : 0 <= c mod 16 < 16) by (apply Z.mod_pos_bound; lia).
  assert (B4 : 0 <= c' mod 16 < 16) by (apply Z.mod_pos_bound; lia).
  rewrite (digit_value_upper B1), (digit_value_upper B2) in E1.
  rewrite (digit_value_upper B3), (digit_value_upper B4) in E0.
  rewrite (Z.div_mod c 16), (Z.div_mod c' 16) by lia. congruence.
Qed.

Lemma toUpperCase_app (s t : string) :
  toUpperCase (s ++ t) = toUpperCase s ++ toUpperCase t.
Proof. induction s as [|c s IH]; simpl; [reflexivity | now rewrite IH]. Qed.

Lemma append_assoc (s t u : string) : (s ++ t) ++ u = s ++ t ++ u.
Proof. induction s as [|c s IH]; simpl; [reflexivity | now rewrite IH]. Qed.

(** The digits accumulate in front of those already there. *)
Lemma hex_digits_acc (fuel : nat) (n : Z) (acc : string) :
  hex_digits fuel n acc = hex_digits fuel n "" ++ acc.
Proof.
  revert n acc. induction fuel as [|fuel IH]; intros n acc; [reflexivity|].
  cbn [hex_digits]. cbv zeta.
  destruct (n / 16 =? 0); [reflexivity|].
  rewrite (IH _ (String _ acc)), (IH _ (String _ "")), append_assoc. reflexivity.
Qed.

Lemma slice_last2_app (s : string) (a b : ascii) :
  slice_last2 (s ++ String a (String b "")) = String a (String b "").
Proof.
  unfold slice_last2.
  assert (L : forall s : string,
             (String.length (s ++ String a (String b "")) - 2)%nat = String.length s).
  { clear s. induction s as [|c s IH]; [reflexivity|].
    change (String.length (String c s ++ String a (String b "")))
      with (S (String.length (s ++ String a (String b "")))).
    assert (2 <= String.length (s ++ String a (String b "")))%nat
      by (clear IH; induction s; simpl; lia).
    simpl String.length. lia. }
  rewrite L. clear L.
  induction s as [|c s IH]; [reflexivity | exact IH].
Qed.

(** From 256 on, the digits in base 16 end with the two digits of the
    low byte. *)
Lemma hex_digits_low_byte (n : Z) :
  256 <= n ->
  exists front : string,
    hex_digits (S (Z.to_nat (Z.log2 n))) n ""
    = front ++ String (digit_char ((n / 16) mod 16)) (String (digit_char (n mod 16)) "").
Proof.
  intro Hn.
  assert (F : exists fuel, S (Z.to_nat (Z.log2 n)) = S (S fuel)).
  { assert (8 <= Z.log2 n) by (apply Z.log2_le_pow2; simpl; lia).
    exists (Z.to_nat (Z.log2 n) - 1)%nat. lia. }
  destruct F as (fuel & ->).
  cbn [hex_digits]. cbv zeta.
  assert (E1 : (n / 16 =? 0) = false).
  { apply Z.eqb_neq. intro H. apply Z.div_small_iff in H; lia. }
  assert (E2 : (n / 16 / 16 =? 0) = false).
  { apply Z.eqb_neq. intro H. rewrite Z.div_div in H by lia.
    apply Z.div_small_iff in H; lia. }
  rewrite E1, E2. rewrite hex_digits_acc. eexists. reflexivity.
Qed.

Lemma low_byte_digits (n : Z) :
  0 <= n ->
  String (upper_digit ((n / 16) mod 16)) (String (upper_digit (n mod 16)) "")
  = hex2 (n mod 256).
Proof.
  intro Hn. unfold hex2. f_equal; [f_equal|].
  - change 256 with (16 * 16). rewrite Z.rem_mul_r by lia.
    replace (n mod 16 + 16 * ((n / 16) mod 16)) with ((n / 16) mod 16 * 16 + n mod 16)
      by ring.
    rewrite Z.div_add_l by lia.
    rewrite (Z.div_small (n mod 16)) by (apply Z.mod_pos_bound; lia). lia.
  - f_equal. change 256 with (16 * 16). rewrite Z.rem_mul_r by lia.
    replace (n mod 16 + 16 * ((n / 16) mod 16)) with (n mod 16 + (n / 16) mod 16 * 16)
      by ring.
    rewrite Z.mod_add by lia. rewrite Z.mod_mod by lia. reflexivity.
Qed.

Lemma upper_digit_char (d : Z) : upper_char (digit_char d) = upper_digit d.
Proof.
  destruct d as [|p|p]; try reflexivity.
  do 4 (destruct p as [p|p|]; try reflexivity).
Qed.

Lemma toHex_low_byte_of (c : Z) : 0 <= c -> toHex c = hex2 (c mod 256).
Proof.
  intro H0. destruct (Z_lt_le_dec c 256) as [L|L].
  - rewrite Z.mod_small by lia.
    apply PaletteFileFacts.toHex_channel. unfold channel. lia.
  - destruct (hex_digits_low_byte L) as (front & E).
    unfold toHex, toString16.
    assert (N : (c <? 0) = false) by (apply Z.ltb_ge; lia).
    rewrite N, E.
    change ("0" ++ front ++ String (digit_char ((c / 16) mod 16))
                                   (String (digit_char (c mod 16)) ""))%string
      with (String "0" front ++ String (digit_char ((c / 16) mod 16))
                                       (String (digit_char (c mod 16)) ""))%string.
    rewrite slice_last2_app. cbn [toUpperCase]. rewrite !upper_digit_char.
    apply low_byte_digits. lia.
Qed.

Lemma toHex_negative_small (c : Z) :
  -256 < c < 0 ->
  toHex c = if -16 <? c then String "-" (String (upper_digit (- c)) "") else hex2 (- c).
Proof.
  intro H.
  assert (A : hex_agree_negative 255 = true) by (vm_compute; reflexivity).
  unfold hex_agree_negative in A. rewrite forallb_forall in A.
  specialize (A (Z.to_nat (- c))).
  rewrite Z2Nat.id, Z.opp_involutive in A by lia.
  apply String.eqb_eq, A, in_seq. lia.
Qed.

Lemma toHex_negative_large (c : Z) : c <= -256 -> toHex c = hex2 ((- c) mod 256).
Proof.
  intro H.
  assert (L : 256 <= - c) by lia.
  destruct (hex_digits_low_byte L) as (front & E).
  unfold toHex, toString16.
  assert (N : (c <? 0) = true) by (apply Z.ltb_lt; lia).
  rewrite N, E.
  change ("0" ++ "-" ++ front ++ String (digit_char ((- c / 16) mod 16))
                                        (String (digit_char (- c mod 16)) ""))%string
    with (String "0" (String "-" front)
          ++ String (digit_char ((- c / 16) mod 16))
                    (String (digit_char (- c mod 16)) ""))%string.
  rewrite slice_last2_app. cbn [toUpperCase]. rewrite !upper_digit_char.
  apply low_byte_digits. lia.
Qed.

Lemma rgbToHex_toHex (r g b : Z) :
  SwatchText.rgbToHex r g b = "#" ++ toHex r ++ toHex g ++ toHex b.
Proof.
  unfold SwatchText.rgbToHex, toHex.
  change (toUpperCase ("#" ++ ?s)) with ("#" ++ toUpperCase s).
  now rewrite !toUpperCase_app.
Qed.

(** X27. For channels that are integers of [0, 255], [rgbToHex] returns
    "#" followed by the two-digit, zero-padded, uppercase hexadecimal of
    the red, the green and the blue channel, seven characters in all;
    and two such colours with the same text are the same colour. *)
Theorem rgbToHex_format (r g b : Z) :
  channel r -> channel g -> channel b ->
  SwatchText.rgbToHex r g b = "#" ++ hex2 r ++ hex2 g ++ hex2 b
  /\ String.length (SwatchText.rgbToHex r g b) = 7%nat
  /\ forall r' g' b' : Z,
       channel r' -> channel g' -> channel b' ->
       SwatchText.rgbToHex r g b = SwatchText.rgbToHex r' g' b' ->
       (r, g, b) = (r', g', b').
Proof.
  intros Hr Hg Hb.
  assert (F : forall x y z : Z,
             channel x -> channel y -> channel z ->
             SwatchText.rgbToHex x y z = "#" ++ hex2 x ++ hex2 y ++ hex2 z).
  { intros x y z Hx Hy Hz. rewrite rgbToHex_toHex.
    now rewrite (PaletteFileFacts.toHex_channel Hx), (PaletteFileFacts.toHex_channel Hy),
      (PaletteFileFacts.toHex_channel Hz). }
  rewrite (F r g b Hr Hg Hb). split; [reflexivity|]. split; [reflexivity|].
  intros r' g' b' Hr' Hg' Hb' E. rewrite (F r' g' b' Hr' Hg' Hb') in E.
  injection E as A1 A2 A3 A4 A5 A6.
  assert (E1 : hex2 r = hex2 r') by (unfold hex2; now rewrite A1, A2).
  assert (E2 : hex2 g = hex2 g') by (unfold hex2; now rewrite A3, A4).
  assert (E3 : hex2 b = hex2 b') by (unfold hex2; now rewrite A5, A6).
  now rewrite (hex2_injective Hr Hr' E1), (hex2_injective Hg Hg' E2),
    (hex2_injective Hb Hb' E3).
Qed.

Lemma rgbToHex_format_witness :
  SwatchText.rgbToHex 18 171 5 = "#12AB05"
  /\ String.length (SwatchText.rgbToHex 18 171 5) = 7%nat
  /\ forall r' g' b' : Z,
       channel r' -> channel g' -> channel b' ->
       SwatchText.rgbToHex 18 171 5 = SwatchText.rgbToHex r' g' b' ->
       (18, 171, 5) = (r', g', b').
Proof.
  apply (@rgbToHex_format 18 171 5); unfold channel; lia.
Defined.

(** X28. Two colours with integer channels of [0, 255] that are exported
    as the same entry are the same colour. *)
Theorem formatColor_injective (r g b r' g' b' : Z) :
  channel r -> channel g -> channel b ->
  channel r' -> channel g' -> channel b' ->
  formatColor r g b = formatColor r' g' b' -> (r, g, b) = (r', g', b').
Proof.
  intros Hr Hg Hb Hr' Hg' Hb' E. unfold formatColor in E.
  rewrite !PaletteFileFacts.toHex_channel in E by assumption.
  injection E as A1 A2 A3 A4 A5 A6.
  assert (E1 : hex2 b = hex2 b') by (unfold hex2; now rewrite A1, A2).
  assert (E2 : hex2 g = hex2 g') by (unfold hex2; now rewrite A3, A4).
  assert (E3 : hex2 r = hex2 r') by (unfold hex2; now rewrite A5, A6).
  now rewrite (hex2_injective Hr Hr' E3), (hex2_injective Hg Hg' E2),
    (hex2_injective Hb Hb' E1).
Qed.

Lemma formatColor_injective_witness : (18, 171, 5) = (18, 171, 5).
Proof.
  apply (@formatColor_injective 18 171 5 18 171 5);
    try (unfold channel; lia); reflexivity.
Defined.

(** X29. The exported text of a channel keeps the two low hexadecimal
    digits only: an integer from 0 on is exported as its value modulo
    256, an integer up to -16 as its magnitude modulo 256, and an integer
    from -15 to -1 as a minus sign and one digit; so a channel and the
    same channel plus 256 are exported alike. *)
Theorem toHex_low_byte (c : Z) :
  (0 <= c -> toHex c = hex2 (c mod 256))
  /\ (c <= -16 -> toHex c = hex2 ((- c) mod 256))
  /\ (-16 < c < 0 -> toHex c = String "-" (String (upper_digit (- c)) ""))
  /\ (0 <= c -> forall g b : Z, formatColor (c + 256) g b = formatColor c g b).
Proof.
  split; [apply toHex_low_byte_of|]. split; [|split].
  - intro H. destruct (Z_lt_le_dec (-256) c) as [L|L].
    + rewrite (@toHex_negative_small c) by lia.
      assert (N : (-16 <? c) = false) by (apply Z.ltb_ge; lia). rewrite N.
      now rewrite Z.mod_small by lia.
    + now apply toHex_negative_large.
  - intro H. rewrite (@toHex_negative_small c) by lia.
    assert (N : (-16 <? c) = true) by (apply Z.ltb_lt; lia). now rewrite N.
  - intros H g b. unfold formatColor.
    rewrite (@toHex_low_byte_of (c + 256)), (@toHex_low_byte_of c) by lia.
    replace (c + 256) with (c + 1 * 256) by ring. now rewrite Z.mod_add by lia.
Qed.

End HexFacts.
